(** * SparseMatrix: a sorted doubly-linked chain of stored cells

    Shallow embedding of [SparseMatrix.h].  The container is a
    doubly-linked list of heap nodes, so the embedding keeps an explicit
    node store ([gmap] from addresses to nodes); a matrix object is the
    record of its data members and every member function threads the
    store through.  [new] draws from an allocation budget, so that
    [std::bad_alloc] can be raised at any allocation.

    An [int] is a [Z]; the code compares [int]s and increments two kinds
    of counters only: [size], an [unsigned int] that wraps around, and
    the [int] counters of [evaluate], whose overflow is undefined. *)

From Stdlib Require Import ZArith Lia.
From stdpp Require Import gmap list sorting.

Local Open Scope Z_scope.

(** ** Machine integers *)

Definition INT_MAX : Z := 2147483647.
Definition UINT_MOD : Z := 4294967296.

(** [++size] on an [unsigned int]. *)
Definition uincr (n : Z) : Z := (n + 1) mod UINT_MOD.

(** ** Outcomes of a call

    [Ret] is a normal return, [Throw] a propagating [std::bad_alloc]
    (with the store at the point where it leaves the call), [Abort] a
    failed [assert], [Fault] an access through a null or dangling
    pointer, [Overflow] a signed overflow and [Spin] a loop that used up
    its iteration bound. *)

Inductive outcome (S A : Type) : Type :=
| Ret (a : A)
| Throw (s : S)
| Abort
| Fault
| Overflow
| Spin.

Arguments Ret {S A} a.
Arguments Throw {S A} s.
Arguments Abort {S A}.
Arguments Fault {S A}.
Arguments Overflow {S A}.
Arguments Spin {S A}.

(** Memory accesses are written in the option monad; [None] is an
    invalid access. *)
Definition access {S A} (o : option A) : outcome S A :=
  match o with
  | Some a => Ret a
  | None => Fault
  end.

(** Sequencing: anything but a normal return leaves the caller too. *)
Definition outcome_bind {S A B} (k : A → outcome S B) (o : outcome S A) : outcome S B :=
  match o with
  | Ret a => k a
  | Throw s => Throw s
  | Abort => Abort
  | Fault => Fault
  | Overflow => Overflow
  | Spin => Spin
  end.

#[global] Instance outcome_mbind {S} : MBind (outcome S) := @outcome_bind S.

(** A call made from a caller whose state is larger: the state carried
    by an exception is the caller's. *)
Definition rethrow {S S' A} (f : S → S') (o : outcome S A) : outcome S' A :=
  match o with
  | Ret a => Ret a
  | Throw s => Throw (f s)
  | Abort => Abort
  | Fault => Fault
  | Overflow => Overflow
  | Spin => Spin
  end.

(** ** Data model *)

Definition addr := positive.
Abbreviation ptr := (option addr).

(** [struct element]: [riga] and [colonna] are [const int], [dato] a [T]. *)
Record element (T : Type) : Type := Element {
  riga : Z;
  colonna : Z;
  dato : T
}.
Arguments Element {T} riga colonna dato.
Arguments riga {T} e.
Arguments colonna {T} e.
Arguments dato {T} e.

(** [struct node]. *)
Record node (T : Type) : Type := Node {
  e : element T;
  next : ptr;
  prev : ptr
}.
Arguments Node {T} e next prev.
Arguments e {T} n.
Arguments next {T} n.
Arguments prev {T} n.

(** The data members of a [SparseMatrix<T>] object. *)
Record SparseMatrix (T : Type) : Type := Matrix {
  head : ptr;
  righe : Z;
  colonne : Z;
  size : Z;
  D : T
}.
Arguments Matrix {T} head righe colonne size D.
Arguments head {T} s.
Arguments righe {T} s.
Arguments colonne {T} s.
Arguments size {T} s.
Arguments D {T} s.

(** The free store: the live nodes, and how many more allocations succeed. *)
Record store (T : Type) : Type := Store {
  cells : gmap addr (node T);
  avail : N
}.
Arguments Store {T} cells avail.
Arguments cells {T} s.
Arguments avail {T} s.

(** Conversion between element types works on nodes of both types:
    [src] holds the [node<Q>]s, [dst] the [node<T>]s, and both draw on one
    allocation budget.  [derefs] logs, in order, the pointer held by each
    iterator that [operator*] is applied to. *)
Record world (Q T : Type) : Type := World {
  src : gmap addr (node Q);
  dst : gmap addr (node T);
  budget : N;
  derefs : list ptr
}.
Arguments World {Q T} src dst budget derefs.
Arguments src {Q T} w.
Arguments dst {Q T} w.
Arguments budget {Q T} w.
Arguments derefs {Q T} w.

Section Container.
Context {T : Type} `{!EqDecision T}.

Abbreviation heap := (gmap addr (node T)).

(** *** Field accesses through a node pointer *)

Definition deref (p : ptr) (h : heap) : option (node T) :=
  a ← p; h !! a.

Definition set_next (p : ptr) (v : ptr) (h : heap) : option heap :=
  a ← p; nd ← h !! a; Some (<[a := Node (e nd) v (prev nd)]> h).

Definition set_prev (p : ptr) (v : ptr) (h : heap) : option heap :=
  a ← p; nd ← h !! a; Some (<[a := Node (e nd) (next nd) v]> h).

Definition set_dato (p : ptr) (v : T) (h : heap) : option heap :=
  a ← p; nd ← h !! a;
  Some (<[a := Node (Element (riga (e nd)) (colonna (e nd)) v) (next nd) (prev nd)]> h).

(** [new node(k, r, c, n, p)]: fails once the budget is used up. *)
Definition new_node (nd : node T) (s : store T) : option (addr * store T) :=
  if (avail s =? 0)%N then None
  else let a := fresh (dom (cells s)) in
       Some (a, Store (<[a := nd]> (cells s)) (avail s - 1)).

(** [delete n]. *)
Definition delete_node (p : ptr) (h : heap) : option heap :=
  a ← p; _ ← h !! a; Some (delete a h).

(** *** Constructor *)

Definition construct (r c : Z) (d : T) : outcome (store T) (SparseMatrix T) :=
  if negb (r >? 0) then Abort
  else if negb (c >? 0) then Abort
  else Ret (Matrix None r c 0 d).

(** *** Getters and the setter of the default *)

Definition get_size (this : SparseMatrix T) : Z := size this.
Definition get_righe (this : SparseMatrix T) : Z := righe this.
Definition get_colonne (this : SparseMatrix T) : Z := colonne this.
Definition get_default (this : SparseMatrix T) : T := D this.

Definition set_default (this : SparseMatrix T) (val : T) : SparseMatrix T :=
  Matrix (head this) (righe this) (colonne this) (size this) val.

Definition set_head (this : SparseMatrix T) (p : ptr) : SparseMatrix T :=
  Matrix p (righe this) (colonne this) (size this) (D this).

Definition incr_size (this : SparseMatrix T) : SparseMatrix T :=
  Matrix (head this) (righe this) (colonne this) (uincr (size this)) (D this).

(** *** add *)

(** The three comparisons of the insertion loop. *)
Definition before (r c : Z) (x : element T) : bool :=
  (r <? riga x) || ((r =? riga x) && (c <? colonna x)).

Definition same (r c : Z) (x : element T) : bool :=
  (r =? riga x) && (c =? colonna x).

Definition after (r c : Z) (x : element T) : bool :=
  (r >? riga x) || ((r =? riga x) && (c >? colonna x)).

(** The [while (n != 0)] loop of [add]; [current] is the node just
    allocated.  Each branch that ends in [break] returns. *)
Fixpoint add_loop (fuel : nat) (this : SparseMatrix T) (r c : Z)
    (current : ptr) (n : ptr) (h : heap) : outcome (store T) (SparseMatrix T * heap) :=
  match n with
  | None => Ret (this, h)
  | Some _ =>
    match fuel with
    | O => Spin
    | S fuel' =>
      match deref n h with
      | None => Fault
      | Some nd =>
        if before r c (e nd) then
          match prev nd with
          | None =>
            access (
              h1 ← set_prev current None h;
              h2 ← set_next current (head this) h1;
              h3 ← set_prev (head this) current h2;
              Some (incr_size (set_head this current), h3))
          | Some _ =>
            access (
              np ← deref (prev nd) h;
              h1 ← set_next current (next np) h;
              h2 ← set_prev current (prev nd) h1;
              h3 ← set_next (prev nd) current h2;
              h4 ← set_prev n current h3;
              Some (incr_size this, h4))
          end
        else if same r c (e nd) then
          access (
            cn ← deref current h;
            h1 ← set_dato n (dato (e cn)) h;
            h2 ← delete_node current h1;
            Some (this, h2))
        else if after r c (e nd) then
          match next nd with
          | None =>
            access (
              h1 ← set_prev current n h;
              h2 ← set_next current None h1;
              h3 ← set_next n current h2;
              Some (incr_size this, h3))
          | Some _ => add_loop fuel' this r c current (next nd) h
          end
        else add_loop fuel' this r c current n h
      end
    end
  end.

(** The loop visits each node of the chain at most once, so the number
    of live nodes bounds its iterations. *)
Definition add (this : SparseMatrix T) (r c : Z) (value : T) (s : store T)
  : outcome (store T) (SparseMatrix T * store T) :=
  if negb ((r <=? righe this) && (r >? 0)) then Abort
  else if negb ((c <=? colonne this) && (c >? 0)) then Abort
  else if bool_decide (value = D this) then Abort
  else
    match new_node (Node (Element r c value) None None) s with
    | None => Throw s
    | Some (current, s1) =>
      match head this with
      | None => Ret (incr_size (set_head this (Some current)), s1)
      | Some _ =>
        '(this', h') ← add_loop (map_size (cells s1)) this r c (Some current)
                         (head this) (cells s1);
        Ret (this', Store h' (avail s1))
      end
    end.

(** *** operator() *)

Fixpoint lookup_loop (fuel : nat) (this : SparseMatrix T) (r c : Z)
    (n : ptr) (h : heap) : outcome (store T) T :=
  match n with
  | None => Ret (D this)
  | Some _ =>
    match fuel with
    | O => Spin
    | S fuel' =>
      match deref n h with
      | None => Fault
      | Some nd =>
        if (riga (e nd) =? r) && (colonna (e nd) =? c) then Ret (dato (e nd))
        else match next nd with
             | None => Ret (D this)
             | Some _ => lookup_loop fuel' this r c (next nd) h
             end
      end
    end
  end.

Definition lookup (this : SparseMatrix T) (r c : Z) (s : store T) : outcome (store T) T :=
  if negb ((r <=? righe this) && (r >? 0)) then Abort
  else if negb ((c <=? colonne this) && (c >? 0)) then Abort
  else lookup_loop (map_size (cells s)) this r c (head this) (cells s).

(** *** clear and the destructor *)

Fixpoint clear_helper (fuel : nat) (n : ptr) (h : heap) : outcome (store T) heap :=
  match n with
  | None => Ret h
  | Some _ =>
    match fuel with
    | O => Spin
    | S fuel' =>
      nd ← access (deref n h);
      h1 ← access (delete_node n h);
      clear_helper fuel' (next nd) h1
    end
  end.

(** How deep the recursion of [clear_helper] goes: the number of its
    activations that are live at once when it is called on [n].  It
    calls itself once for each node, and once more on the null pointer
    that ends the chain. *)
Fixpoint clear_helper_depth (fuel : nat) (n : ptr) (h : heap) : outcome (store T) nat :=
  match n with
  | None => Ret 1%nat
  | Some _ =>
    match fuel with
    | O => Spin
    | S fuel' =>
      nd ← access (deref n h);
      h1 ← access (delete_node n h);
      d ← clear_helper_depth fuel' (next nd) h1;
      Ret (S d)
    end
  end.

Definition clear (this : SparseMatrix T) (s : store T)
  : outcome (store T) (SparseMatrix T * store T) :=
  h' ← clear_helper (map_size (cells s)) (head this) (cells s);
  Ret (Matrix None (righe this) (colonne this) 0 (D this), Store h' (avail s)).

(** [~SparseMatrix()]: the object is gone, the store remains. *)
Definition destroy (this : SparseMatrix T) (s : store T) : outcome (store T) (store T) :=
  '(_, s') ← clear this s; Ret s'.

(** *** Copy constructor *)

(** The [while (tmp != 0)] loop inside its [try]; a [std::bad_alloc]
    leaving [add] is caught, [clear()] runs on the object under
    construction and the exception is thrown again. *)
Fixpoint copy_loop (fuel : nat) (this : SparseMatrix T) (tmp : ptr) (s : store T)
  : outcome (store T) (SparseMatrix T * store T) :=
  match tmp with
  | None => Ret (this, s)
  | Some _ =>
    match fuel with
    | O => Spin
    | S fuel' =>
      match deref tmp (cells s) with
      | None => Fault
      | Some nd =>
        match add this (riga (e nd)) (colonna (e nd)) (dato (e nd)) s with
        | Ret (this', s') => copy_loop fuel' this' (next nd) s'
        | Throw s' => '(_, s'') ← clear this s'; Throw s''
        | Abort => Abort
        | Fault => Fault
        | Overflow => Overflow
        | Spin => Spin
        end
      end
    end
  end.

Definition copy_construct (other : SparseMatrix T) (s : store T)
  : outcome (store T) (SparseMatrix T * store T) :=
  copy_loop (map_size (cells s))
    (Matrix None (righe other) (colonne other) 0 (D other)) (head other) s.

(** *** Iterators

    Both iterator classes hold one node pointer; [begin] is the head of
    the chain and [end] the null pointer. *)

Definition begin (this : SparseMatrix T) : ptr := head this.
Definition end_ (this : SparseMatrix T) : ptr := None.

(** [operator*] *)
Definition iter_deref (it : ptr) (h : heap) : option (element T) :=
  nd ← deref it h; Some (e nd).

(** [operator++] *)
Definition iter_incr (it : ptr) (h : heap) : option ptr :=
  nd ← deref it h; Some (next nd).

(** [operator!=] *)
Definition iter_neq (it other : ptr) : bool := negb (bool_decide (it = other)).

(** [operator==] *)
Definition iter_eq (it other : ptr) : bool := bool_decide (it = other).

(** [operator++(int)]: the copy returned, and the iterator afterwards. *)
Definition iter_post_incr (it : ptr) (h : heap) : option (ptr * ptr) :=
  nd ← deref it h; Some (it, next nd).

(** Assignment to the [dato] of the cell under a mutable iterator. *)
Definition iter_write (it : ptr) (v : T) (h : heap) : option heap :=
  set_dato it v h.

(** [for (it = begin(); it != end(); ++it)] collecting the cells. *)
Fixpoint iterate (fuel : nat) (Ib Ie : ptr) (h : heap) : outcome (store T) (list (element T)) :=
  if iter_neq Ib Ie then
    match fuel with
    | O => Spin
    | S fuel' =>
      x ← access (iter_deref Ib h);
      Ib' ← access (iter_incr Ib h);
      xs ← iterate fuel' Ib' Ie h;
      Ret (x :: xs)
    end
  else Ret [].

Definition traverse (this : SparseMatrix T) (s : store T) : outcome (store T) (list (element T)) :=
  iterate (map_size (cells s)) (begin this) (end_ this) (cells s).

(** *** evaluate *)

(** [++i] on an [int]. *)
Definition int_incr {S} (i : Z) : outcome S Z :=
  if i <? INT_MAX then Ret (i + 1) else Overflow.

Fixpoint evaluate_columns (fuel : nat) (M : SparseMatrix T) (p : T → bool)
    (i j counter : Z) (s : store T) : outcome (store T) Z :=
  if j <=? get_colonne M then
    match fuel with
    | O => Spin
    | S fuel' =>
      v ← lookup M i j s;
      counter' ← (if p v then int_incr counter else Ret counter);
      j' ← int_incr j;
      evaluate_columns fuel' M p i j' counter' s
    end
  else Ret counter.

Fixpoint evaluate_rows (fuel : nat) (M : SparseMatrix T) (p : T → bool)
    (i counter : Z) (s : store T) : outcome (store T) Z :=
  if i <=? get_righe M then
    match fuel with
    | O => Spin
    | S fuel' =>
      counter' ← evaluate_columns (Z.to_nat (get_colonne M)) M p i 1 counter s;
      i' ← int_incr i;
      evaluate_rows fuel' M p i' counter' s
    end
  else Ret counter.

Definition evaluate (M : SparseMatrix T) (p : T → bool) (s : store T) : outcome (store T) Z :=
  evaluate_rows (Z.to_nat (get_righe M)) M p 1 0 s.

End Container.

(** ** Construction from a matrix of another element type *)

Section Conversion.
Context {Q T : Type} `{!EqDecision Q, !EqDecision T}.
(** The explicit conversion [(T)q]. *)
Variable cast : Q → T.

(** A cell with its value converted. *)
Definition cast_cell (x : element Q) : element T :=
  Element (riga x) (colonna x) (cast (dato x)).

(** The [for (; Ib != Ie; ++Ib)] loop inside its [try]; [Ib] ranges
    over the chain of the local copy [tmp], which lives in [src]. *)
Fixpoint convert_loop (fuel : nat) (this : SparseMatrix T) (Ib Ie : ptr) (w : world Q T)
  : outcome (world Q T) (SparseMatrix T * world Q T) :=
  if iter_neq Ib Ie then
    match fuel with
    | O => Spin
    | S fuel' =>
      match iter_deref Ib (src w) with
      | None => Fault
      | Some x =>
        let log := derefs w ++ [Ib; Ib; Ib] in
        match add this (riga x) (colonna x) (cast (dato x)) (Store (dst w) (budget w)) with
        | Ret (this', st) =>
          match iter_incr Ib (src w) with
          | None => Fault
          | Some Ib' =>
            convert_loop fuel' this' Ib' Ie (World (src w) (cells st) (avail st) log)
          end
        | Throw st =>
          '(_, st') ← rethrow (λ st', World (src w) (cells st') (avail st') log) (clear this st);
          Throw (World (src w) (cells st') (avail st') log)
        | Abort => Abort
        | Fault => Fault
        | Overflow => Overflow
        | Spin => Spin
        end
      end
    end
  else Ret (this, w).

(** The local [tmp] is destroyed when the constructor is left, by a
    return or by the exception. *)
Definition leave_scope (tmp : SparseMatrix Q) (w : world Q T) : outcome (world Q T) (world Q T) :=
  sq ← rethrow (λ sq, World (cells sq) (dst w) (avail sq) (derefs w))
         (destroy tmp (Store (src w) (budget w)));
  Ret (World (cells sq) (dst w) (avail sq) (derefs w)).

(** [SparseMatrix(const SparseMatrix<Q>& other)].  Line 218 applies
    [operator*] to the default-constructed [Ib], whose pointer is null,
    and discards the value read: the access is logged and the
    constructor goes on. *)
Definition convert (other : SparseMatrix Q) (w : world Q T)
  : outcome (world Q T) (SparseMatrix T * world Q T) :=
  '(tmp, sq) ← rethrow (λ sq, World (cells sq) (dst w) (avail sq) (derefs w))
                 (copy_construct other (Store (src w) (budget w)));
  let Ib : ptr := None in
  let log := derefs w ++ [Ib] in
  let this := Matrix None (get_righe other) (get_colonne other) 0 (cast (get_default other)) in
  let Ib := begin tmp in
  let Ie := end_ tmp in
  match convert_loop (map_size (cells sq)) this Ib Ie (World (cells sq) (dst w) (avail sq) log) with
  | Ret (this', w') => w'' ← leave_scope tmp w'; Ret (this', w'')
  | Throw w' => w'' ← leave_scope tmp w'; Throw w''
  | Abort => Abort
  | Fault => Fault
  | Overflow => Overflow
  | Spin => Spin
  end.

End Conversion.

(** ** Copy assignment

    [operator=] builds [tmp] from [other] and passes each data member of
    [this] and [tmp] to [std::swap]. *)

Inductive member := m_head | m_righe | m_colonne | m_size | m_D.

(** [righe] and [colonne] are declared [const int]. *)
Definition is_const (f : member) : bool :=
  match f with
  | m_righe | m_colonne => true
  | _ => false
  end.

(** The members swapped by [operator=], in the order of its body. *)
Definition assign_swaps : list member := [m_head; m_righe; m_colonne; m_D; m_size].

(** [std::swap] assigns to both its arguments, so it accepts no [const]
    object. *)
Definition well_formed (body : list member) : bool :=
  forallb (λ f, negb (is_const f)) body.

Section Assignment.
Context {T : Type} `{!EqDecision T}.

Definition swap_member (f : member) (p : SparseMatrix T * SparseMatrix T)
  : SparseMatrix T * SparseMatrix T :=
  let '(a, b) := p in
  match f with
  | m_head => (Matrix (head b) (righe a) (colonne a) (size a) (D a),
               Matrix (head a) (righe b) (colonne b) (size b) (D b))
  | m_righe => (Matrix (head a) (righe b) (colonne a) (size a) (D a),
                Matrix (head b) (righe a) (colonne b) (size b) (D b))
  | m_colonne => (Matrix (head a) (righe a) (colonne b) (size a) (D a),
                  Matrix (head b) (righe b) (colonne a) (size b) (D b))
  | m_size => (Matrix (head a) (righe a) (colonne a) (size b) (D a),
               Matrix (head b) (righe b) (colonne b) (size a) (D b))
  | m_D => (Matrix (head a) (righe a) (colonne a) (size a) (D b),
            Matrix (head b) (righe b) (colonne b) (size b) (D a))
  end.

(** The body of [operator=]; [aliased] tells whether [this == &other]. *)
Definition assign_body (this other : SparseMatrix T) (aliased : bool) (s : store T)
  : outcome (store T) (SparseMatrix T * store T) :=
  if aliased then Ret (this, s)
  else
    '(tmp, s1) ← copy_construct other s;
    let '(this', tmp') := foldl (λ p f, swap_member f p) (this, tmp) assign_swaps in
    s2 ← destroy tmp' s1;
    Ret (this', s2).

(** A use of [operator=] instantiates its body; [None] when the body is
    ill-formed and the program is rejected by the compiler. *)
Definition operator_assign (this other : SparseMatrix T) (aliased : bool) (s : store T)
  : option (outcome (store T) (SparseMatrix T * store T)) :=
  if well_formed assign_swaps then Some (assign_body this other aliased s) else None.

End Assignment.

(** Positions listed row by row, and strict lexicographic order on them. *)
Definition grid (rows cols : list Z) : list (Z * Z) :=
  i ← rows; (λ j, (i, j)) <$> cols.

Definition pos_lt (p q : Z * Z) : Prop := p.1 < q.1 ∨ (p.1 = q.1 ∧ p.2 < q.2).

#[global] Instance pos_lt_dec (p q : Z * Z) : Decision (pos_lt p q) :=
  decide (p.1 < q.1 ∨ (p.1 = q.1 ∧ p.2 < q.2)).

(** ** Representation invariant

    The chain reachable from [head] is described by the list of its
    nodes, each with its address. *)

Section Model.
Context {T : Type} `{!EqDecision T}.

Abbreviation heap := (gmap addr (node T)).

(** [dll h p pv ns]: starting at [p], whose predecessor is [pv], the
    store holds exactly the nodes [ns], linked in both directions and
    ended by a null [next]. *)
Fixpoint dll (h : heap) (p pv : ptr) (ns : list (addr * element T)) : Prop :=
  match ns with
  | [] => p = None
  | (a, x) :: ns' =>
    p = Some a ∧ ∃ nx, h !! a = Some (Node x nx pv) ∧ dll h nx (Some a) ns'
  end.

(** Strictly ascending (row, column) order. *)
Definition ascending (l : list (element T)) : Prop :=
  StronglySorted (λ x y, before (riga x) (colonna x) y = true) l.

Definition in_range (m : SparseMatrix T) (x : element T) : Prop :=
  0 < riga x ≤ righe m ∧ 0 < colonna x ≤ colonne m.

Record chain (h : heap) (m : SparseMatrix T) (ns : list (addr * element T)) : Prop := {
  chain_dll : dll h (head m) None ns;
  chain_nodup : NoDup ns.*1;
  chain_size : size m = Z.of_nat (length ns) mod UINT_MOD;
  chain_sorted : ascending ns.*2;
  chain_range : Forall (in_range m) ns.*2;
  chain_dims : 0 < righe m ≤ INT_MAX ∧ 0 < colonne m ≤ INT_MAX
}.

(** A matrix object is valid in a store when some chain represents it. *)
Definition valid (m : SparseMatrix T) (s : store T) : Prop :=
  ∃ ns, chain (cells s) m ns.

(** What [add] does to the chain: the new node [cur] goes before the
    first node at a greater position, or is dropped when its position is
    already there, where only [dato] changes. *)
Fixpoint insert_cell (r c : Z) (v : T) (cur : addr) (ns : list (addr * element T))
  : list (addr * element T) :=
  match ns with
  | [] => [(cur, Element r c v)]
  | (a, x) :: ns' =>
    if before r c x then (cur, Element r c v) :: ns
    else if same r c x then (a, Element (riga x) (colonna x) v) :: ns'
    else (a, x) :: insert_cell r c v cur ns'
  end.

(** The same on the cells alone. *)
Fixpoint insert_elem (r c : Z) (v : T) (l : list (element T)) : list (element T) :=
  match l with
  | [] => [Element r c v]
  | x :: l' =>
    if before r c x then Element r c v :: l
    else if same r c x then Element (riga x) (colonna x) v :: l'
    else x :: insert_elem r c v l'
  end.

(** Whether that insertion ends on a node at the same position. *)
Fixpoint hits (r c : Z) (l : list (element T)) : bool :=
  match l with
  | [] => false
  | x :: l' =>
    if before r c x then false
    else if same r c x then true
    else hits r c l'
  end.

(** Re-insertion of the cells [l], one [add] each, as the copy loops do. *)
Definition reinsert (acc l : list (element T)) : list (element T) :=
  foldl (λ acc x, insert_elem (riga x) (colonna x) (dato x) acc) acc l.

Fixpoint find_cell (r c : Z) (l : list (element T)) : option T :=
  match l with
  | [] => None
  | x :: l' => if same r c x then Some (dato x) else find_cell r c l'
  end.

(** *** A client's calls on one matrix

    [Write k v] stands for an assignment to [dato] through a mutable
    iterator advanced [k] times from [begin()]. *)

Inductive call : Type :=
| Add (r c : Z) (v : T)
| SetDefault (d : T)
| Write (k : nat) (v : T).

Fixpoint advance (k : nat) (it : ptr) (h : heap) : option ptr :=
  match k with
  | O => Some it
  | S k' => it' ← iter_incr it h; advance k' it' h
  end.

(** The nodes of a matrix: those that an iterator reaches from
    [begin()]. *)
Definition owns (m : SparseMatrix T) (s : store T) (a : addr) : Prop :=
  ∃ k, advance k (begin m) (cells s) = Some (Some a).

Definition perform (q : call) (m : SparseMatrix T) (s : store T)
  : outcome (store T) (SparseMatrix T * store T) :=
  match q with
  | Add r c v => add m r c v s
  | SetDefault d => Ret (set_default m d, s)
  | Write k v =>
    it ← access (advance k (begin m) (cells s));
    h' ← access (iter_write it v (cells s));
    Ret (m, Store h' (avail s))
  end.

Fixpoint run (calls : list call) (m : SparseMatrix T) (s : store T)
  : outcome (store T) (SparseMatrix T * store T) :=
  match calls with
  | [] => Ret (m, s)
  | q :: rest => '(m', s') ← perform q m s; run rest m' s'
  end.

(** Calls to [add] and [set_default] only, each [add] within the
    preconditions: position in range, value other than the default
    at the time of the call. *)
Fixpoint admissible (rows cols : Z) (d : T) (calls : list call) : Prop :=
  match calls with
  | [] => True
  | Add r c v :: rest =>
    0 < r ≤ rows ∧ 0 < c ≤ cols ∧ v ≠ d ∧ admissible rows cols d rest
  | SetDefault d' :: rest => admissible rows cols d' rest
  | Write _ _ :: _ => False
  end.

(** Number of calls to [add]; each allocates one node. *)
Fixpoint allocations (calls : list call) : nat :=
  match calls with
  | [] => O
  | Add _ _ _ :: rest => S (allocations rest)
  | _ :: rest => allocations rest
  end.

(** The value of the most recent [add] at a position, if any. *)
Fixpoint last_add (r c : Z) (calls : list call) : option T :=
  match calls with
  | [] => None
  | Add r' c' v :: rest =>
    match last_add r c rest with
    | Some w => Some w
    | None => if bool_decide (r = r' ∧ c = c') then Some v else None
    end
  | _ :: rest => last_add r c rest
  end.

(** The cells stored after the calls, and the default then. *)
Fixpoint replay (l : list (element T)) (calls : list call) : list (element T) :=
  match calls with
  | [] => l
  | Add r c v :: rest => replay (insert_elem r c v l) rest
  | _ :: rest => replay l rest
  end.

Fixpoint final_default (d : T) (calls : list call) : T :=
  match calls with
  | [] => d
  | SetDefault d' :: rest => final_default d' rest
  | _ :: rest => final_default d rest
  end.

Definition position (x : element T) : Z * Z := (riga x, colonna x).

(** *** What evaluate counts *)

(** All positions of the matrix, row by row. *)
Definition positions (m : SparseMatrix T) : list (Z * Z) :=
  grid (seqZ 1 (righe m)) (seqZ 1 (colonne m)).

(** The predicate holds of what [lookup] returns at the position. *)
Definition satisfies (p : T → bool) (m : SparseMatrix T) (s : store T) (ij : Z * Z) : bool :=
  match lookup m ij.1 ij.2 s with
  | Ret v => p v
  | _ => false
  end.

Definition tally (p : T → bool) (m : SparseMatrix T) (s : store T) (l : list (Z * Z)) : Z :=
  Z.of_nat (length (filter (λ ij, satisfies p m s ij = true) l)).

Definition matches (p : T → bool) (m : SparseMatrix T) (s : store T) : Z :=
  tally p m s (positions m).

(** The same number from the stored cells [l]: those whose value
    satisfies the predicate, and every position without a cell when the
    default does. *)
Definition expected (p : T → bool) (m : SparseMatrix T) (l : list (element T)) : Z :=
  Z.of_nat (length (filter (λ x, p (dato x) = true) l)) +
  (if p (get_default m) then get_righe m * get_colonne m - Z.of_nat (length l) else 0).

(** One [add] of [v] at each of the positions [ps], in order. *)
Definition fill (v : T) (ps : list (Z * Z)) : list call :=
  (λ p, Add p.1 p.2 v) <$> ps.

End Model.

(** ** The matrices of the examples *)

Definition empty_I : SparseMatrix Z := Matrix None 3 2 0 999.

(** The first calls of main.cpp on its 3x2 matrix [I] of default 999. *)
Definition scenario_prefix : list (@call Z) := [Add 2 2 4; Add 2 2 14; Add 1 2 2].
Definition scenario_calls : list (@call Z) := scenario_prefix ++ [Add 2 2 5].

(** All its [add] calls on [I]. *)
Definition main_calls : list (@call Z) :=
  scenario_calls ++ [Add 1 1 3; Add 3 2 6; Add 3 1 5; Add 2 1 3].

(** [I] after these calls, in a store with room for 32 nodes. *)
Definition scenario_I : SparseMatrix Z * store Z :=
  Eval vm_compute in
    match run scenario_calls empty_I (Store ∅ 32) with
    | Ret ms => ms
    | _ => (empty_I, Store ∅ 32)
    end.

Definition main_I : SparseMatrix Z * store Z :=
  Eval vm_compute in
    match run main_calls empty_I (Store ∅ 32) with
    | Ret ms => ms
    | _ => (empty_I, Store ∅ 32)
    end.

(** The cells of [I] then. *)
Definition main_cells : list (element Z) :=
  [Element 1 1 3; Element 1 2 2; Element 2 1 3; Element 2 2 5; Element 3 1 5; Element 3 2 6].

(** [I] after main.cpp has assigned 2000 to the [dato] under [Ib],
    which is [I.begin()]. *)
Definition written_calls : list (@call Z) := main_calls ++ [Write 0 2000].

Definition written_I : SparseMatrix Z * store Z :=
  Eval vm_compute in
    match run written_calls empty_I (Store ∅ 32) with
    | Ret ms => ms
    | _ => (empty_I, Store ∅ 32)
    end.

(** A matrix one of whose stored values became the default afterwards. *)
Definition stale_calls : list (@call Z) := [Add 1 1 5; SetDefault 5].

Definition stale_I : SparseMatrix Z * store Z :=
  Eval vm_compute in
    match run stale_calls empty_I (Store ∅ 32) with
    | Ret ms => ms
    | _ => (empty_I, Store ∅ 32)
    end.

(** The conversions [(long)] of an [int] and [(bool)] of an [int]. *)
Definition to_long (q : Z) : Z := q.
Definition to_bool (q : Z) : bool := negb (q =? 0).

(** The predicate of main.cpp. *)
Definition divis_per_3 (val : Z) : bool := val mod 3 =? 0.

(** The empty 5x5 matrix [l] of main.cpp. *)
Definition empty_l : SparseMatrix Z := Matrix None 5 5 0 999999.

(** A 65536 x 65536 matrix of default 0, and all its positions but (1, 1). *)
Definition wide : SparseMatrix Z := Matrix None 65536 65536 0 0.

Definition all_but_first : list (Z * Z) :=
  ((λ j, (1, j)) <$> seqZ 2 65535) ++ grid (seqZ 2 65535) (seqZ 1 65536).

(** A matrix of INT_MAX rows and one column. *)
Definition tall : SparseMatrix Z := Matrix None INT_MAX 1 0 0.

Section Proofs.
Context {T : Type} `{!EqDecision T}.

Abbreviation heap := (gmap addr (node T)).
Implicit Types (h : heap) (ns : list (addr * element T)) (x y : element T).
Implicit Types (l : list (element T)) (m this : SparseMatrix T) (s : store T).
Implicit Types (v d : T).

Lemma trichotomy r c x : before r c x = false → same r c x = false → after r c x = true.
Proof.
  unfold before, same, after. rewrite !Z.gtb_ltb.
  destruct (Z.ltb_spec r (riga x)), (Z.eqb_spec r (riga x)),
    (Z.ltb_spec c (colonna x)), (Z.eqb_spec c (colonna x)),
    (Z.ltb_spec (riga x) r), (Z.ltb_spec (colonna x) c); simpl; try done; lia.
Qed.

Lemma dll_frame h h' p pv ns :
  (∀ a, a ∈ ns.*1 → h' !! a = h !! a) → dll h p pv ns → dll h' p pv ns.
Proof.
  revert p pv. induction ns as [|[a x] ns IH]; intros p pv Hf; simpl; [done|].
  intros [-> (nx & Ha & Hr)]. split; [done|]. exists nx. split.
  - rewrite Hf; [done|]. simpl. set_solver.
  - apply IH; [|done]. intros b Hb. apply Hf. simpl. set_solver.
Qed.

Lemma add_loop_spec v r c cur this :
  ∀ ns fuel n pv h,
    dll h n pv ns → ns ≠ [] →
    NoDup (cur :: ns.*1) →
    h !! cur = Some (Node (Element r c v) None None) →
    match pv with
    | None => head this = n
    | Some p => p ∉ cur :: ns.*1 ∧ ∃ np, h !! p = Some np ∧ next np = n
    end →
    (length ns ≤ fuel)%nat →
    ∃ this' h' n',
      add_loop fuel this r c (Some cur) n h = Ret (this', h') ∧
      dll h' n' pv (insert_cell r c v cur ns) ∧
      match pv with
      | None => head this' = n'
      | Some p => head this' = head this ∧
                  ∃ np, h !! p = Some np ∧ h' !! p = Some (Node (e np) n' (prev np))
      end ∧
      (∀ a, a ∉ cur :: ns.*1 → pv ≠ Some a → h' !! a = h !! a) ∧
      righe this' = righe this ∧ colonne this' = colonne this ∧ D this' = D this ∧
      (if hits r c ns.*2
       then size this' = size this ∧ h' !! cur = None
       else size this' = uincr (size this)).
Proof.
  induction ns as [|[a x] ns IH]; intros fuel n pv h Hdll Hne Hnd Hcur Hpv Hfuel; [done|].
  simpl in Hdll. destruct Hdll as [-> (nx & Ha & Hrest)].
  destruct fuel as [|fuel]; [simpl in Hfuel; lia|].
  apply NoDup_cons in Hnd as [Hcn Hnd]. simpl in Hcn, Hnd.
  apply NoDup_cons in Hnd as [Han Hnd].
  assert (cur ≠ a) as Hca by set_solver.
  assert (cur ∉ ns.*1) as Hcn' by set_solver.
  simpl. rewrite Ha. simpl.
  destruct (before r c x) eqn:Hb.
  - destruct pv as [p|]; simpl.
    + destruct Hpv as (Hp & np & Hnp & Hnext).
      clear IH.
      assert (p ≠ cur) by set_solver. assert (p ≠ a) by set_solver.
      unfold deref, set_next, set_prev. simpl. simplify_map_eq.
      rewrite Hnext.
      eexists _, _, _. split; [reflexivity|].
      split; [simpl; split; [reflexivity|]; eexists; split; [by simplify_map_eq|]; split; [done|];
              eexists; split; [by simplify_map_eq|];
              eapply dll_frame; [|exact Hrest]; intros b Hb'; rewrite !lookup_insert_ne by set_solver; done|].
      split; [split; [done|]; eexists; split; [done|]; by simplify_map_eq|].
      split; [intros b Hb1 Hb2; rewrite !lookup_insert_ne by (try set_solver; congruence); done|].
      done.
    + clear IH. unfold deref, set_next, set_prev. simpl. rewrite Hpv. simpl.
      simplify_map_eq.
      eexists _, _, _. split; [reflexivity|].
      split; [simpl; split; [reflexivity|]; eexists; split; [by simplify_map_eq|]; split; [done|];
              eexists; split; [by simplify_map_eq|];
              eapply dll_frame; [|exact Hrest]; intros b Hb'; rewrite !lookup_insert_ne by set_solver; done|].
      split; [done|].
      split; [intros b Hb1 Hb2; rewrite !lookup_insert_ne by (try set_solver; congruence); done|].
      done.
  - destruct (same r c x) eqn:Hs.
    + clear IH. unfold deref, set_dato, delete_node. simpl. simplify_map_eq.
      eexists _, _, _. split; [reflexivity|].
      split; [simpl; split; [reflexivity|]; eexists; split; [by simplify_map_eq|];
              eapply dll_frame; [|exact Hrest]; intros b Hb';
              rewrite lookup_delete_ne, lookup_insert_ne by set_solver; done|].
      split.
      { destruct pv as [p|]; [|done]. destruct Hpv as (Hp & np & Hnp & Hnext).
        split; [done|]. exists np. split; [done|].
        rewrite lookup_delete_ne, lookup_insert_ne by set_solver.
        rewrite Hnp. destruct np; simpl in *; by subst. }
      split; [intros b Hb1 Hb2; rewrite lookup_delete_ne, lookup_insert_ne by set_solver; done|].
      repeat split; try done. by rewrite lookup_delete_eq.
    + rewrite (trichotomy r c x Hb Hs).
      destruct nx as [q|].
      * destruct ns as [|[a' x'] ns']; [simpl in Hrest; done|].
        destruct (IH fuel (Some q) (Some a) h Hrest) as (this' & h' & n' & Hrun & Hdll' & Hpv' & Hfr & Hr & Hc & HD & Hsz).
        { done. }
        { apply NoDup_cons. split; [set_solver|done]. }
        { done. }
        { split; [set_solver|]. eexists. split; [exact Ha|done]. }
        { simpl in *. lia. }
        destruct Hpv' as (Hhd & np & Hnp & Hnp').
        rewrite Ha in Hnp. injection Hnp as <-. simpl in Hnp'.
        exists this', h', (Some a). split; [exact Hrun|].
        split; [simpl; split; [reflexivity|]; exists n'; split; [exact Hnp'|exact Hdll']|].
        split.
        { destruct pv as [p|].
          - destruct Hpv as (Hp & np & Hnp & Hnext). split; [done|]. exists np. split; [done|].
            rewrite Hfr; [|set_solver|set_solver].
            rewrite Hnp. destruct np; simpl in *; by subst.
          - congruence. }
        split; [intros b Hb1 Hb2; apply Hfr; set_solver|].
        done.
      * clear IH. destruct ns as [|[a' x'] ns']; [|simpl in Hrest; by destruct Hrest].
        unfold deref, set_next, set_prev. simpl. simplify_map_eq.
        eexists _, _, (Some a). split; [reflexivity|].
        split; [simpl; split; [reflexivity|]; eexists; split; [by simplify_map_eq|]; split; [done|];
                eexists; split; [by simplify_map_eq|done]|].
        split.
        { destruct pv as [p|]; [|done]. destruct Hpv as (Hp & np & Hnp & Hnext).
          split; [done|]. exists np. split; [done|].
          rewrite !lookup_insert_ne by set_solver.
          rewrite Hnp. destruct np; simpl in *; by subst. }
        split; [intros b Hb1 Hb2; rewrite !lookup_insert_ne by set_solver; done|].
        done.
Qed.

(** *** Facts on the insertion into the list of cells *)

Lemma insert_cell_snd r c v cur ns :
  (insert_cell r c v cur ns).*2 = insert_elem r c v ns.*2.
Proof.
  induction ns as [|[a x] ns IH]; csimpl; [done|].
  destruct (before r c x); [done|]. destruct (same r c x); [done|].
  csimpl. by rewrite IH.
Qed.

Lemma insert_cell_fst r c v cur ns :
  (insert_cell r c v cur ns).*1 ≡ₚ (if hits r c ns.*2 then ns.*1 else cur :: ns.*1).
Proof.
  induction ns as [|[a x] ns IH]; csimpl; [done|].
  destruct (before r c x); [done|]. destruct (same r c x); [done|].
  csimpl. rewrite IH. destruct (hits r c ns.*2); [done|]. apply Permutation_swap.
Qed.

Lemma insert_elem_length r c v l :
  length (insert_elem r c v l) = if hits r c l then length l else S (length l).
Proof.
  induction l as [|x l IH]; simpl; [done|].
  destruct (before r c x); [done|]. destruct (same r c x); [done|].
  simpl. rewrite IH. by destruct (hits r c l).
Qed.

Lemma before_trans x r c y :
  before (riga x) (colonna x) y = true → before r c x = true → before r c y = true.
Proof.
  unfold before.
  destruct (Z.ltb_spec (riga x) (riga y)), (Z.eqb_spec (riga x) (riga y)),
    (Z.ltb_spec (colonna x) (colonna y)), (Z.ltb_spec r (riga x)),
    (Z.eqb_spec r (riga x)), (Z.ltb_spec c (colonna x)),
    (Z.ltb_spec r (riga y)), (Z.eqb_spec r (riga y)),
    (Z.ltb_spec c (colonna y)); simpl; try done; lia.
Qed.

Lemma same_eq r c x : same r c x = true ↔ r = riga x ∧ c = colonna x.
Proof. unfold same. rewrite andb_true_iff, !Z.eqb_eq. done. Qed.

Lemma before_not_same r c x : before r c x = true → same r c x = false.
Proof.
  unfold before, same.
  destruct (Z.ltb_spec r (riga x)), (Z.eqb_spec r (riga x)),
    (Z.ltb_spec c (colonna x)), (Z.eqb_spec c (colonna x)); simpl; try done; lia.
Qed.

Lemma after_flip r c x :
  before r c x = false → same r c x = false → before (riga x) (colonna x) (Element r c (dato x)) = true.
Proof.
  intros Hb Hs. pose proof (trichotomy r c x Hb Hs) as Ha.
  unfold after in Ha. unfold before. simpl. by rewrite !Z.gtb_ltb, (Z.eqb_sym r) in Ha.
Qed.

Lemma insert_elem_Forall (P : element T → Prop) r c v l :
  (∀ y w, P y → P (Element (riga y) (colonna y) w)) →
  P (Element r c v) → Forall P l → Forall P (insert_elem r c v l).
Proof.
  intros Hpos Hnew. induction l as [|x l IH]; simpl; intros Hl.
  - by constructor.
  - apply Forall_cons in Hl as [Hx Hl].
    destruct (before r c x); [by repeat constructor|].
    destruct (same r c x); constructor; auto.
Qed.

Lemma ascending_insert r c v l : ascending l → ascending (insert_elem r c v l).
Proof.
  unfold ascending. induction l as [|x l IH]; simpl; intros Hs.
  - repeat constructor.
  - apply StronglySorted_inv in Hs as [Hs Hx].
    destruct (before r c x) eqn:Hb.
    + constructor; [by constructor|]. constructor; [done|].
      eapply Forall_impl; [exact Hx|]. simpl. intros y Hy. by eapply before_trans.
    + destruct (same r c x) eqn:Hsame.
      * constructor; [done|]. exact Hx.
      * constructor; [by apply IH|].
        apply insert_elem_Forall; [done| |done].
        by apply (after_flip r c x).
Qed.

Lemma find_insert_same r c v l : find_cell r c (insert_elem r c v l) = Some v.
Proof.
  assert (same r c (Element r c v) = true) as Hnew by (by apply same_eq).
  induction l as [|x l IH]; simpl; [by rewrite Hnew|].
  destruct (before r c x); simpl; [by rewrite Hnew|].
  destruct (same r c x) eqn:Hs; simpl.
  - by replace (same r c (Element (riga x) (colonna x) v)) with true.
  - by rewrite Hs.
Qed.

Lemma find_insert_other r c v r' c' l :
  (r', c') ≠ (r, c) → find_cell r' c' (insert_elem r c v l) = find_cell r' c' l.
Proof.
  intros Hne.
  assert (same r' c' (Element r c v) = false) as Hnew.
  { apply not_true_is_false. rewrite same_eq. simpl. intros [-> ->]. done. }
  induction l as [|x l IH]; simpl; [by rewrite Hnew|].
  destruct (before r c x); simpl; [by rewrite Hnew|].
  destruct (same r c x) eqn:Hs; simpl.
  - apply same_eq in Hs as [-> ->].
    replace (same r' c' (Element (riga x) (colonna x) v)) with (same r' c' x) by done.
    destruct (same r' c' x) eqn:Hs'; [|done].
    apply same_eq in Hs' as [-> ->]. done.
  - by rewrite IH.
Qed.

Lemma find_cell_before r c l :
  Forall (λ y, before r c y = true) l → find_cell r c l = None.
Proof.
  induction 1 as [|x l Hx _ IH]; simpl; [done|]. by rewrite (before_not_same r c x).
Qed.

(** On an ascending chain the insertion loop ends on an equal position
    exactly when that position is stored. *)
Lemma hits_find r c l : ascending l → hits r c l = bool_decide (is_Some (find_cell r c l)).
Proof.
  unfold ascending. induction l as [|x l IH]; simpl; intros Hs.
  - first [done | symmetry; apply bool_decide_eq_false; by intros [??]].
  - apply StronglySorted_inv in Hs as [Hs Hx].
    destruct (before r c x) eqn:Hb.
    + rewrite (before_not_same r c x Hb), find_cell_before.
      * first [done | symmetry; apply bool_decide_eq_false; by intros [??]].
      * eapply Forall_impl; [exact Hx|]. simpl. intros y Hy. by eapply before_trans.
    + destruct (same r c x); [|by apply IH].
      first [done | symmetry; by apply bool_decide_eq_true].
Qed.

(** *** Facts on the chain in the store *)

Lemma dll_lookup h p pv ns a : dll h p pv ns → a ∈ ns.*1 → is_Some (h !! a).
Proof.
  revert p pv. induction ns as [|[b x] ns IH]; csimpl; intros p pv.
  - intros _ Hin. by apply elem_of_nil in Hin.
  - intros [-> (nx & Hb & Hr)] [->|Hin]%elem_of_cons; [by eexists|by eapply IH].
Qed.

Lemma dll_null h pv ns : dll h None pv ns → ns = [].
Proof. destruct ns as [|[a x] ns]; simpl; [done|]. by intros [? _]. Qed.

Lemma dll_nonnull h a pv ns : dll h (Some a) pv ns → ns ≠ [].
Proof. by destruct ns. Qed.

Lemma dll_length h p pv ns :
  dll h p pv ns → NoDup ns.*1 → (length ns ≤ map_size h)%nat.
Proof.
  intros Hd Hnd.
  assert (ns.*1 ⊆+ elements (dom h)) as Hsub.
  { apply NoDup_submseteq; [done|]. intros a Ha.
    apply elem_of_elements, elem_of_dom. by eapply dll_lookup. }
  apply submseteq_length in Hsub. rewrite length_fmap in Hsub.
  etrans; [exact Hsub|]. change (length (elements (dom h))) with (base.size (dom h)).
  by rewrite size_dom.
Qed.

Lemma lookup_loop_spec this r c :
  ∀ ns fuel n pv h,
    dll h n pv ns → (length ns ≤ fuel)%nat →
    lookup_loop fuel this r c n h = Ret (default (D this) (find_cell r c ns.*2)).
Proof.
  induction ns as [|[a x] ns IH]; intros fuel n pv h Hd Hf.
  - simpl in Hd. subst n. by destruct fuel.
  - simpl in Hd. destruct Hd as [-> (nx & Ha & Hr)].
    destruct fuel as [|fuel]; [simpl in Hf; lia|].
    csimpl. rewrite Ha. simpl.
    replace ((riga x =? r) && (colonna x =? c)) with (same r c x)
      by (unfold same; by rewrite (Z.eqb_sym r), (Z.eqb_sym c)).
    destruct (same r c x); [done|].
    destruct nx as [q|].
    + eapply IH; [exact Hr|]. simpl in Hf. lia.
    + apply dll_null in Hr. by subst ns.
Qed.

Lemma iterate_spec :
  ∀ ns fuel n pv h,
    dll h n pv ns → (length ns ≤ fuel)%nat →
    iterate fuel n None h = Ret ns.*2.
Proof.
  induction ns as [|[a x] ns IH]; intros fuel n pv h Hd Hf.
  - simpl in Hd. subst n. by destruct fuel.
  - simpl in Hd. destruct Hd as [-> (nx & Ha & Hr)].
    destruct fuel as [|fuel]; [simpl in Hf; lia|].
    csimpl. unfold iter_deref, iter_incr. simpl. rewrite Ha. simpl.
    rewrite (IH fuel nx (Some a) h Hr); [done|]. simpl in Hf. lia.
Qed.

(** *** add on a valid matrix *)

Lemma bounds_ok (i n : Z) : 0 < i ≤ n → negb ((i <=? n) && (i >? 0)) = false.
Proof.
  intros [??]. rewrite Z.gtb_ltb.
  destruct (Z.leb_spec i n), (Z.ltb_spec 0 i); simpl; try done; lia.
Qed.

Lemma bounds_ko (i n : Z) : negb ((i <=? n) && (i >? 0)) = true ↔ ¬ (0 < i ≤ n).
Proof.
  rewrite Z.gtb_ltb.
  destruct (Z.leb_spec i n), (Z.ltb_spec 0 i); simpl; split; try done; lia.
Qed.

Lemma uincr_length (n : nat) z :
  z = Z.of_nat n mod UINT_MOD → uincr z = Z.of_nat (S n) mod UINT_MOD.
Proof.
  intros ->. unfold uincr. rewrite Zplus_mod_idemp_l. f_equal. lia.
Qed.

Lemma fresh_not_in_chain h p pv ns : dll h p pv ns → fresh (dom h) ∉ ns.*1.
Proof.
  intros Hd Hin. apply (dll_lookup _ _ _ _ _ Hd) in Hin.
  apply elem_of_dom in Hin. by apply is_fresh in Hin.
Qed.

Lemma add_chain m s ns r c v :
  chain (cells s) m ns →
  0 < r ≤ righe m → 0 < c ≤ colonne m → v ≠ D m → avail s ≠ 0%N →
  ∃ m' s',
    add m r c v s = Ret (m', s') ∧
    chain (cells s') m' (insert_cell r c v (fresh (dom (cells s))) ns) ∧
    avail s' = (avail s - 1)%N ∧
    righe m' = righe m ∧ colonne m' = colonne m ∧ D m' = D m ∧
    (∀ a, a ∉ ns.*1 → a ≠ fresh (dom (cells s)) → cells s' !! a = cells s !! a) ∧
    (if hits r c ns.*2
     then size m' = size m ∧ cells s' !! fresh (dom (cells s)) = None
     else size m' = uincr (size m)).
Proof.
  intros [Hd Hnd Hsz Hso Hra Hdim] Hr Hc Hv Hav.
  unfold add. rewrite (bounds_ok _ _ Hr), (bounds_ok _ _ Hc).
  rewrite bool_decide_eq_false_2 by done.
  unfold new_node. rewrite (proj2 (N.eqb_neq _ _) Hav).
  set (cur := fresh (dom (cells s))).
  set (h1 := <[cur := Node (Element r c v) None None]> (cells s)).
  assert (cur ∉ ns.*1) as Hcur by (by eapply fresh_not_in_chain).
  assert (dll h1 (head m) None ns) as Hd1.
  { eapply dll_frame; [|exact Hd]. intros a Ha. unfold h1.
    rewrite lookup_insert_ne; [done|]. by intros ->. }
  assert (in_range m (Element r c v)) as Hnew by done.
  destruct (head m) as [a|] eqn:Hhead.
  - destruct (add_loop_spec v r c cur m ns (map_size h1) (Some a) None h1)
      as (m' & h' & n' & Hrun & Hd' & Hhd & Hfr & Hr' & Hc' & HD' & Hs'); try done.
    { by eapply dll_nonnull. }
    { by apply NoDup_cons. }
    { unfold h1. by rewrite lookup_insert_eq. }
    { by eapply dll_length. }
    cbn [cells avail]. rewrite Hrun. simpl.
    eexists _, _. split; [reflexivity|]. simpl.
    split; [|split; [done|]; split; [done|]; split; [done|]; split; [done|]; split].
    + split.
      * by rewrite Hhd.
      * rewrite insert_cell_fst. destruct (hits r c ns.*2); [done|]. by apply NoDup_cons.
      * rewrite <- (length_fmap snd), insert_cell_snd, insert_elem_length, length_fmap.
        destruct (hits r c ns.*2); [by destruct Hs' as [-> _]|].
        rewrite Hs'. by apply uincr_length.
      * rewrite insert_cell_snd. by apply ascending_insert.
      * rewrite insert_cell_snd. unfold in_range. rewrite Hr', Hc'.
        apply insert_elem_Forall; done.
      * by rewrite Hr', Hc'.
    + intros b Hb1 Hb2. rewrite Hfr; [|set_solver|done].
      unfold h1. by rewrite lookup_insert_ne.
    + done.
  - apply dll_null in Hd. subst ns. simpl.
    eexists _, _. split; [reflexivity|]. simpl.
    split; [|split; [done|]; split; [done|]; split; [done|]; split; [done|]; split].
    + split; simpl.
      * split; [done|]. eexists. split; [|done]. unfold h1. by rewrite lookup_insert_eq.
      * apply NoDup_singleton.
      * by apply (uincr_length 0).
      * repeat constructor.
      * constructor; [exact Hnew|constructor].
      * done.
    + intros b _ Hb. unfold h1. by rewrite lookup_insert_ne.
    + done.
Qed.

(** *** Outcomes that the loops never produce *)

Lemma add_loop_outcome fuel this r c cur n h :
  match add_loop fuel this r c cur n h with
  | Ret _ | Fault | Spin => True
  | _ => False
  end.
Proof.
  revert n. induction fuel as [|fuel IH]; intros n; destruct n as [a|]; simpl; try done.
  destruct (h !! a) as [nd|]; [|done].
  destruct (before r c (e nd)).
  { destruct (prev nd);
      match goal with |- context [access ?o] => by destruct o end. }
  destruct (same r c (e nd)).
  { match goal with |- context [access ?o] => by destruct o end. }
  destruct (after r c (e nd)); [|apply IH].
  destruct (next nd); [apply IH|].
  match goal with |- context [access ?o] => by destruct o end.
Qed.

Lemma lookup_loop_outcome fuel this r c n h :
  match lookup_loop fuel this r c n h with
  | Ret _ | Fault | Spin => True
  | _ => False
  end.
Proof.
  revert n. induction fuel as [|fuel IH]; intros n; destruct n as [a|]; simpl; try done.
  destruct (h !! a) as [nd|]; [|done].
  destruct (_ && _); [done|]. destruct (next nd); [apply IH|done].
Qed.

(** *** The three ways out of add *)

Lemma add_abort_iff m r c v s :
  add m r c v s = Abort ↔ ¬ (0 < r ≤ righe m) ∨ ¬ (0 < c ≤ colonne m) ∨ v = D m.
Proof.
  unfold add.
  destruct (negb ((r <=? righe m) && (r >? 0))) eqn:Hr.
  { apply bounds_ko in Hr. naive_solver. }
  destruct (negb ((c <=? colonne m) && (c >? 0))) eqn:Hc.
  { apply bounds_ko in Hc. naive_solver. }
  assert (0 < r ≤ righe m) by (apply dec_stable; intros ?%bounds_ko; congruence).
  assert (0 < c ≤ colonne m) by (apply dec_stable; intros ?%bounds_ko; congruence).
  destruct (bool_decide (v = D m)) eqn:Hv.
  { apply bool_decide_eq_true in Hv. naive_solver. }
  apply bool_decide_eq_false in Hv.
  destruct (new_node _ s) as [[cur s1]|]; [|naive_solver].
  destruct (head m); [|naive_solver].
  pose proof (add_loop_outcome (map_size (cells s1)) m r c (Some cur) (Some a) (cells s1)) as Ho.
  destruct (add_loop _ _ _ _ _ _ _) as [[??]| | | | |]; simpl; naive_solver.
Qed.

Lemma add_throw_inv m r c v s s' :
  add m r c v s = Throw s' → s' = s ∧ avail s = 0%N.
Proof.
  unfold add, new_node.
  destruct (negb _); [done|]. destruct (negb _); [done|].
  destruct (bool_decide _); [done|].
  destruct (N.eqb_spec (avail s) 0); [naive_solver|].
  destruct (head m); [|done].
  match goal with |- context [add_loop ?f ?t ?r ?c ?cu ?n ?h] =>
    pose proof (add_loop_outcome f t r c cu n h) as Ho;
    destruct (add_loop f t r c cu n h) as [[??]| | | | |] end; simpl; naive_solver.
Qed.

Lemma add_throw m r c v s :
  0 < r ≤ righe m → 0 < c ≤ colonne m → v ≠ D m → avail s = 0%N →
  add m r c v s = Throw s.
Proof.
  intros Hr Hc Hv Hav. unfold add, new_node.
  rewrite (bounds_ok _ _ Hr), (bounds_ok _ _ Hc), bool_decide_eq_false_2 by done.
  by rewrite Hav.
Qed.

(** *** clear *)

Lemma clear_helper_spec :
  ∀ ns fuel p pv h,
    dll h p pv ns → NoDup ns.*1 → (length ns ≤ fuel)%nat →
    ∃ h', clear_helper fuel p h = Ret h' ∧
          ∀ a, h' !! a = if decide (a ∈ ns.*1) then None else h !! a.
Proof.
  induction ns as [|[b x] ns IH]; intros fuel p pv h Hd Hnd Hf.
  - simpl in Hd. subst p. exists h. split; [by destruct fuel|].
    intros a. destruct (decide _) as [Hin|]; [|done]. by apply elem_of_nil in Hin.
  - simpl in Hd. destruct Hd as [-> (nx & Hb & Hr)].
    destruct fuel as [|fuel]; [simpl in Hf; lia|].
    apply NoDup_cons in Hnd as [Hbn Hnd].
    destruct (IH fuel nx (Some b) (delete b h)) as (h' & Hrun & Hh'); [|done|simpl in Hf; lia|].
    { eapply dll_frame; [|exact Hr]. intros a Ha. rewrite lookup_delete_ne; [done|].
      intros ->. done. }
    exists h'. split.
    + simpl. unfold deref, delete_node. simpl. rewrite Hb. simpl. exact Hrun.
    + intros a. rewrite Hh'. csimpl.
      destruct (decide (a ∈ ns.*1)) as [Hin|Hin].
      * rewrite decide_True; [done|]. set_solver.
      * destruct (decide (a = b)) as [->|Hne].
        -- rewrite decide_True by set_solver. by rewrite lookup_delete_eq.
        -- rewrite decide_False by set_solver. by rewrite lookup_delete_ne.
Qed.

Lemma clear_spec m s ns :
  chain (cells s) m ns →
  ∃ s', clear m s = Ret (Matrix None (righe m) (colonne m) 0 (D m), s') ∧
        avail s' = avail s ∧
        ∀ a, cells s' !! a = if decide (a ∈ ns.*1) then None else cells s !! a.
Proof.
  intros [Hd Hnd _ _ _ _].
  destruct (clear_helper_spec ns (map_size (cells s)) (head m) None (cells s))
    as (h' & Hrun & Hh'); [done|done|by eapply dll_length|].
  unfold clear. rewrite Hrun. simpl. by eexists.
Qed.

(** *** The copy loop *)

Lemma cell_eta x : Element (riga x) (colonna x) (dato x) = x.
Proof. by destruct x. Qed.

Lemma copy_loop_spec :
  ∀ suf fuel this s nt tmp pv,
    dll (cells s) tmp pv suf →
    chain (cells s) this nt →
    nt.*1 ## suf.*1 →
    Forall (in_range this) suf.*2 →
    (length suf ≤ fuel)%nat →
    match copy_loop fuel this tmp s with
    | Ret (this', s') =>
        ∃ nt', chain (cells s') this' nt' ∧
               nt'.*2 = reinsert nt.*2 suf.*2 ∧
               righe this' = righe this ∧ colonne this' = colonne this ∧
               D this' = D this ∧
               (∀ a, a ∉ nt'.*1 → cells s' !! a = cells s !! a) ∧
               (∀ a, a ∈ nt'.*1 → a ∈ nt.*1 ∨ a ∉ dom (cells s)) ∧
               (∀ a, a ∈ nt.*1 → a ∈ nt'.*1) ∧
               Forall (λ x, dato x ≠ D this) suf.*2 ∧
               (N.of_nat (length suf) ≤ avail s)%N ∧
               avail s' = (avail s - N.of_nat (length suf))%N
    | Throw s' =>
        (∀ a, cells s' !! a = if decide (a ∈ nt.*1) then None else cells s !! a) ∧
        (avail s < N.of_nat (length suf))%N
    | Abort => Exists (λ x, dato x = D this) suf.*2
    | _ => False
    end.
Proof.
  induction suf as [|[a x] suf IH]; intros fuel this s nt tmp pv Hd Hch Hdis Hra Hf.
  - simpl in Hd. subst tmp.
    assert (copy_loop fuel this None s = Ret (this, s)) as -> by (by destruct fuel).
    exists nt. csimpl. rewrite N.sub_0_r.
    do 6 (split; [done|]). split; [by left|]. split; [done|].
    split; [constructor|]. split; [lia|done].
  - simpl in Hd. destruct Hd as [-> (nx & Ha & Hr)].
    destruct fuel as [|fuel]; [simpl in Hf; lia|].
    csimpl in Hra. apply Forall_cons in Hra as [Hx Hra].
    csimpl in Hdis.
    simpl. rewrite Ha. simpl.
    destruct (decide (dato x = D this)) as [Heq|Hne].
    { rewrite (proj2 (add_abort_iff this (riga x) (colonna x) (dato x) s)) by auto.
      by left. }
    destruct (decide (avail s = 0%N)) as [Hz|Hnz].
    { rewrite add_throw; [|apply Hx|apply Hx|done|done].
      destruct (clear_spec this s nt Hch) as (s' & -> & Hav & Hcells). simpl.
      split; [done|]. lia. }
    destruct (add_chain this s nt (riga x) (colonna x) (dato x) Hch)
      as (this1 & s1 & -> & Hch1 & Hav1 & Hr1 & Hc1 & HD1 & Hfr1 & Hsz1);
      [apply Hx|apply Hx|done|done|].
    set (cur := fresh (dom (cells s))) in *.
    set (nt1 := insert_cell (riga x) (colonna x) (dato x) cur nt) in *.
    assert (cur ∉ dom (cells s)) as Hfresh by apply is_fresh.
    assert (∀ b, b ∈ a :: suf.*1 → b ∈ dom (cells s)) as Halloc.
    { intros b Hb. apply elem_of_dom.
      apply (dll_lookup (cells s) (Some a) pv ((a, x) :: suf)); [|done].
      simpl. split; [done|]. eauto. }
    assert (nt1.*1 ≡ₚ (if hits (riga x) (colonna x) nt.*2 then nt.*1 else cur :: nt.*1)) as Hperm
      by apply insert_cell_fst.
    assert (∀ b, b ∈ nt1.*1 → b ∈ nt.*1 ∨ b = cur) as Hnt1.
    { intros b. rewrite Hperm. destruct (hits _ _ _); set_solver. }
    assert (dll (cells s1) nx (Some a) suf) as Hr'.
    { eapply dll_frame; [|exact Hr]. intros b Hb. apply Hfr1.
      - set_solver.
      - intros ->. apply Hfresh, Halloc. set_solver. }
    assert (nt1.*1 ## suf.*1) as Hdis'.
    { intros b Hb1 Hb2. apply Hnt1 in Hb1 as [Hb1| ->].
      - set_solver.
      - apply Hfresh, Halloc. set_solver. }
    assert (Forall (in_range this1) suf.*2) as Hra'.
    { eapply Forall_impl; [exact Hra|]. unfold in_range. intros y. by rewrite Hr1, Hc1. }
    assert (length suf ≤ fuel)%nat as Hf' by (simpl in Hf; lia).
    specialize (IH fuel this1 s1 nt1 nx (Some a) Hr' Hch1 Hdis' Hra' Hf').
    destruct (copy_loop fuel this1 nx s1) as [[this' s']|s'| | | |]; try done.
    + destruct IH as (nt' & Hch' & Hnt' & Hr'' & Hc' & HD' & Hfr' & Hnew' & Hmono' & Hall' & Hle' & Hav').
      assert (∀ b, b ∈ nt.*1 → b ∈ nt1.*1) as Hmono1.
      { intros b. rewrite Hperm. destruct (hits _ _ _); set_solver. }
      assert (∀ b, b ∉ nt1.*1 → cells s1 !! b = cells s !! b) as Hfr1'.
      { intros b Hb. destruct (decide (b = cur)) as [->|Hbc]; [|apply Hfr1; auto].
        rewrite (not_elem_of_dom_1 (cells s) cur Hfresh).
        revert Hsz1 Hb. rewrite Hperm. destruct (hits _ _ _); [naive_solver|set_solver]. }
      exists nt'. split; [done|].
      split. { rewrite Hnt'. unfold nt1. by rewrite insert_cell_snd. }
      split; [congruence|]. split; [congruence|]. split; [congruence|].
      split. { intros b Hb. rewrite Hfr' by done. apply Hfr1'. auto. }
      split.
      { intros b Hb. apply Hnew' in Hb as [[?| ->]%Hnt1|Hb]; auto.
        destruct (decide (b ∈ nt.*1)) as [|Hnin]; [by left|]. right. intros Hdom. apply Hb.
        apply elem_of_dom. rewrite Hfr1; [by apply elem_of_dom|done|by intros ->]. }
      split; [auto|].
      split. { csimpl. constructor; [done|]. eapply Forall_impl; [exact Hall'|].
               simpl. intros y. by rewrite HD1. }
      simpl. split; lia.
    + destruct IH as (Hcells & Hlt).
      split; [|simpl; lia].
      intros b. rewrite Hcells.
      destruct (decide (b ∈ nt.*1)) as [Hin|Hnin].
      { rewrite decide_True; [done|]. rewrite Hperm. destruct (hits _ _ _); set_solver. }
      destruct (decide (b ∈ nt1.*1)) as [Hin1|Hnin1].
      { apply Hnt1 in Hin1 as [?| ->]; [done|]. symmetry. by apply not_elem_of_dom. }
      destruct (decide (b = cur)) as [->|Hbc]; [|by apply Hfr1].
      rewrite (not_elem_of_dom_1 (cells s) cur Hfresh).
      revert Hsz1 Hnin1. rewrite Hperm. destruct (hits _ _ _); [naive_solver|set_solver].
    + csimpl. right. eapply Exists_impl; [exact IH|]. simpl. intros y. by rewrite HD1.
Qed.

(** *** Re-inserting an ascending chain rebuilds it *)

Lemma before_asym x r c v :
  before (riga x) (colonna x) (Element r c v) = true →
  before r c x = false ∧ same r c x = false.
Proof.
  unfold before, same. simpl.
  destruct (Z.ltb_spec (riga x) r), (Z.eqb_spec (riga x) r), (Z.ltb_spec (colonna x) c),
    (Z.ltb_spec r (riga x)), (Z.eqb_spec r (riga x)), (Z.ltb_spec c (colonna x)),
    (Z.eqb_spec c (colonna x)); simpl; try done; lia.
Qed.

Lemma insert_elem_last r c v l :
  Forall (λ y, before (riga y) (colonna y) (Element r c v) = true) l →
  insert_elem r c v l = l ++ [Element r c v].
Proof.
  induction 1 as [|x l Hx _ IH]; simpl; [done|].
  apply before_asym in Hx as [-> ->]. by rewrite IH.
Qed.

Lemma reinsert_sorted l : ∀ acc, ascending (acc ++ l) → reinsert acc l = acc ++ l.
Proof.
  unfold ascending, reinsert.
  induction l as [|x l IH]; intros acc Hs; simpl; [by rewrite app_nil_r|].
  rewrite insert_elem_last, cell_eta.
  - rewrite IH; rewrite <- app_assoc; done.
  - rewrite cell_eta. apply Forall_forall. intros y Hy.
    apply (StronglySorted_app_1_elem_of _ acc (x :: l) y x Hs); [done|by left].
Qed.

Lemma chain_empty h r c d :
  0 < r ≤ INT_MAX → 0 < c ≤ INT_MAX → chain h (Matrix None r c 0 d) [].
Proof. intros Hr Hc. split; simpl; try done; constructor. Qed.

Lemma chain_length_size h m ns h' m' ns' :
  chain h m ns → chain h' m' ns' → ns'.*2 = ns.*2 → size m' = size m.
Proof.
  intros H1 H2 Heq. rewrite (chain_size _ _ _ H1), (chain_size _ _ _ H2).
  by rewrite <- (length_fmap snd ns'), Heq, length_fmap.
Qed.

Lemma copy_construct_spec other s no :
  chain (cells s) other no →
  match copy_construct other s with
  | Ret (cp, s') =>
      ∃ nc, chain (cells s') cp nc ∧ nc.*2 = no.*2 ∧
            righe cp = righe other ∧ colonne cp = colonne other ∧
            D cp = D other ∧ size cp = size other ∧
            (∀ a, a ∉ nc.*1 → cells s' !! a = cells s !! a) ∧
            (∀ a, a ∈ nc.*1 → a ∉ dom (cells s)) ∧
            Forall (λ x, dato x ≠ D other) no.*2 ∧
            (N.of_nat (length no) ≤ avail s)%N ∧
            avail s' = (avail s - N.of_nat (length no))%N
  | Throw s' => cells s' = cells s ∧ (avail s < N.of_nat (length no))%N
  | Abort => Exists (λ x, dato x = D other) no.*2
  | _ => False
  end.
Proof.
  intros Hch. unfold copy_construct.
  set (this := Matrix None (righe other) (colonne other) 0 (D other)).
  assert (chain (cells s) this []) as Hnew.
  { apply chain_empty; apply (chain_dims _ _ _ Hch). }
  assert ((@nil (addr * element T)).*1 ## no.*1) as Hdis by (csimpl; set_solver).
  assert (length no ≤ map_size (cells s))%nat as Hlen
    by (eapply dll_length; apply Hch).
  pose proof (copy_loop_spec no (map_size (cells s)) this s [] (head other) None
                (chain_dll _ _ _ Hch) Hnew Hdis (chain_range _ _ _ Hch) Hlen) as Hspec.
  destruct (copy_loop _ this _ s) as [[cp s']|s'| | | |]; try done.
  - destruct Hspec as (nc & Hc & Hnc & Hr' & Hc' & HD' & Hfr & Hfresh & _ & Hall & Hle & Hav).
    assert (nc.*2 = no.*2) as Heq.
    { rewrite Hnc. change ([].*2) with (@nil (element T)).
      rewrite reinsert_sorted; [done|]. apply Hch. }
    exists nc. do 5 (split; [done|]).
    split; [by eapply chain_length_size|].
    split; [done|].
    split; [intros a Ha; destruct (Hfresh a Ha) as [Hin|]; [set_solver|done]|].
    done.
  - destruct Hspec as (Hcells & Hlt).
    split; [|done]. apply map_eq. intros a. rewrite Hcells.
    destruct (decide _) as [Hin|]; [|done]. set_solver.
Qed.

(** *** Observers on a valid matrix *)

Lemma lookup_chain m s ns r c :
  chain (cells s) m ns → 0 < r ≤ righe m → 0 < c ≤ colonne m →
  lookup m r c s = Ret (default (D m) (find_cell r c ns.*2)).
Proof.
  intros Hch Hr Hc. unfold lookup. rewrite (bounds_ok _ _ Hr), (bounds_ok _ _ Hc).
  eapply lookup_loop_spec; [apply Hch|]. eapply dll_length; apply Hch.
Qed.

Lemma traverse_chain m s ns : chain (cells s) m ns → traverse m s = Ret ns.*2.
Proof.
  intros Hch. unfold traverse, begin, end_.
  eapply iterate_spec; [apply Hch|]. eapply dll_length; apply Hch.
Qed.

Lemma chain_set_default h m ns d : chain h m ns → chain h (set_default m d) ns.
Proof. intros [??????]. by split. Qed.

Lemma chain_frame h h' m ns :
  (∀ a, a ∈ ns.*1 → h' !! a = h !! a) → chain h m ns → chain h' m ns.
Proof. intros Hf [??????]. split; try done. by eapply dll_frame. Qed.

(** *** Runs of admissible calls *)

Lemma find_replay r c calls : ∀ l,
  find_cell r c (replay l calls) =
    match last_add r c calls with Some w => Some w | None => find_cell r c l end.
Proof.
  induction calls as [|[r' c' v|d|k v] calls IH]; intros l; simpl; try done.
  rewrite IH. destruct (last_add r c calls); [done|].
  case_bool_decide as Heq.
  - destruct Heq as [-> ->]. apply find_insert_same.
  - apply find_insert_other. naive_solver.
Qed.

Lemma run_spec : ∀ calls m s ns,
  chain (cells s) m ns →
  admissible (righe m) (colonne m) (D m) calls →
  (N.of_nat (allocations calls) ≤ avail s)%N →
  ∃ m' s' ns',
    run calls m s = Ret (m', s') ∧ chain (cells s') m' ns' ∧
    ns'.*2 = replay ns.*2 calls ∧
    righe m' = righe m ∧ colonne m' = colonne m ∧
    D m' = final_default (D m) calls ∧
    avail s' = (avail s - N.of_nat (allocations calls))%N.
Proof.
  induction calls as [|[r c v|d|k v] calls IH]; intros m s ns Hch Hadm Hav; simpl in *.
  - exists m, s, ns. rewrite N.sub_0_r. done.
  - destruct Hadm as (Hr & Hc & Hv & Hadm).
    destruct (add_chain m s ns r c v Hch Hr Hc Hv) as
      (m1 & s1 & -> & Hch1 & Hav1 & Hr1 & Hc1 & HD1 & _ & _); [lia|].
    simpl. destruct (IH m1 s1 _ Hch1) as (m' & s' & ns' & -> & Hch' & Hns' & Hr' & Hc' & HD' & Hav').
    { by rewrite Hr1, Hc1, HD1. }
    { lia. }
    exists m', s', ns'. split; [done|]. split; [done|].
    split; [by rewrite Hns', insert_cell_snd|].
    split; [congruence|]. split; [congruence|]. split; [congruence|]. lia.
  - destruct (IH (set_default m d) s ns) as (m' & s' & ns' & -> & Hch' & Hns' & Hr' & Hc' & HD' & Hav');
      [by apply chain_set_default|done|done|].
    by exists m', s', ns'.
  - done.
Qed.

Lemma admissible_app rows cols d calls calls' :
  admissible rows cols d (calls ++ calls') ↔
  admissible rows cols d calls ∧ admissible rows cols (final_default d calls) calls'.
Proof.
  revert d. induction calls as [|[r c v|d'|k v] calls IH]; intros d; simpl.
  - naive_solver.
  - rewrite IH. naive_solver.
  - apply IH.
  - naive_solver.
Qed.

Lemma replay_length calls : ∀ l,
  (length (replay l calls) ≤ length l + allocations calls)%nat.
Proof.
  induction calls as [|[r c v|d|k v] calls IH]; intros l; simpl.
  - lia.
  - etrans; [apply IH|]. rewrite insert_elem_length. destruct (hits r c l); lia.
  - apply IH.
  - apply IH.
Qed.

Lemma ascending_NoDup l : ascending l → NoDup (position <$> l).
Proof.
  unfold ascending. induction 1 as [|x l _ IH Hx]; csimpl; constructor; [|done].
  intros (y & Heq & Hy)%list_elem_of_fmap.
  rewrite Forall_forall in Hx. specialize (Hx y Hy).
  apply before_not_same in Hx. apply not_true_iff_false in Hx. apply Hx.
  apply same_eq. unfold position in Heq. by inversion Heq.
Qed.

Lemma find_cell_None r c l : find_cell r c l = None ↔ (r, c) ∉ position <$> l.
Proof.
  induction l as [|x l IH]; csimpl.
  - split; [|done]. intros _ Hin. by apply elem_of_nil in Hin.
  - destruct (same r c x) eqn:Hs.
    + apply same_eq in Hs as [-> ->]. split; [done|]. intros Hn. exfalso. apply Hn. by left.
    + rewrite IH. rewrite not_elem_of_cons. split; [|naive_solver].
      intros Hn. split; [|done]. unfold position. intros Heq. inversion Heq; subst.
      apply not_true_iff_false in Hs. apply Hs. by apply same_eq.
Qed.

Lemma construct_ok rows cols d :
  0 < rows → 0 < cols → construct rows cols d = Ret (S:=store T) (Matrix None rows cols 0 d).
Proof.
  intros Hr Hc. unfold construct. rewrite !Z.gtb_ltb.
  by rewrite (proj2 (Z.ltb_lt 0 rows) Hr), (proj2 (Z.ltb_lt 0 cols) Hc).
Qed.

Lemma size_small h m ns :
  chain h m ns → Z.of_nat (length ns) < UINT_MOD → size m = Z.of_nat (length ns).
Proof. intros Hch Hlt. rewrite (chain_size _ _ _ Hch). apply Z.mod_small. lia. Qed.

Lemma history_spec rows cols d calls s0 :
  0 < rows ≤ INT_MAX → 0 < cols ≤ INT_MAX →
  admissible rows cols d calls →
  (N.of_nat (allocations calls) ≤ avail s0)%N →
  ∃ m s ns,
    run calls (Matrix None rows cols 0 d) s0 = Ret (m, s) ∧
    chain (cells s) m ns ∧ ns.*2 = replay [] calls ∧
    righe m = rows ∧ colonne m = cols ∧ D m = final_default d calls ∧
    avail s = (avail s0 - N.of_nat (allocations calls))%N.
Proof.
  intros Hrows Hcols Hadm Hav.
  destruct (run_spec calls (Matrix None rows cols 0 d) s0 []
              (chain_empty _ _ _ _ Hrows Hcols) Hadm Hav)
    as (m & s & ns & Hrun & Hch & Hns & Hr & Hc & HD & Hav').
  by exists m, s, ns.
Qed.

Lemma history_add rows cols d calls r c v s0 :
  0 < rows ≤ INT_MAX → 0 < cols ≤ INT_MAX →
  admissible rows cols d (calls ++ [Add r c v]) →
  (N.of_nat (allocations calls) < avail s0)%N →
  ∃ m0 m s m' s',
    construct rows cols d = Ret m0 ∧
    run calls m0 s0 = Ret (m, s) ∧
    add m r c v s = Ret (m', s') ∧
    (∀ i j, 0 < i ≤ rows → 0 < j ≤ cols →
       lookup m i j s = Ret (default (get_default m) (last_add i j calls))) ∧
    lookup m' r c s' = Ret v ∧
    get_size m = Z.of_nat (length (replay [] calls)) mod UINT_MOD ∧
    get_size m' = (if last_add r c calls then get_size m else uincr (get_size m)).
Proof.
  intros Hrows Hcols Hadm Hav.
  apply admissible_app in Hadm as [Hadm (Hr & Hc & Hv & _)].
  destruct (history_spec rows cols d calls s0 Hrows Hcols Hadm)
    as (m & s & ns & Hrun & Hch & Hns & Hr' & Hc' & HD' & Hav'); [lia|].
  destruct (add_chain m s ns r c v Hch) as
    (m' & s' & Hadd & Hch' & _ & Hr'' & Hc'' & _ & _ & Hsz); [lia|lia|congruence|lia|].
  exists (Matrix None rows cols 0 d), m, s, m', s'.
  split; [apply construct_ok; lia|]. split; [done|]. split; [done|].
  assert (∀ i j, find_cell i j ns.*2 = last_add i j calls) as Hfind.
  { intros i j. rewrite Hns, find_replay. by destruct (last_add i j calls). }
  split.
  { intros i j Hi Hj. rewrite (lookup_chain m s ns) by (done || lia). by rewrite Hfind. }
  split.
  { rewrite (lookup_chain m' s' _ r c Hch') by lia.
    by rewrite insert_cell_snd, find_insert_same. }
  split.
  { unfold get_size. rewrite (chain_size _ _ _ Hch). by rewrite <- Hns, length_fmap. }
  rewrite hits_find in Hsz by apply Hch. rewrite Hfind in Hsz. unfold get_size.
  destruct (last_add r c calls) as [w|].
  - rewrite bool_decide_eq_true_2 in Hsz by eauto. apply Hsz.
  - by rewrite bool_decide_eq_false_2 in Hsz by (by intros [??]).
Qed.

(** C1.  For a matrix of valid dimensions, after any admissible history
    (calls to [add] within its preconditions and to [set_default], no
    write through an iterator, an allocation available for each [add])
    followed by [add(r, c, v)]: [lookup] at any in-bounds position
    returned, before that [add], the value of the most recent [add] there,
    and the current default where no [add] had been made; after it,
    [lookup(r, c)] returns [v]; [size()] is unchanged when the position had
    been added before, and otherwise is incremented as an [unsigned int],
    which is an increase by exactly one as long as the history holds fewer
    than 2^32 - 1 [add]s. *)
Theorem add_lookup_size rows cols d calls r c v s0 :
  0 < rows ≤ INT_MAX → 0 < cols ≤ INT_MAX →
  admissible rows cols d (calls ++ [Add r c v]) →
  (N.of_nat (allocations calls) < avail s0)%N →
  ∃ m0 m s m' s',
    construct rows cols d = Ret m0 ∧
    run calls m0 s0 = Ret (m, s) ∧
    add m r c v s = Ret (m', s') ∧
    (∀ i j, 0 < i ≤ rows → 0 < j ≤ cols →
       lookup m i j s = Ret (default (get_default m) (last_add i j calls))) ∧
    lookup m' r c s' = Ret v ∧
    get_size m' = (if last_add r c calls then get_size m else uincr (get_size m)) ∧
    (Z.of_nat (allocations calls) < UINT_MOD - 1 →
     get_size m' = (if last_add r c calls then get_size m else get_size m + 1)).
Proof.
  intros Hrows Hcols Hadm Hav.
  destruct (history_add rows cols d calls r c v s0 Hrows Hcols Hadm Hav)
    as (m0 & m & s & m' & s' & Hc & Hrun & Hadd & Hlk & Hlk' & Hsz & Hsz').
  exists m0, m, s, m', s'. do 5 (split; [done|]). split; [done|].
  intros Hwrap. rewrite Hsz'. destruct (last_add r c calls); [done|].
  rewrite Hsz. unfold uincr.
  pose proof (replay_length calls []) as Hlen. simpl in Hlen.
  rewrite (Z.mod_small (Z.of_nat _)) by lia. apply Z.mod_small. lia.
Qed.

(** C10.  [add] at an in-bounds position with a value other than the
    default leaves the row count, the column count, the default and the
    [lookup] result at every other in-bounds position unchanged; when its
    allocation fails nothing changes at all. *)
Theorem add_frame m s r c v :
  valid m s → 0 < r ≤ righe m → 0 < c ≤ colonne m → v ≠ D m →
  match add m r c v s with
  | Ret (m', s') =>
      get_righe m' = get_righe m ∧ get_colonne m' = get_colonne m ∧
      get_default m' = get_default m ∧
      ∀ i j, 0 < i ≤ righe m → 0 < j ≤ colonne m → (i, j) ≠ (r, c) →
             lookup m' i j s' = lookup m i j s
  | Throw s' => s' = s
  | _ => False
  end.
Proof.
  intros [ns Hch] Hr Hc Hv.
  destruct (decide (avail s = 0%N)) as [Hz|Hav]; [by rewrite add_throw|].
  destruct (add_chain m s ns r c v Hch Hr Hc Hv Hav) as
    (m' & s' & -> & Hch' & _ & Hr' & Hc' & HD' & _ & _).
  do 3 (split; [done|]).
  intros i j Hi Hj Hne.
  rewrite (lookup_chain m' s' _ i j Hch'), (lookup_chain m s ns i j Hch) by (done || lia).
  by rewrite insert_cell_snd, find_insert_other, HD'.
Qed.

Lemma construct_abort_iff r c d :
  construct r c d = Abort (S:=store T) ↔ r ≤ 0 ∨ c ≤ 0.
Proof.
  unfold construct. rewrite !Z.gtb_ltb.
  destruct (Z.ltb_spec 0 r), (Z.ltb_spec 0 c); simpl; split; try done; lia.
Qed.

Lemma lookup_abort_iff m r c s :
  lookup m r c s = Abort ↔ ¬ (0 < r ≤ righe m) ∨ ¬ (0 < c ≤ colonne m).
Proof.
  unfold lookup.
  destruct (negb ((r <=? righe m) && (r >? 0))) eqn:Hr.
  { apply bounds_ko in Hr. naive_solver. }
  destruct (negb ((c <=? colonne m) && (c >? 0))) eqn:Hc.
  { apply bounds_ko in Hc. naive_solver. }
  assert (0 < r ≤ righe m) by (apply dec_stable; intros ?%bounds_ko; congruence).
  assert (0 < c ≤ colonne m) by (apply dec_stable; intros ?%bounds_ko; congruence).
  pose proof (lookup_loop_outcome (map_size (cells s)) m r c (head m) (cells s)) as Ho.
  destruct (lookup_loop _ _ _ _ _ _); naive_solver.
Qed.

(** *** Order and range depend on the positions only *)

Lemma before_pos_lt x y : before (riga x) (colonna x) y = true ↔ pos_lt (position x) (position y).
Proof.
  unfold before, pos_lt, position. simpl.
  rewrite orb_true_iff, andb_true_iff, !Z.ltb_lt, Z.eqb_eq. done.
Qed.

Lemma ascending_iff l : ascending l ↔ StronglySorted pos_lt (position <$> l).
Proof.
  unfold ascending. induction l as [|x l IH]; csimpl.
  - split; constructor.
  - rewrite !StronglySorted_cons, IH, Forall_fmap.
    assert (Forall (λ y, before (riga x) (colonna x) y = true) l ↔
            Forall (pos_lt (position x) ∘ position) l) as ->; [|done].
    apply Forall_iff. intros y. apply before_pos_lt.
Qed.

Lemma Forall_in_range m l l' :
  position <$> l' = position <$> l → Forall (in_range m) l → Forall (in_range m) l'.
Proof.
  intros Heq Hl.
  assert (Forall (λ p, 0 < p.1 ≤ righe m ∧ 0 < p.2 ≤ colonne m) (position <$> l')) as H'.
  { rewrite Heq. by apply Forall_fmap. }
  by apply Forall_fmap in H'.
Qed.

Lemma ascending_positions l l' :
  position <$> l' = position <$> l → ascending l → ascending l'.
Proof. rewrite !ascending_iff. by intros ->. Qed.

(** *** Writing through a mutable iterator *)

Lemma advance_spec : ∀ ns k p pv h,
  dll h p pv ns →
  advance k p h =
    match ns !! k with
    | Some (a, _) => Some (Some a)
    | None => if decide (k = length ns) then Some None else None
    end.
Proof.
  induction ns as [|[a x] ns IH]; intros k p pv h Hd.
  - simpl in Hd. subst p. by destruct k.
  - simpl in Hd. destruct Hd as [-> (nx & Ha & Hr)].
    destruct k as [|k]; [done|].
    simpl. unfold iter_incr. simpl. rewrite Ha. simpl.
    rewrite (IH k nx (Some a) h Hr).
    destruct (ns !! k) as [[??]|]; [done|].
    destruct (decide (k = length ns)), (decide (S k = S (length ns))); done || lia.
Qed.

Lemma dll_write v : ∀ ns k p pv h a x,
  dll h p pv ns → NoDup ns.*1 → ns !! k = Some (a, x) →
  ∃ h', iter_write (Some a) v h = Some h' ∧
        dll h' p pv (<[k := (a, Element (riga x) (colonna x) v)]> ns) ∧
        ∀ b, b ≠ a → h' !! b = h !! b.
Proof.
  induction ns as [|[b y] ns IH]; intros k p pv h a x Hd Hnd Hk; [done|].
  simpl in Hd. destruct Hd as [-> (nx & Hb & Hr)].
  csimpl in Hnd. apply NoDup_cons in Hnd as [Hbn Hnd].
  destruct k as [|k]; simpl in Hk.
  - injection Hk as -> ->. unfold iter_write, set_dato. simpl. rewrite Hb. simpl.
    eexists. split; [done|]. split.
    + simpl. split; [done|]. exists nx. split; [by rewrite lookup_insert_eq|].
      eapply dll_frame; [|exact Hr]. intros c Hc. rewrite lookup_insert_ne; [done|].
      by intros ->.
    + intros c Hc. by rewrite lookup_insert_ne.
  - destruct (IH k nx (Some b) h a x Hr Hnd Hk) as (h' & Hw & Hd' & Hfr).
    exists h'. split; [done|]. split; [|done].
    simpl. split; [done|]. exists nx. split; [|done].
    rewrite Hfr; [done|]. intros ->. apply Hbn.
    apply list_elem_of_fmap. exists (a, x). split; [done|]. by eapply list_elem_of_lookup_2.
Qed.

Lemma chain_write m s ns k a x v :
  chain (cells s) m ns → ns !! k = Some (a, x) →
  ∃ h', iter_write (Some a) v (cells s) = Some h' ∧
        chain h' m (<[k := (a, Element (riga x) (colonna x) v)]> ns) ∧
        ∀ b, b ≠ a → h' !! b = cells s !! b.
Proof.
  intros Hch Hk.
  destruct (dll_write v ns k (head m) None (cells s) a x) as (h' & Hw & Hd & Hfr);
    [apply Hch|apply Hch|done|].
  exists h'. split; [done|]. split; [|done].
  assert (position <$> (<[k:=(a, Element (riga x) (colonna x) v)]> ns).*2 = position <$> ns.*2) as Hpos.
  { rewrite !list_fmap_insert. simpl. apply list_insert_id.
    rewrite !list_lookup_fmap, Hk. done. }
  split.
  - done.
  - rewrite list_fmap_insert. simpl. rewrite list_insert_id; [apply Hch|].
    by rewrite list_lookup_fmap, Hk.
  - rewrite length_insert. apply Hch.
  - eapply ascending_positions; [exact Hpos|apply Hch].
  - eapply Forall_in_range; [exact Hpos|apply Hch].
  - apply Hch.
Qed.

(** *** What a call can touch: the nodes of its own matrix, and fresh ones *)

Lemma perform_frame q m s ns :
  chain (cells s) m ns →
  match perform q m s with
  | Ret (m', s') =>
      ∃ ns', chain (cells s') m' ns' ∧
             (∀ a, a ∉ ns.*1 → a ∈ dom (cells s) → cells s' !! a = cells s !! a) ∧
             (∀ a, a ∈ ns'.*1 → a ∈ ns.*1 ∨ a ∉ dom (cells s))
  | Throw s' => s' = s
  | Abort | Fault => True
  | _ => False
  end.
Proof.
  intros Hch. destruct q as [r c v|d|k v]; simpl.
  - destruct (decide (0 < r ≤ righe m ∧ 0 < c ≤ colonne m ∧ v ≠ D m)) as [(Hr & Hc & Hv)|Hbad].
    + destruct (decide (avail s = 0%N)) as [Hz|Hnz].
      { by rewrite add_throw. }
      destruct (add_chain m s ns r c v Hch Hr Hc Hv Hnz) as
        (m' & s' & -> & Hch' & _ & _ & _ & _ & Hfr & _).
      eexists. split; [exact Hch'|]. split.
      * intros a Ha Hdom. apply Hfr; [done|]. intros ->. by apply is_fresh in Hdom.
      * intros a. rewrite insert_cell_fst. destruct (hits _ _ _); [by left|].
        intros [->|?]%elem_of_cons; [right; apply is_fresh|by left].
    + rewrite (proj2 (add_abort_iff m r c v s)); [done|].
      destruct (decide (0 < r ≤ righe m)); [|by left].
      destruct (decide (0 < c ≤ colonne m)); [|by right; left].
      right. right. apply dec_stable. naive_solver.
  - exists ns. split; [by apply chain_set_default|]. split; [done|]. by left.
  - unfold begin. rewrite (advance_spec ns k (head m) None (cells s)) by apply Hch.
    destruct (ns !! k) as [[a x]|] eqn:Hk.
    + destruct (chain_write m s ns k a x v Hch Hk) as (h' & Hw & Hch' & Hfr).
      unfold iter_write, set_dato in Hw. simpl in *. rewrite Hw. simpl.
      assert (a ∈ ns.*1) as Ha.
      { apply list_elem_of_fmap. exists (a, x). split; [done|]. by eapply list_elem_of_lookup_2. }
      eexists. split; [exact Hch'|]. split.
      * intros b Hb _. apply Hfr. by intros ->.
      * intros b. rewrite list_fmap_insert. simpl. rewrite list_insert_id; [by left|].
        by rewrite list_lookup_fmap, Hk.
    + by destruct (decide _).
Qed.

Lemma run_frame : ∀ calls m s ns,
  chain (cells s) m ns →
  match run calls m s with
  | Ret (_, s') | Throw s' =>
      ∀ a, a ∉ ns.*1 → a ∈ dom (cells s) → cells s' !! a = cells s !! a
  | _ => True
  end.
Proof.
  induction calls as [|q calls IH]; intros m s ns Hch; simpl; [done|].
  pose proof (perform_frame q m s ns Hch) as Hq.
  destruct (perform q m s) as [[m1 s1]|s1| | | |]; simpl; try done.
  - destruct Hq as (ns1 & Hch1 & Hfr1 & Hnew1).
    specialize (IH m1 s1 ns1 Hch1).
    assert (∀ a, a ∉ ns.*1 → a ∈ dom (cells s) → a ∉ ns1.*1 ∧ a ∈ dom (cells s1)) as Hstep.
    { intros a Ha Hdom. split; [intros [?|?]%Hnew1; done|].
      apply elem_of_dom. rewrite Hfr1 by done. by apply elem_of_dom. }
    destruct (run calls m1 s1) as [[m2 s2]|s2| | | |]; try done.
    + intros a Ha Hdom. destruct (Hstep a Ha Hdom). rewrite IH by done. by apply Hfr1.
    + intros a Ha Hdom. destruct (Hstep a Ha Hdom). rewrite IH by done. by apply Hfr1.
  - by subst s1.
Qed.

Lemma lookup_frame m s s' ns r c :
  chain (cells s) m ns → (∀ a, a ∈ ns.*1 → cells s' !! a = cells s !! a) →
  lookup m r c s' = lookup m r c s.
Proof.
  intros Hch Hfr.
  assert (chain (cells s') m ns) as Hch' by (by eapply chain_frame).
  unfold lookup. destruct (negb _); [done|]. destruct (negb _); [done|].
  rewrite (lookup_loop_spec m r c ns _ _ None (cells s') (chain_dll _ _ _ Hch'))
    by (eapply dll_length; apply Hch').
  rewrite (lookup_loop_spec m r c ns _ _ None (cells s) (chain_dll _ _ _ Hch))
    by (eapply dll_length; apply Hch).
  done.
Qed.

Lemma lookup_same_cells m s ns m' s' ns' r c :
  chain (cells s) m ns → chain (cells s') m' ns' → ns'.*2 = ns.*2 →
  righe m' = righe m → colonne m' = colonne m → D m' = D m →
  lookup m' r c s' = lookup m r c s.
Proof.
  intros Hch Hch' Heq Hr Hc HD. unfold lookup. rewrite Hr, Hc.
  destruct (negb _); [done|]. destruct (negb _); [done|].
  rewrite (lookup_loop_spec m' r c ns' _ _ None (cells s') (chain_dll _ _ _ Hch'))
    by (eapply dll_length; apply Hch').
  rewrite (lookup_loop_spec m r c ns _ _ None (cells s) (chain_dll _ _ _ Hch))
    by (eapply dll_length; apply Hch).
  by rewrite Heq, HD.
Qed.

(** C3.  Copy construction of a valid matrix none of whose stored
    values equals its current default, with room for the nodes: the copy
    has the size, default, dimensions, [lookup] results and cells of the
    source, and whatever calls are then made on the copy ([add],
    [set_default], writes through a mutable iterator), every [lookup] on
    the source and its traversal stay what they were. *)
Theorem copy_independent other s l :
  valid other s →
  traverse other s = Ret l →
  Forall (λ x, dato x ≠ get_default other) l →
  (N.of_nat (length l) ≤ avail s)%N →
  ∃ cp s1,
    copy_construct other s = Ret (cp, s1) ∧
    get_size cp = get_size other ∧ get_default cp = get_default other ∧
    get_righe cp = get_righe other ∧ get_colonne cp = get_colonne other ∧
    (∀ r c, lookup cp r c s1 = lookup other r c s) ∧
    traverse cp s1 = Ret l ∧
    ∀ calls,
      match run calls cp s1 with
      | Ret (_, s2) | Throw s2 =>
          (∀ r c, lookup other r c s2 = lookup other r c s) ∧
          traverse other s2 = Ret l
      | _ => True
      end.
Proof.
  intros [no Hch] Htr Hall Hav.
  rewrite (traverse_chain other s no Hch) in Htr. injection Htr as <-.
  rewrite length_fmap in Hav.
  pose proof (copy_construct_spec other s no Hch) as Hspec.
  destruct (copy_construct other s) as [[cp s1]|s1| | | |]; try done.
  - destruct Hspec as (nc & Hc & Hnc & Hr' & Hc' & HD' & Hsz & Hfr & Hfresh & _).
    exists cp, s1. do 5 (split; [done|]).
    split; [intros r c; by eapply lookup_same_cells|].
    split; [by rewrite (traverse_chain cp s1 nc Hc), Hnc|].
    intros calls.
    assert (∀ a, a ∈ no.*1 → a ∈ dom (cells s)) as Halloc.
    { intros a Ha. apply elem_of_dom. eapply dll_lookup; [apply Hch|done]. }
    assert (∀ a, a ∈ no.*1 → a ∉ nc.*1) as Hdis.
    { intros a Ha Hin. by apply (Hfresh a Hin), Halloc. }
    pose proof (run_frame calls cp s1 nc Hc) as Hrun.
    assert (∀ s2, (∀ a, a ∉ nc.*1 → a ∈ dom (cells s1) → cells s2 !! a = cells s1 !! a) →
                  (∀ r c, lookup other r c s2 = lookup other r c s) ∧
                  traverse other s2 = Ret no.*2) as Hkeep.
    { intros s2 Hs2.
      assert (∀ a, a ∈ no.*1 → cells s2 !! a = cells s !! a) as Hsame.
      { intros a Ha. rewrite Hs2; [by apply Hfr, Hdis|by apply Hdis|].
        apply elem_of_dom. rewrite Hfr by (by apply Hdis). by apply elem_of_dom, Halloc. }
      split; [intros r c; by eapply lookup_frame|].
      apply traverse_chain. by eapply chain_frame. }
    destruct (run calls cp s1) as [[m2 s2]|s2| | | |]; auto.
  - destruct Hspec as [_ Hlt]. lia.
  - exfalso. apply Exists_exists in Hspec as (x & Hx & Heq).
    rewrite Forall_forall in Hall. by apply (Hall x Hx).
Qed.

(** *** evaluate *)

Lemma tally_nonneg p m s (l : list (Z * Z)) : 0 ≤ tally p m s l.
Proof. unfold tally. lia. Qed.

Lemma tally_cons p m s (ij : Z * Z) (l : list (Z * Z)) :
  tally p m s (ij :: l) = (if satisfies p m s ij then 1 else 0) + tally p m s l.
Proof.
  unfold tally. rewrite filter_cons. case_decide as Hd.
  - rewrite Hd. simpl length. lia.
  - destruct (satisfies p m s ij); [done|]. lia.
Qed.

Lemma tally_app p m s (l l' : list (Z * Z)) :
  tally p m s (l ++ l') = tally p m s l + tally p m s l'.
Proof. unfold tally. rewrite filter_app, length_app. lia. Qed.

Lemma evaluate_columns_spec p m s ns i :
  chain (cells s) m ns → 0 < i ≤ righe m →
  ∀ n j counter fuel,
    Z.to_nat (colonne m + 1 - j) = n → 1 ≤ j ≤ colonne m + 1 →
    (j ≤ colonne m ∨ colonne m < INT_MAX) →
    (n ≤ fuel)%nat → 0 ≤ counter ≤ INT_MAX →
    evaluate_columns fuel m p i j counter s =
      let t := counter + tally p m s ((λ j', (i, j')) <$> seqZ j (colonne m + 1 - j)) in
      if decide (colonne m < INT_MAX ∧ t ≤ INT_MAX) then Ret t else Overflow.
Proof.
  intros Hch Hi. induction n as [|n IH]; intros j counter fuel Hn Hj Hcol Hfuel Hcnt.
  - assert (j = colonne m + 1) as -> by lia.
    replace (colonne m + 1 - (colonne m + 1)) with 0 by lia.
    assert (evaluate_columns fuel m p i (colonne m + 1) counter s = Ret counter) as ->.
    { destruct fuel; simpl; unfold get_colonne;
        by rewrite (proj2 (Z.leb_gt _ _)) by lia. }
    simpl. unfold tally. simpl. rewrite Z.add_0_r. rewrite decide_True; [done|lia].
  - assert (j ≤ colonne m) as Hle by lia.
    destruct fuel as [|fuel]; [lia|].
    rewrite seqZ_cons by lia. rewrite fmap_cons, tally_cons.
    replace (Z.pred (colonne m + 1 - j)) with (colonne m + 1 - Z.succ j) by lia.
    set (X := tally p m s ((λ j', (i, j')) <$> seqZ (Z.succ j) (colonne m + 1 - Z.succ j))).
    assert (0 ≤ X) as Hnn by apply tally_nonneg.
    simpl. unfold get_colonne. rewrite (proj2 (Z.leb_le _ _) Hle).
    unfold satisfies. simpl.
    rewrite (lookup_chain m s ns i j Hch) by lia. simpl.
    set (v := default (D m) (find_cell i j ns.*2)).
    assert (∀ counter', 0 ≤ counter' ≤ INT_MAX →
      (int_incr j ≫= λ j', evaluate_columns fuel m p i j' counter' s) =
      (if decide (colonne m < INT_MAX ∧ counter' + X ≤ INT_MAX)
       then Ret (counter' + X) else Overflow)) as Hrest.
    { intros counter' Hc'. unfold int_incr.
      destruct (Z.ltb_spec j INT_MAX) as [Hlt|Hge]; simpl.
      - replace (j + 1) with (Z.succ j) by lia.
        rewrite (IH (Z.succ j) counter' fuel) by lia. done.
      - rewrite decide_False; [done|lia]. }
    set (k := λ counter' : Z, int_incr j ≫= λ j', evaluate_columns fuel m p i j' counter' s).
    match goal with |- _ = ?rhs =>
      change (((if p v then int_incr counter else Ret counter) ≫= k) = rhs) end.
    destruct (p v).
    + unfold int_incr at 1. destruct (Z.ltb_spec counter INT_MAX) as [Hlt|Hge].
      * match goal with |- _ = ?rhs => change (k (counter + 1) = rhs) end.
        unfold k. rewrite Hrest by lia.
        replace (counter + (1 + X)) with (counter + 1 + X) by lia. done.
      * rewrite decide_False; [done|lia].
    + match goal with |- _ = ?rhs => change (k counter = rhs) end.
      unfold k. rewrite Hrest by lia.
      replace (counter + (0 + X)) with (counter + X) by lia. done.
Qed.

Lemma evaluate_rows_spec p m s ns :
  chain (cells s) m ns →
  ∀ n i counter fuel,
    Z.to_nat (righe m + 1 - i) = n → 1 ≤ i ≤ righe m + 1 →
    (i ≤ righe m ∨ (righe m < INT_MAX ∧ colonne m < INT_MAX)) →
    (n ≤ fuel)%nat → 0 ≤ counter ≤ INT_MAX →
    evaluate_rows fuel m p i counter s =
      let t := counter + tally p m s
                 (i' ← seqZ i (righe m + 1 - i); (λ j, (i', j)) <$> seqZ 1 (colonne m)) in
      if decide (righe m < INT_MAX ∧ colonne m < INT_MAX ∧ t ≤ INT_MAX) then Ret t else Overflow.
Proof.
  intros Hch. pose proof (chain_dims _ _ _ Hch) as [Hrd Hcd].
  induction n as [|n IH]; intros i counter fuel Hn Hi Hrow Hfuel Hcnt.
  - assert (i = righe m + 1) as -> by lia.
    replace (righe m + 1 - (righe m + 1)) with 0 by lia.
    assert (evaluate_rows fuel m p (righe m + 1) counter s = Ret counter) as ->.
    { destruct fuel; simpl; unfold get_righe;
        by rewrite (proj2 (Z.leb_gt _ _)) by lia. }
    simpl. unfold tally. simpl. rewrite Z.add_0_r. rewrite decide_True; [done|lia].
  - assert (i ≤ righe m) as Hle by lia.
    destruct fuel as [|fuel]; [lia|].
    rewrite (seqZ_cons i) by lia. rewrite bind_cons, tally_app.
    replace (Z.pred (righe m + 1 - i)) with (righe m + 1 - Z.succ i) by lia.
    set (R := tally p m s ((λ j, (i, j)) <$> seqZ 1 (colonne m))).
    set (X := tally p m s (i' ← seqZ (Z.succ i) (righe m + 1 - Z.succ i);
                          (λ j, (i', j)) <$> seqZ 1 (colonne m))).
    assert (0 ≤ R) as HR by apply tally_nonneg.
    assert (0 ≤ X) as HX by apply tally_nonneg.
    simpl. unfold get_righe, get_colonne. rewrite (proj2 (Z.leb_le _ _) Hle).
    rewrite (evaluate_columns_spec p m s ns i Hch ltac:(lia) (Z.to_nat (colonne m)) 1 counter)
      by (done || lia).
    replace (colonne m + 1 - 1) with (colonne m) by lia. fold R. cbv zeta.
    destruct (decide (colonne m < INT_MAX ∧ counter + R ≤ INT_MAX)) as [[Hc HcR]|Hno].
    + match goal with |- _ = ?rhs =>
        change ((int_incr i ≫= λ i', evaluate_rows fuel m p i' (counter + R) s) = rhs) end.
      unfold int_incr. destruct (Z.ltb_spec i INT_MAX) as [Hlt|Hge].
      * match goal with |- _ = ?rhs =>
          change (evaluate_rows fuel m p (i + 1) (counter + R) s = rhs) end.
        replace (i + 1) with (Z.succ i) by lia.
        rewrite (IH (Z.succ i) (counter + R) fuel) by lia. cbv zeta. fold X.
        replace (counter + (R + X)) with (counter + R + X) by lia. done.
      * rewrite decide_False; [done|lia].
    + rewrite decide_False; [done|lia].
Qed.

Lemma evaluate_spec p m s :
  valid m s →
  evaluate m p s =
    if decide (righe m < INT_MAX ∧ colonne m < INT_MAX ∧ matches p m s ≤ INT_MAX)
    then Ret (matches p m s) else Overflow.
Proof.
  intros [ns Hch]. pose proof (chain_dims _ _ _ Hch) as [Hrd Hcd].
  unfold evaluate, get_righe.
  rewrite (evaluate_rows_spec p m s ns Hch (Z.to_nat (righe m)) 1 0) by (done || lia).
  replace (righe m + 1 - 1) with (righe m) by lia. cbv zeta. by rewrite Z.add_0_l.
Qed.

Lemma positions_length m :
  0 ≤ righe m → 0 ≤ colonne m → Z.of_nat (length (positions m)) = righe m * colonne m.
Proof.
  intros Hr Hc. unfold positions, grid.
  assert (∀ l : list Z, length (i ← l; (λ j, (i, j)) <$> seqZ 1 (colonne m)) =
                        (length l * Z.to_nat (colonne m))%nat) as Hlen.
  { induction l as [|i l IH]; [done|].
    rewrite bind_cons, length_app, length_fmap, length_seqZ, IH. simpl. lia. }
  rewrite Hlen, length_seqZ. lia.
Qed.

Lemma positions_in_range m i j :
  (i, j) ∈ positions m → 0 < i ≤ righe m ∧ 0 < j ≤ colonne m.
Proof.
  unfold positions, grid. intros (i' & Hin & Hi')%list_elem_of_bind.
  apply list_elem_of_fmap in Hin as (j' & Heq & Hj'). injection Heq as -> ->.
  apply elem_of_seqZ in Hi', Hj'. lia.
Qed.

Lemma matches_always p m s :
  valid m s → (∀ v, p v = true) → matches p m s = righe m * colonne m.
Proof.
  intros [ns Hch] Hp. pose proof (chain_dims _ _ _ Hch) as [Hrd Hcd].
  unfold matches, tally. rewrite <- positions_length by lia. f_equal. f_equal.
  assert (∀ l : list (Z * Z), (∀ ij, ij ∈ l → satisfies p m s ij = true) →
          filter (λ ij, satisfies p m s ij = true) l = l) as Hall.
  { induction l as [|ij l IH]; intros Hl; [done|].
    rewrite filter_cons, decide_True by (apply Hl; by left).
    f_equal. apply IH. intros ij' ?. apply Hl. by right. }
  apply Hall. intros [i j] [Hi Hj]%positions_in_range.
  unfold satisfies. simpl. by rewrite (lookup_chain m s ns i j Hch Hi Hj).
Qed.

(** C4.  On a valid matrix with fewer than INT_MAX rows and columns,
    when the number of positions whose [lookup] satisfies the predicate
    fits in an [int], [evaluate] returns that number; stored and unstored
    cells alike are counted through [lookup].  With a predicate that
    always holds the number is rows times columns. *)
Theorem evaluate_counts p m s :
  valid m s →
  righe m < INT_MAX → colonne m < INT_MAX →
  matches p m s ≤ INT_MAX →
  evaluate m p s = Ret (matches p m s) ∧
  ((∀ v, p v = true) → evaluate m p s = Ret (get_righe m * get_colonne m)).
Proof.
  intros Hv Hr Hc Hm. rewrite (evaluate_spec p m s Hv).
  rewrite decide_True by done. split; [done|].
  intros Hp. by rewrite (matches_always p m s Hv Hp).
Qed.

Lemma history_traverse rows cols d calls s0 :
  0 < rows ≤ INT_MAX → 0 < cols ≤ INT_MAX →
  admissible rows cols d calls →
  (N.of_nat (allocations calls) ≤ avail s0)%N →
  ∃ m0 m s l,
    construct rows cols d = Ret m0 ∧
    run calls m0 s0 = Ret (m, s) ∧
    traverse m s = Ret l ∧ l = replay [] calls ∧
    StronglySorted pos_lt (position <$> l) ∧ NoDup (position <$> l) ∧
    get_size m = Z.of_nat (length l) mod UINT_MOD.
Proof.
  intros Hrows Hcols Hadm Hav.
  destruct (history_spec rows cols d calls s0 Hrows Hcols Hadm Hav)
    as (m & s & ns & Hrun & Hch & Hns & _).
  exists (Matrix None rows cols 0 d), m, s, ns.*2.
  split; [apply construct_ok; lia|]. split; [done|].
  split; [by apply traverse_chain|]. split; [done|].
  split; [apply ascending_iff, Hch|]. split; [apply ascending_NoDup, Hch|].
  rewrite length_fmap. apply Hch.
Qed.

Lemma valid_history rows cols d calls s0 m s :
  0 < rows ≤ INT_MAX → 0 < cols ≤ INT_MAX →
  admissible rows cols d calls →
  (N.of_nat (allocations calls) ≤ avail s0)%N →
  run calls (Matrix None rows cols 0 d) s0 = Ret (m, s) →
  valid m s.
Proof.
  intros Hrows Hcols Hadm Hav Hrun.
  destruct (history_spec rows cols d calls s0 Hrows Hcols Hadm Hav)
    as (m' & s' & ns & Hrun' & Hch & _).
  rewrite Hrun in Hrun'. injection Hrun' as -> ->. by exists ns.
Qed.

(** *** Filling a grid of positions *)

Lemma seqZ_sorted (lo len : Z) : StronglySorted Z.lt (seqZ lo len).
Proof.
  destruct (decide (0 ≤ len)) as [Hn|Hn]; [|rewrite seqZ_nil by lia; constructor].
  rewrite <- (Z2Nat.id len Hn). generalize (Z.to_nat len). clear. intros k. revert lo.
  induction k as [|k IH]; intros lo; [constructor|].
  rewrite seqZ_cons by lia. replace (Z.pred (Z.of_nat (S k))) with (Z.of_nat k) by lia.
  constructor; [apply IH|]. apply Forall_forall. intros j Hj%elem_of_seqZ. lia.
Qed.

Lemma grid_sorted rows cols :
  StronglySorted Z.lt rows → StronglySorted Z.lt cols →
  StronglySorted pos_lt (grid rows cols).
Proof.
  intros Hrows Hcols. unfold grid. induction Hrows as [|i rows _ IH Hi].
  - constructor.
  - rewrite bind_cons. apply StronglySorted_app_2; [| |exact IH].
    + intros p q (j & -> & _)%list_elem_of_fmap (i' & Hq & Hi')%list_elem_of_bind.
      apply list_elem_of_fmap in Hq as (j' & -> & _).
      rewrite Forall_forall in Hi. left. simpl. by apply Hi.
    + eapply StronglySorted_fmap; [|exact Hcols]. intros j j' Hlt. right. by simpl.
Qed.

Lemma grid_length rows cols : length (grid rows cols) = (length rows * length cols)%nat.
Proof.
  unfold grid. induction rows as [|i rows IH]; [done|].
  rewrite bind_cons, length_app, length_fmap, IH. simpl. lia.
Qed.

Lemma elem_of_grid rows cols i j : (i, j) ∈ grid rows cols ↔ i ∈ rows ∧ j ∈ cols.
Proof.
  unfold grid. rewrite list_elem_of_bind. split.
  - intros (i' & (j' & [= -> ->] & Hj)%list_elem_of_fmap & Hi). done.
  - intros [Hi Hj]. exists i. split; [|done]. apply list_elem_of_fmap. by exists j.
Qed.

Lemma replay_fill v (ps : list (Z * Z)) : ∀ acc,
  StronglySorted pos_lt ((position <$> acc) ++ ps) →
  replay acc (fill v ps) = acc ++ ((λ p, Element p.1 p.2 v) <$> ps).
Proof.
  induction ps as [|p ps IH]; intros acc Hs.
  - by rewrite app_nil_r.
  - unfold fill. rewrite !fmap_cons. fold (fill v ps).
    change (replay acc (Add p.1 p.2 v :: fill v ps))
      with (replay (insert_elem p.1 p.2 v acc) (fill v ps)).
    rewrite insert_elem_last.
    + rewrite IH; [by rewrite <- app_assoc|].
      rewrite fmap_app, <- app_assoc. by destruct p.
    + apply Forall_forall. intros y Hy. apply before_pos_lt.
      replace (position (Element p.1 p.2 v)) with p by (by destruct p).
      apply (StronglySorted_app_1_elem_of _ _ _ _ _ Hs); [|by left].
      apply list_elem_of_fmap. by exists y.
Qed.

Lemma admissible_fill rows cols d v (ps : list (Z * Z)) :
  v ≠ d → Forall (λ p, 0 < p.1 ≤ rows ∧ 0 < p.2 ≤ cols) ps →
  admissible rows cols d (fill v ps).
Proof.
  intros Hv. induction 1 as [|p ps [Hr Hc] _ IH]; [done|].
  unfold fill. rewrite fmap_cons. fold (fill v ps).
  split; [done|]. split; [done|]. by split.
Qed.

Lemma allocations_fill v (ps : list (Z * Z)) : allocations (fill v ps) = length ps.
Proof.
  induction ps as [|p ps IH]; [done|].
  unfold fill. rewrite fmap_cons. fold (fill v ps).
  change (allocations (Add p.1 p.2 v :: fill v ps)) with (S (allocations (fill v ps))).
  by rewrite IH.
Qed.

Lemma last_add_fill r c v (ps : list (Z * Z)) : (r, c) ∉ ps → last_add r c (fill v ps) = None.
Proof.
  induction ps as [|p ps IH]; [done|]. intros [Hp Hps]%not_elem_of_cons.
  unfold fill. rewrite fmap_cons. fold (fill v ps).
  change (last_add r c (Add p.1 p.2 v :: fill v ps))
    with (match last_add r c (fill v ps) with
          | Some w => Some w
          | None => if bool_decide (r = p.1 ∧ c = p.2) then Some v else None
          end).
  rewrite IH by done. rewrite bool_decide_eq_false_2; [done|].
  intros [-> ->]. apply Hp. by destruct p.
Qed.

Lemma final_default_fill d v (ps : list (Z * Z)) : final_default d (fill v ps) = d.
Proof.
  induction ps as [|p ps IH]; [done|].
  unfold fill. rewrite fmap_cons. fold (fill v ps). exact IH.
Qed.

Lemma fill_length v (ps : list (Z * Z)) :
  StronglySorted pos_lt ps → length (replay [] (fill v ps)) = length ps.
Proof.
  intros Hs. rewrite (replay_fill v ps []); [|exact Hs].
  rewrite app_nil_l. apply length_fmap.
Qed.

(** *** The body of the assignment operator

    What copy-and-swap would do, could the body be instantiated. *)

Lemma assign_body_aliased this other s : assign_body this other true s = Ret (this, s).
Proof. done. Qed.

Lemma assign_body_spec this other s nt no :
  chain (cells s) this nt → chain (cells s) other no → nt.*1 ## no.*1 →
  match assign_body this other false s with
  | Ret (this', s') =>
      ∃ nc, chain (cells s') this' nc ∧ nc.*2 = no.*2 ∧
            righe this' = righe other ∧ colonne this' = colonne other ∧
            D this' = D other ∧ size this' = size other ∧
            chain (cells s') other no ∧
            ∀ a, a ∈ nt.*1 → cells s' !! a = None
  | Throw s' => cells s' = cells s
  | Abort => Exists (λ x, dato x = D other) no.*2
  | _ => False
  end.
Proof.
  intros Hthis Hother Hdis. unfold assign_body.
  pose proof (copy_construct_spec other s no Hother) as Hcopy.
  destruct (copy_construct other s) as [[cp s1]|s1| | | |]; simpl; try done; [|apply Hcopy].
  destruct Hcopy as (nc & Hc & Hnc & Hr & Hcc & HD & Hsz & Hfr & Hfresh & _).
  assert (∀ a, a ∈ nt.*1 → a ∉ nc.*1) as Hold.
  { intros a Ha Hin. apply (Hfresh a Hin), elem_of_dom.
    eapply dll_lookup; [apply Hthis|done]. }
  set (tmp' := Matrix (head this) (righe this) (colonne this) (size this) (D this)).
  assert (chain (cells s1) tmp' nt) as Htmp.
  { replace tmp' with this by (by destruct this).
    eapply chain_frame; [|exact Hthis]. intros a Ha. by apply Hfr, Hold. }
  unfold destroy.
  destruct (clear_spec tmp' s1 nt Htmp) as (s2 & -> & _ & Hcells). simpl.
  exists nc.
  assert (∀ a, a ∉ nt.*1 → cells s2 !! a = cells s1 !! a) as Hkeep.
  { intros a Ha. rewrite Hcells. by rewrite decide_False. }
  split.
  { replace (Matrix (head cp) (righe cp) (colonne cp) (size cp) (D cp)) with cp
      by (by destruct cp).
    eapply chain_frame; [|exact Hc]. intros a Ha. apply Hkeep. intros Hin. by apply (Hold a). }
  do 5 (split; [done|]). split.
  - eapply chain_frame; [|exact Hother]. intros a Ha.
    rewrite Hkeep by (intros Hin; by apply (Hdis a)).
    apply Hfr. intros Hin. apply (Hfresh a Hin), elem_of_dom.
    eapply dll_lookup; [apply Hother|done].
  - intros a Ha. rewrite Hcells. by rewrite decide_True.
Qed.

End Proofs.

(** ** The conversion constructor *)

Section ConversionProofs.
Context {Q T : Type} `{!EqDecision Q, !EqDecision T}.
Variable cast : Q → T.

Implicit Types (w : world Q T) (other tmp : SparseMatrix Q) (this m : SparseMatrix T).
Implicit Types (suf no : list (addr * element Q)) (nt nc : list (addr * element T)).

Lemma position_cast_cell (l : list (element Q)) :
  position <$> (cast_cell cast <$> l) = position <$> l.
Proof. rewrite <- list_fmap_compose. by apply list_fmap_ext. Qed.

Lemma convert_loop_spec :
  ∀ suf fuel this w nt Ib pv,
    dll (src w) Ib pv suf →
    chain (dst w) this nt →
    Forall (in_range this) (cast_cell cast <$> suf.*2) →
    (length suf ≤ fuel)%nat →
    match convert_loop cast fuel this Ib None w with
    | Ret (this', w') =>
        ∃ nt', chain (dst w') this' nt' ∧
               nt'.*2 = reinsert nt.*2 (cast_cell cast <$> suf.*2) ∧
               righe this' = righe this ∧ colonne this' = colonne this ∧
               D this' = D this ∧
               src w' = src w ∧
               (∀ a, a ∉ nt'.*1 → dst w' !! a = dst w !! a) ∧
               (∀ a, a ∈ nt'.*1 → a ∈ nt.*1 ∨ a ∉ dom (dst w)) ∧
               (∀ a, a ∈ nt.*1 → a ∈ nt'.*1) ∧
               Forall (λ x, cast (dato x) ≠ D this) suf.*2 ∧
               (N.of_nat (length suf) ≤ budget w)%N ∧
               budget w' = (budget w - N.of_nat (length suf))%N ∧
               derefs w' = derefs w ++ (suf.*1 ≫= λ a, [Some a; Some a; Some a])
    | Throw w' =>
        src w' = src w ∧
        (∀ a, dst w' !! a = if decide (a ∈ nt.*1) then None else dst w !! a) ∧
        (budget w < N.of_nat (length suf))%N
    | Abort => Exists (λ x, cast (dato x) = D this) suf.*2
    | _ => False
    end.
Proof.
  induction suf as [|[a x] suf IH]; intros fuel this w nt Ib pv Hd Hch Hra Hf.
  - simpl in Hd. subst Ib.
    assert (convert_loop cast fuel this None None w = Ret (this, w)) as -> by (by destruct fuel).
    exists nt. csimpl. rewrite N.sub_0_r, app_nil_r.
    do 7 (split; [done|]). split; [by left|]. split; [done|].
    split; [constructor|]. split; [lia|done].
  - simpl in Hd. destruct Hd as [-> (nx & Ha & Hr)].
    destruct fuel as [|fuel]; [simpl in Hf; lia|].
    csimpl in Hra. apply Forall_cons in Hra as [Hx Hra].
    simpl. unfold iter_deref, iter_incr. simpl. rewrite Ha. simpl.
    set (s := Store (dst w) (budget w)).
    change (chain (cells s) this nt) in Hch.
    destruct (decide (cast (dato x) = D this)) as [Heq|Hne].
    { rewrite (proj2 (add_abort_iff this (riga x) (colonna x) (cast (dato x)) s)) by auto.
      by left. }
    destruct (decide (budget w = 0%N)) as [Hz|Hnz].
    { rewrite add_throw; [|apply Hx|apply Hx|done|done].
      destruct (clear_spec this s nt Hch) as (s' & -> & Hav & Hcells). simpl.
      split; [done|]. split; [done|]. simpl in Hav. lia. }
    destruct (add_chain this s nt (riga x) (colonna x) (cast (dato x)) Hch)
      as (this1 & s1 & -> & Hch1 & Hav1 & Hr1 & Hc1 & HD1 & Hfr1 & Hsz1);
      [apply Hx|apply Hx|done|done|].
    simpl in Hav1, Hfr1, Hsz1.
    set (cur := fresh (dom (dst w))) in *.
    set (nt1 := insert_cell (riga x) (colonna x) (cast (dato x)) cur nt) in *.
    assert (cur ∉ dom (dst w)) as Hfresh by apply is_fresh.
    assert (nt1.*1 ≡ₚ (if hits (riga x) (colonna x) nt.*2 then nt.*1 else cur :: nt.*1)) as Hperm
      by apply insert_cell_fst.
    assert (∀ b, b ∈ nt1.*1 → b ∈ nt.*1 ∨ b = cur) as Hnt1.
    { intros b. rewrite Hperm. destruct (hits _ _ _); set_solver. }
    assert (∀ b, b ∈ nt.*1 → b ∈ nt1.*1) as Hmono1.
    { intros b. rewrite Hperm. destruct (hits _ _ _); set_solver. }
    assert (∀ b, b ∉ nt1.*1 → cells s1 !! b = dst w !! b) as Hfr1'.
    { intros b Hb. destruct (decide (b = cur)) as [->|Hbc]; [|apply Hfr1; auto].
      rewrite (not_elem_of_dom_1 (dst w) cur Hfresh).
      revert Hsz1 Hb. rewrite Hperm. destruct (hits _ _ _); [naive_solver|set_solver]. }
    set (w1 := World (src w) (cells s1) (avail s1) (derefs w ++ [Some a; Some a; Some a])).
    assert (Forall (in_range this1) (cast_cell cast <$> suf.*2)) as Hra'.
    { eapply Forall_impl; [exact Hra|]. unfold in_range. intros y. by rewrite Hr1, Hc1. }
    assert (length suf ≤ fuel)%nat as Hf' by (simpl in Hf; lia).
    specialize (IH fuel this1 w1 nt1 nx (Some a) Hr Hch1 Hra' Hf').
    destruct (convert_loop cast fuel this1 nx None w1) as [[this' w']|w'| | | |]; try done.
    + destruct IH as (nt' & Hch' & Hnt' & Hr'' & Hc' & HD' & Hsrc' & Hfr' & Hnew' & Hmono'
                      & Hall' & Hle' & Hav' & Hlog').
      simpl in Hfr', Hnew', Hle', Hav', Hlog'.
      exists nt'. split; [done|].
      split. { rewrite Hnt'. unfold nt1. by rewrite insert_cell_snd. }
      split; [congruence|]. split; [congruence|]. split; [congruence|]. split; [done|].
      split. { intros b Hb. rewrite Hfr' by done. apply Hfr1'. auto. }
      split.
      { intros b Hb. apply Hnew' in Hb as [[?| ->]%Hnt1|Hb]; auto.
        destruct (decide (b ∈ nt.*1)) as [|Hnin]; [by left|]. right. intros Hdom. apply Hb.
        apply elem_of_dom. rewrite Hfr1; [by apply elem_of_dom|done|by intros ->]. }
      split; [auto|].
      split. { csimpl. constructor; [done|]. eapply Forall_impl; [exact Hall'|].
               simpl. intros y. by rewrite HD1. }
      split; [simpl; lia|]. split; [simpl; lia|].
      rewrite Hlog'. csimpl. by rewrite <- app_assoc.
    + destruct IH as (Hsrc' & Hcells & Hlt). simpl in Hcells, Hlt.
      split; [done|]. split; [|simpl; lia].
      intros b. rewrite Hcells.
      destruct (decide (b ∈ nt.*1)) as [Hin|Hnin].
      { by rewrite decide_True by auto. }
      destruct (decide (b ∈ nt1.*1)) as [Hin1|Hnin1].
      { apply Hnt1 in Hin1 as [?| ->]; [done|]. symmetry. by apply not_elem_of_dom. }
      by apply Hfr1'.
    + csimpl. right. eapply Exists_impl; [exact IH|]. simpl. intros y. by rewrite HD1.
Qed.

Lemma leave_scope_spec tmp w nq :
  chain (src w) tmp nq →
  ∃ w', leave_scope tmp w = Ret w' ∧
        dst w' = dst w ∧ budget w' = budget w ∧ derefs w' = derefs w ∧
        ∀ a, src w' !! a = if decide (a ∈ nq.*1) then None else src w !! a.
Proof.
  intros Hch. unfold leave_scope, destroy.
  destruct (clear_spec tmp (Store (src w) (budget w)) nq Hch) as (s' & -> & Hav & Hcells).
  simpl. eexists. split; [done|]. by simpl.
Qed.

Lemma convert_spec other w no :
  chain (src w) other no →
  match convert cast other w with
  | Ret (m, w') =>
      ∃ nc, chain (dst w') m nc ∧ nc.*2 = cast_cell cast <$> no.*2 ∧
            righe m = righe other ∧ colonne m = colonne other ∧
            D m = cast (D other) ∧ size m = size other ∧
            src w' = src w ∧
            (∀ a, a ∉ nc.*1 → dst w' !! a = dst w !! a) ∧
            (∀ a, a ∈ nc.*1 → a ∉ dom (dst w)) ∧
            Forall (λ x, dato x ≠ D other) no.*2 ∧
            Forall (λ x, cast (dato x) ≠ cast (D other)) no.*2 ∧
            (N.of_nat (length no) + N.of_nat (length no) ≤ budget w)%N ∧
            (∃ log, derefs w' = derefs w ++ None :: log ∧
                    Forall is_Some log ∧ length log = (3 * length no)%nat) ∧
            budget w' = (budget w - N.of_nat (length no) - N.of_nat (length no))%N
  | Throw w' =>
      src w' = src w ∧ dst w' = dst w ∧
      (budget w < N.of_nat (length no) + N.of_nat (length no))%N
  | Abort =>
      Exists (λ x, dato x = D other) no.*2 ∨
      Exists (λ x, cast (dato x) = cast (D other)) no.*2
  | _ => False
  end.
Proof.
  intros Hch. unfold convert.
  pose proof (copy_construct_spec other (Store (src w) (budget w)) no Hch) as Hcopy.
  destruct (copy_construct other _) as [[tmp sq]|sq| | | |]; simpl; try done.
  - destruct Hcopy as (nq & Hq & Hnq & Hr & Hc & HD & _ & Hfr & Hfresh & Hall & Hle & Hav).
    simpl in Hfr, Hfresh, Hle, Hav.
    assert (length nq = length no) as Hlen.
    { by rewrite <- (length_fmap snd nq), Hnq, length_fmap. }
    set (this := Matrix None (get_righe other) (get_colonne other) 0 (cast (get_default other))).
    set (w1 := World (cells sq) (dst w) (avail sq) (derefs w ++ [None])).
    assert (chain (dst w1) this []) as Hthis.
    { apply chain_empty; apply (chain_dims _ _ _ Hch). }
    assert (Forall (in_range this) (cast_cell cast <$> nq.*2)) as Hra.
    { apply Forall_fmap. eapply Forall_impl; [apply (chain_range _ _ _ Hq)|].
      intros y. unfold in_range. simpl. unfold get_righe, get_colonne. by rewrite Hr, Hc. }
    pose proof (convert_loop_spec nq (map_size (cells sq)) this w1 [] (head tmp) None
                  (chain_dll _ _ _ Hq) Hthis Hra
                  (dll_length _ _ _ _ (chain_dll _ _ _ Hq) (chain_nodup _ _ _ Hq))) as Hloop.
    unfold begin, end_.
    assert (∀ w', src w' = cells sq →
            ∃ w'', leave_scope tmp w' = Ret w'' ∧ dst w'' = dst w' ∧
                   budget w'' = budget w' ∧ derefs w'' = derefs w' ∧ src w'' = src w) as Hleave.
    { intros w' Hsrc.
      destruct (leave_scope_spec tmp w' nq) as (w'' & Hrun & Hd & Hb & Hl & Hcells).
      { by rewrite Hsrc. }
      exists w''. do 4 (split; [done|]). apply map_eq. intros a. rewrite Hcells, Hsrc.
      destruct (decide (a ∈ nq.*1)) as [Hin|Hnin]; [|by apply Hfr].
      symmetry. by apply not_elem_of_dom, Hfresh. }
    destruct (convert_loop cast _ this (head tmp) None w1) as [[this' w']|w'| | | |]; try done.
    + destruct Hloop as (nc & Hc' & Hnc & Hr' & Hcc' & HD' & Hsrc & Hfr' & Hnew & _ & Hall'
                         & Hle' & Hav' & Hlog).
      destruct (Hleave w' Hsrc) as (w'' & -> & Hd'' & Hb'' & Hl'' & Hs''). simpl.
      assert (nc.*2 = cast_cell cast <$> no.*2) as Heq.
      { rewrite Hnc, Hnq. change ([].*2) with (@nil (element T)).
        rewrite reinsert_sorted; [done|]. simpl.
        apply ascending_iff. rewrite position_cast_cell. apply ascending_iff, Hch. }
      exists nc. rewrite Hd''. split; [done|]. split; [done|].
      split; [done|]. split; [done|]. split; [done|].
      split.
      { rewrite (chain_size _ _ _ Hc'), (chain_size _ _ _ Hch).
        by rewrite <- (length_fmap snd nc), Heq, !length_fmap. }
      split; [done|]. split; [done|].
      split; [intros a Ha; destruct (Hnew a Ha) as [Hin|]; [set_solver|done]|].
      split; [done|].
      split; [by rewrite <- Hnq|].
      split; [simpl in Hle'; lia|].
      split; [|simpl in Hav'; lia].
      exists (nq.*1 ≫= λ a, [Some a; Some a; Some a]).
      split; [rewrite Hl'', Hlog; simpl; by rewrite <- app_assoc|].
      rewrite <- Hlen. clear. split.
      * induction nq as [|[a x] nq IH]; csimpl; [constructor|]. by repeat constructor.
      * induction nq as [|[a x] nq IH]; csimpl; [done|]. rewrite IH. lia.
    + destruct Hloop as (Hsrc & Hcells & Hlt).
      destruct (Hleave w' Hsrc) as (w'' & -> & Hd'' & Hb'' & Hl'' & Hs''). simpl.
      split; [done|]. split.
      * rewrite Hd''. apply map_eq. intros a. rewrite Hcells.
        destruct (decide _) as [Hin|]; [|done]. set_solver.
      * simpl in Hlt. lia.
    + right. by rewrite <- Hnq.
  - destruct Hcopy as [Hcells Hlt]. simpl in *. split; [done|]. split; [done|]. lia.
  - by left.
Qed.

(** The loop and the destruction of [tmp] only append to the log of
    dereferenced iterators. *)
Lemma convert_loop_derefs : ∀ fuel this Ib Ie w,
  match convert_loop cast fuel this Ib Ie w with
  | Ret (_, w') | Throw w' => ∃ log, derefs w' = derefs w ++ log
  | _ => True
  end.
Proof.
  induction fuel as [|fuel IH]; intros this Ib Ie w; simpl.
  - destruct (iter_neq Ib Ie); [done|]. exists []. by rewrite app_nil_r.
  - destruct (iter_neq Ib Ie); [|exists []; by rewrite app_nil_r].
    destruct (iter_deref Ib (src w)) as [x|]; [|done].
    destruct (add this _ _ _ _) as [[this' st]|st| | | |]; try done.
    + destruct (iter_incr Ib (src w)) as [Ib'|]; [|done].
      specialize (IH this' Ib' Ie (World (src w) (cells st) (avail st)
                                     (derefs w ++ [Ib; Ib; Ib]))).
      destruct (convert_loop _ _ _ _ _ _) as [[? w']|w'| | | |]; try done.
      * destruct IH as [log ->]. simpl. eexists. by rewrite <- app_assoc.
      * destruct IH as [log ->]. simpl. eexists. by rewrite <- app_assoc.
    + destruct (clear this st) as [[? st']|st'| | | |]; simpl; try done; by eexists.
Qed.

Lemma leave_scope_derefs tmp w :
  match leave_scope tmp w with
  | Ret w' | Throw w' => derefs w' = derefs w
  | _ => True
  end.
Proof.
  unfold leave_scope, destroy, clear.
  by destruct (clear_helper _ _ _) as [h'|s'| | | |].
Qed.

(** C5.  Conversion of a valid source none of whose stored values
    converts to the converted default, with room for the nodes of the
    local copy and of the target: the target has the dimensions of the
    source and the converted default, and its cells are those of the
    source, in the same order, each with its value converted. *)
Theorem convert_preserves other w l :
  valid other (Store (src w) (budget w)) →
  traverse other (Store (src w) (budget w)) = Ret l →
  Forall (λ x, cast (dato x) ≠ cast (get_default other)) l →
  (N.of_nat (length l) + N.of_nat (length l) ≤ budget w)%N →
  ∃ m w',
    convert cast other w = Ret (m, w') ∧
    get_righe m = get_righe other ∧ get_colonne m = get_colonne other ∧
    get_default m = cast (get_default other) ∧
    get_size m = get_size other ∧
    traverse m (Store (dst w') (budget w')) = Ret (cast_cell cast <$> l).
Proof.
  intros [no Hch] Htr Hall Hav.
  rewrite (traverse_chain other _ no Hch) in Htr. injection Htr as <-.
  simpl in Hch. rewrite length_fmap in Hav.
  pose proof (convert_spec other w no Hch) as Hspec.
  destruct (convert cast other w) as [[m w']|w'| | | |]; try done.
  - destruct Hspec as (nc & Hc & Hnc & Hr & Hcc & HD & Hsz & _).
    exists m, w'. do 5 (split; [done|]).
    by rewrite (traverse_chain m (Store (dst w') (budget w')) nc Hc), Hnc.
  - destruct Hspec as (_ & _ & Hlt). lia.
  - exfalso. rewrite Forall_forall in Hall.
    destruct Hspec as [Hex|Hex]; apply Exists_exists in Hex as (x & Hx & Heq).
    + apply (Hall x Hx). unfold get_default. by rewrite Heq.
    + by apply (Hall x Hx).
Qed.

(** C6.  Whenever the conversion constructor returns, the first
    [operator*] it evaluated was applied to an iterator whose pointer is
    null: the default-constructed [Ib] of line 218. *)
Theorem convert_dereferences_null other w m w' :
  convert cast other w = Ret (m, w') →
  ∃ log, derefs w' = derefs w ++ None :: log.
Proof.
  unfold convert.
  destruct (copy_construct other _) as [[tmp sq]|sq| | | |]; simpl; try done.
  pose proof (convert_loop_derefs (map_size (cells sq))
    (Matrix None (get_righe other) (get_colonne other) 0 (cast (get_default other)))
    (begin tmp) (end_ tmp) (World (cells sq) (dst w) (avail sq) (derefs w ++ [None]))) as Hlog.
  destruct (convert_loop _ _ _ _ _ _) as [[this' w1]|w1| | | |]; simpl; try done.
  - pose proof (leave_scope_derefs tmp w1) as Hl.
    destruct (leave_scope tmp w1) as [w2|w2| | | |]; simpl; try done.
    intros [= <- <-]. destruct Hlog as [log Hlog]. simpl in Hlog.
    exists log. rewrite Hl, Hlog. by rewrite <- app_assoc.
  - by destruct (leave_scope tmp w1).
Qed.

(** C9.  A [std::bad_alloc] leaves [add] with the store as it was; it
    leaves the copy constructor and the conversion constructor with every
    node they had created released, the stores being what they were
    before the call; and each of them does throw when the budget runs
    out before its last allocation. *)
Theorem allocation_failure_rolls_back :
  (∀ (m : SparseMatrix T) r c v s s', add m r c v s = Throw s' → s' = s) ∧
  (∀ (m : SparseMatrix T) r c v s,
     0 < r ≤ righe m → 0 < c ≤ colonne m → v ≠ D m → avail s = 0%N →
     add m r c v s = Throw s) ∧
  (∀ (other : SparseMatrix T) s s',
     valid other s → copy_construct other s = Throw s' → cells s' = cells s) ∧
  (∀ (other : SparseMatrix T) s l,
     valid other s → traverse other s = Ret l →
     Forall (λ x, dato x ≠ D other) l → (avail s < N.of_nat (length l))%N →
     ∃ s', copy_construct other s = Throw s') ∧
  (∀ (other : SparseMatrix Q) w w',
     valid other (Store (src w) (budget w)) →
     convert cast other w = Throw w' → src w' = src w ∧ dst w' = dst w) ∧
  (∀ (other : SparseMatrix Q) w l,
     valid other (Store (src w) (budget w)) →
     traverse other (Store (src w) (budget w)) = Ret l →
     Forall (λ x, cast (dato x) ≠ cast (D other)) l →
     (budget w < N.of_nat (length l) + N.of_nat (length l))%N →
     ∃ w', convert cast other w = Throw w').
Proof.
  split; [intros m r c v s s' H; by apply add_throw_inv in H as [-> _]|].
  split; [intros; by apply add_throw|].
  split.
  { intros other s s' [no Hch] Hrun.
    pose proof (copy_construct_spec other s no Hch) as Hspec.
    rewrite Hrun in Hspec. apply Hspec. }
  split.
  { intros other s l [no Hch] Htr Hall Hlt.
    rewrite (traverse_chain other s no Hch) in Htr. injection Htr as <-.
    rewrite length_fmap in Hlt.
    pose proof (copy_construct_spec other s no Hch) as Hspec.
    destruct (copy_construct other s) as [[cp s1]|s1| | | |]; try done.
    - destruct Hspec as (nc & _ & _ & _ & _ & _ & _ & _ & _ & _ & Hle & _). lia.
    - by eexists.
    - exfalso. apply Exists_exists in Hspec as (x & Hx & Heq).
      rewrite Forall_forall in Hall. by apply (Hall x Hx). }
  split.
  { intros other w w' [no Hch] Hrun. simpl in Hch.
    pose proof (convert_spec other w no Hch) as Hspec.
    rewrite Hrun in Hspec. split; apply Hspec. }
  intros other w l [no Hch] Htr Hall Hlt.
  rewrite (traverse_chain other _ no Hch) in Htr. injection Htr as <-.
  simpl in Hch. rewrite length_fmap in Hlt.
  pose proof (convert_spec other w no Hch) as Hspec.
  destruct (convert cast other w) as [[m w1]|w1| | | |]; try done.
  - destruct Hspec as (nc & _ & _ & _ & _ & _ & _ & _ & _ & _ & _ & _ & Hle & _). lia.
  - by eexists.
  - exfalso. rewrite Forall_forall in Hall.
    destruct Hspec as [Hex|Hex]; apply Exists_exists in Hex as (x & Hx & Heq).
    + apply (Hall x Hx). by rewrite Heq.
    + by apply (Hall x Hx).
Qed.

(** C8.  Where the assertions are and when they fail.  The
    constructor aborts exactly on a non-positive dimension, [add] exactly
    on an out-of-range position or a value equal to the default, [lookup]
    exactly on an out-of-range position; [lookup] of an in-bounds cell
    that is not stored returns the default.  The copy constructor and the
    conversion constructor abort, through the [add] they call, only if a
    stored value of the source equals its default, respectively converts
    to what its default converts to; and they do abort then, whenever the
    allocations suffice. *)
Theorem abort_iff_precondition :
  (∀ r c (d : T), construct r c d = Abort (S:=store T) ↔ r ≤ 0 ∨ c ≤ 0) ∧
  (∀ (m : SparseMatrix T) r c v s,
     add m r c v s = Abort ↔
     ¬ (0 < r ≤ righe m) ∨ ¬ (0 < c ≤ colonne m) ∨ v = D m) ∧
  (∀ (m : SparseMatrix T) r c s,
     lookup m r c s = Abort ↔ ¬ (0 < r ≤ righe m) ∨ ¬ (0 < c ≤ colonne m)) ∧
  (∀ (m : SparseMatrix T) s r c,
     valid m s → 0 < r ≤ righe m → 0 < c ≤ colonne m →
     ∃ l, traverse m s = Ret l ∧
          ((r, c) ∉ position <$> l → lookup m r c s = Ret (get_default m))) ∧
  (∀ (other : SparseMatrix T) s l,
     valid other s → traverse other s = Ret l →
     (copy_construct other s = Abort → Exists (λ x, dato x = get_default other) l) ∧
     ((N.of_nat (length l) ≤ avail s)%N → Exists (λ x, dato x = get_default other) l →
      copy_construct other s = Abort)) ∧
  (∀ (other : SparseMatrix Q) w l,
     valid other (Store (src w) (budget w)) →
     traverse other (Store (src w) (budget w)) = Ret l →
     (convert cast other w = Abort →
      Exists (λ x, cast (dato x) = cast (get_default other)) l) ∧
     ((N.of_nat (length l) + N.of_nat (length l) ≤ budget w)%N →
      Exists (λ x, cast (dato x) = cast (get_default other)) l →
      convert cast other w = Abort)).
Proof.
  split; [apply construct_abort_iff|]. split; [apply add_abort_iff|].
  split; [apply lookup_abort_iff|]. split; [|split].
  - intros m s r c [ns Hch] Hr Hc. exists ns.*2. split; [by apply traverse_chain|].
    intros Hn. rewrite (lookup_chain m s ns r c Hch Hr Hc).
    by rewrite (proj2 (find_cell_None r c ns.*2) Hn).
  - intros other s l [no Hch] Htr.
    rewrite (traverse_chain other s no Hch) in Htr. injection Htr as <-.
    rewrite length_fmap. pose proof (copy_construct_spec other s no Hch) as Hspec.
    destruct (copy_construct other s) as [[cp s']|s'| | | |]; try done.
    + destruct Hspec as (nc & _ & _ & _ & _ & _ & _ & _ & _ & Hall & _).
      split; [done|]. intros _ Hex. exfalso.
      apply Exists_exists in Hex as (x & Hx & Heq). rewrite Forall_forall in Hall.
      by apply (Hall x Hx).
    + destruct Hspec as [_ Hlt]. split; [done|]. intros Hle _. lia.
  - intros other w l [no Hch] Htr.
    rewrite (traverse_chain other _ no Hch) in Htr. injection Htr as <-.
    simpl in Hch. rewrite length_fmap.
    pose proof (convert_spec other w no Hch) as Hspec.
    destruct (convert cast other w) as [[m w']|w'| | | |]; try done.
    + destruct Hspec as (nc & _ & _ & _ & _ & _ & _ & _ & _ & _ & _ & Hall & _).
      split; [done|]. intros _ Hex. exfalso.
      apply Exists_exists in Hex as (x & Hx & Heq). rewrite Forall_forall in Hall.
      by apply (Hall x Hx).
    + destruct Hspec as (_ & _ & Hlt). split; [done|]. intros Hle _. lia.
    + split; [|done]. intros _. destruct Hspec as [Hex|Hex]; [|done].
      eapply Exists_impl; [exact Hex|]. simpl. by intros x ->.
Qed.

End ConversionProofs.

(** ** The examples *)

Lemma scenario_I_run : run scenario_calls empty_I (Store ∅ 32) = Ret scenario_I.
Proof. by vm_compute. Qed.

Lemma main_I_run : run main_calls empty_I (Store ∅ 32) = Ret main_I.
Proof. by vm_compute. Qed.

Lemma stale_I_run : run stale_calls empty_I (Store ∅ 32) = Ret stale_I.
Proof. by vm_compute. Qed.

Lemma scenario_I_valid : valid scenario_I.1 scenario_I.2.
Proof.
  apply (valid_history 3 2 999 scenario_calls (Store ∅ 32)); by vm_compute.
Qed.

Lemma main_I_valid : valid main_I.1 main_I.2.
Proof.
  apply (valid_history 3 2 999 main_calls (Store ∅ 32)); by vm_compute.
Qed.

Lemma stale_I_valid : valid stale_I.1 stale_I.2.
Proof.
  apply (valid_history 3 2 999 stale_calls (Store ∅ 32)); by vm_compute.
Qed.

(** C2.  After any admissible sequence of calls on a freshly constructed
    matrix, the traversal from [begin()] to [end()] yields the stored
    cells in strictly ascending (row, column) order, without a repeated
    position; [size()] is their number as an [unsigned int], and is that
    number itself when fewer than 2^32 [add]s were made.  On the 3x2
    matrix of main.cpp the order is (1,1), (1,2), (2,1), (2,2), (3,1),
    (3,2). *)
Theorem traversal_ascending :
  (∀ (T : Type) (EqT : EqDecision T) rows cols (d : T) calls s0,
     0 < rows ≤ INT_MAX → 0 < cols ≤ INT_MAX →
     admissible rows cols d calls →
     (N.of_nat (allocations calls) ≤ avail s0)%N →
     ∃ m0 m s l,
       construct rows cols d = Ret m0 ∧
       run calls m0 s0 = Ret (m, s) ∧
       traverse m s = Ret l ∧
       StronglySorted pos_lt (position <$> l) ∧ NoDup (position <$> l) ∧
       get_size m = Z.of_nat (length l) mod UINT_MOD ∧
       (Z.of_nat (allocations calls) < UINT_MOD → Z.of_nat (length l) = get_size m)) ∧
  (∃ m s l,
     run main_calls empty_I (Store ∅ 32) = Ret (m, s) ∧
     traverse m s = Ret l ∧
     position <$> l = [(1, 1); (1, 2); (2, 1); (2, 2); (3, 1); (3, 2)]).
Proof.
  split.
  - intros T EqT rows cols d calls s0 Hrows Hcols Hadm Hav.
    destruct (history_traverse rows cols d calls s0 Hrows Hcols Hadm Hav)
      as (m0 & m & s & l & Hc & Hrun & Htr & Hl & Hso & Hnd & Hsz).
    exists m0, m, s, l. do 5 (split; [done|]). split; [done|].
    intros Hwrap. rewrite Hsz. symmetry. apply Z.mod_small.
    pose proof (replay_length calls []) as Hlen. rewrite <- Hl in Hlen. simpl in Hlen. lia.
  - eexists _, _, _. split; [apply main_I_run|]. split; by vm_compute.
Qed.

(** C7.  The body of [operator=] swaps the [const] members [righe] and
    [colonne]: it is ill-formed, and no program that assigns one matrix to
    another is built, whatever the operands. *)
Theorem operator_assign_ill_formed (T : Type) (EqT : EqDecision T)
    (this other : SparseMatrix T) (aliased : bool) (s : store T) :
  well_formed assign_swaps = false ∧ operator_assign this other aliased s = None.
Proof. split; reflexivity. Qed.

(** *** Instances of the theorems *)

Lemma add_lookup_size_witness :
  ((0 < 3 ≤ INT_MAX ∧ 0 < 2 ≤ INT_MAX ∧
    admissible 3 2 999 (scenario_prefix ++ [Add 2 2 5]) ∧
    admissible 3 2 999 (scenario_calls ++ [Add 1 1 3]) ∧
    (N.of_nat (allocations scenario_prefix) < avail (Store (T:=Z) ∅ 32))%N ∧
    (N.of_nat (allocations scenario_calls) < avail (Store (T:=Z) ∅ 32))%N)) ∧
  (∃ m0 m s m' s',
    construct 3 2 999 = Ret m0 ∧
    run scenario_prefix m0 (Store ∅ 32) = Ret (m, s) ∧
    add m 2 2 5 s = Ret (m', s') ∧
    (∀ i j, 0 < i ≤ 3 → 0 < j ≤ 2 →
       lookup m i j s = Ret (default (get_default m) (last_add i j scenario_prefix))) ∧
    lookup m' 2 2 s' = Ret 5 ∧
    get_size m' = (if last_add 2 2 scenario_prefix then get_size m else uincr (get_size m)) ∧
    (Z.of_nat (allocations scenario_prefix) < UINT_MOD - 1 →
     get_size m' = (if last_add 2 2 scenario_prefix then get_size m else get_size m + 1))) ∧
  (∃ m0 m s m' s',
    construct 3 2 999 = Ret m0 ∧
    run scenario_calls m0 (Store ∅ 32) = Ret (m, s) ∧
    add m 1 1 3 s = Ret (m', s') ∧
    (∀ i j, 0 < i ≤ 3 → 0 < j ≤ 2 →
       lookup m i j s = Ret (default (get_default m) (last_add i j scenario_calls))) ∧
    lookup m' 1 1 s' = Ret 3 ∧
    get_size m' = (if last_add 1 1 scenario_calls then get_size m else uincr (get_size m)) ∧
    (Z.of_nat (allocations scenario_calls) < UINT_MOD - 1 →
     get_size m' = (if last_add 1 1 scenario_calls then get_size m else get_size m + 1))).
Proof.
  split; [by vm_compute|]. split.
  - apply (add_lookup_size 3 2 999 scenario_prefix 2 2 5 (Store ∅ 32)); by vm_compute.
  - apply (add_lookup_size 3 2 999 scenario_calls 1 1 3 (Store ∅ 32)); by vm_compute.
Defined.

Lemma traversal_ascending_witness :
  (0 < 3 ≤ INT_MAX ∧ 0 < 2 ≤ INT_MAX ∧ admissible 3 2 999 main_calls ∧
   (N.of_nat (allocations main_calls) ≤ avail (Store (T:=Z) ∅ 32))%N) ∧
  ∃ m0 m s l,
    construct 3 2 999 = Ret m0 ∧
    run main_calls m0 (Store ∅ 32) = Ret (m, s) ∧
    traverse m s = Ret l ∧
    StronglySorted pos_lt (position <$> l) ∧ NoDup (position <$> l) ∧
    get_size m = Z.of_nat (length l) mod UINT_MOD ∧
    (Z.of_nat (allocations main_calls) < UINT_MOD → Z.of_nat (length l) = get_size m).
Proof.
  split; [by vm_compute|].
  apply (proj1 traversal_ascending Z _ 3 2 999 main_calls (Store ∅ 32)); by vm_compute.
Defined.

Lemma copy_independent_witness :
  (valid main_I.1 main_I.2 ∧ traverse main_I.1 main_I.2 = Ret main_cells ∧
   Forall (λ x, dato x ≠ get_default main_I.1) main_cells ∧
   (N.of_nat (length main_cells) ≤ avail main_I.2)%N) ∧
  ∃ cp s1,
    copy_construct main_I.1 main_I.2 = Ret (cp, s1) ∧
    get_size cp = get_size main_I.1 ∧ get_default cp = get_default main_I.1 ∧
    get_righe cp = get_righe main_I.1 ∧ get_colonne cp = get_colonne main_I.1 ∧
    (∀ r c, lookup cp r c s1 = lookup main_I.1 r c main_I.2) ∧
    traverse cp s1 = Ret main_cells ∧
    ∀ calls,
      match run calls cp s1 with
      | Ret (_, s2) | Throw s2 =>
          (∀ r c, lookup main_I.1 r c s2 = lookup main_I.1 r c main_I.2) ∧
          traverse main_I.1 s2 = Ret main_cells
      | _ => True
      end.
Proof.
  assert (Forall (λ x, dato x ≠ get_default main_I.1) main_cells) as Hall.
  { repeat constructor; by vm_compute. }
  split; [split; [apply main_I_valid|]; split; [by vm_compute|]; split; [exact Hall|by vm_compute]|].
  apply (copy_independent main_I.1 main_I.2 main_cells);
    [apply main_I_valid|by vm_compute|exact Hall|by vm_compute].
Defined.

Lemma evaluate_counts_witness :
  (valid main_I.1 main_I.2 ∧ righe main_I.1 < INT_MAX ∧ colonne main_I.1 < INT_MAX ∧
   matches divis_per_3 main_I.1 main_I.2 ≤ INT_MAX) ∧
  evaluate main_I.1 divis_per_3 main_I.2 = Ret (matches divis_per_3 main_I.1 main_I.2) ∧
  ((∀ v, divis_per_3 v = true) →
   evaluate main_I.1 divis_per_3 main_I.2 = Ret (get_righe main_I.1 * get_colonne main_I.1)).
Proof.
  split; [split; [apply main_I_valid|]; by vm_compute|].
  apply (evaluate_counts divis_per_3 main_I.1 main_I.2); [apply main_I_valid|by vm_compute..].
Defined.

Lemma convert_preserves_witness :
  (valid main_I.1 (Store (cells main_I.2) 32) ∧
   traverse main_I.1 (Store (cells main_I.2) 32) = Ret main_cells ∧
   Forall (λ x, to_long (dato x) ≠ to_long (get_default main_I.1)) main_cells ∧
   (N.of_nat (length main_cells) + N.of_nat (length main_cells) ≤ 32)%N) ∧
  ∃ (m : SparseMatrix Z) (w' : world Z Z),
    convert to_long main_I.1 (World (cells main_I.2) ∅ 32 []) = Ret (m, w') ∧
    get_righe m = get_righe main_I.1 ∧ get_colonne m = get_colonne main_I.1 ∧
    get_default m = to_long (get_default main_I.1) ∧
    get_size m = get_size main_I.1 ∧
    traverse m (Store (dst w') (budget w')) = Ret (cast_cell to_long <$> main_cells).
Proof.
  assert (valid main_I.1 (Store (cells main_I.2) 32)) as Hv.
  { destruct main_I_valid as [ns Hns]. by exists ns. }
  assert (Forall (λ x, to_long (dato x) ≠ to_long (get_default main_I.1)) main_cells) as Hall.
  { repeat constructor; by vm_compute. }
  split; [split; [exact Hv|]; split; [by vm_compute|]; split; [exact Hall|by vm_compute]|].
  apply (convert_preserves to_long main_I.1 (World (cells main_I.2) ∅ 32 []) main_cells);
    [exact Hv|by vm_compute|exact Hall|by vm_compute].
Defined.

Lemma convert_dereferences_null_witness :
  convert to_long empty_l (World ∅ ∅ 0 []) = Ret (empty_l, World ∅ ∅ 0 [None]) ∧
  ∃ log, derefs (World (Q:=Z) (T:=Z) ∅ ∅ 0 [None]) = [] ++ None :: log.
Proof.
  assert (convert to_long empty_l (World ∅ ∅ 0 []) = Ret (empty_l, World ∅ ∅ 0 [None])) as Hrun
    by (by vm_compute).
  split; [exact Hrun|].
  exact (convert_dereferences_null to_long empty_l (World ∅ ∅ 0 []) _ _ Hrun).
Defined.

Lemma abort_iff_precondition_witness :
  construct 0 2 999 = Abort (S:=store Z) ∧
  add empty_I 1 1 999 (Store ∅ 32) = Abort ∧
  lookup empty_I 4 1 (Store ∅ 32) = Abort ∧
  (∃ l, traverse scenario_I.1 scenario_I.2 = Ret l ∧
        ((1, 1) ∉ position <$> l →
         lookup scenario_I.1 1 1 scenario_I.2 = Ret (get_default scenario_I.1))) ∧
  copy_construct stale_I.1 stale_I.2 = Abort ∧
  convert to_bool main_I.1 (World (cells main_I.2) ∅ 12 []) = Abort.
Proof.
  destruct (abort_iff_precondition (Q:=Z) (T:=Z) to_long)
    as (Hctor & Hadd & Hlookup & Hmiss & Hcopy & _).
  destruct (abort_iff_precondition (Q:=Z) (T:=bool) to_bool) as (_ & _ & _ & _ & _ & Hconv).
  split; [apply (proj2 (Hctor 0 2 999)); left; lia|].
  split; [apply (proj2 (Hadd empty_I 1 1 999 (Store ∅ 32))); right; right; reflexivity|].
  split; [apply (proj2 (Hlookup empty_I 4 1 (Store ∅ 32))); left; simpl; lia|].
  split; [apply (Hmiss scenario_I.1 scenario_I.2 1 1);
          [apply scenario_I_valid|by vm_compute..]|].
  split.
  - apply (proj2 (Hcopy stale_I.1 stale_I.2 [Element 1 1 5] stale_I_valid
                    ltac:(by vm_compute))); [by vm_compute|]. left. reflexivity.
  - assert (valid main_I.1 (Store (cells main_I.2) 12)) as Hv.
    { destruct main_I_valid as [ns Hns]. by exists ns. }
    apply (proj2 (Hconv main_I.1 (World (cells main_I.2) ∅ 12 []) main_cells Hv
                    ltac:(by vm_compute))); [by vm_compute|]. left. reflexivity.
Defined.

Lemma add_frame_witness :
  (valid main_I.1 main_I.2 ∧ 0 < 3 ≤ righe main_I.1 ∧ 0 < 2 ≤ colonne main_I.1 ∧
   7 ≠ D main_I.1) ∧
  match add main_I.1 3 2 7 main_I.2 with
  | Ret (m', s') =>
      get_righe m' = get_righe main_I.1 ∧ get_colonne m' = get_colonne main_I.1 ∧
      get_default m' = get_default main_I.1 ∧
      ∀ i j, 0 < i ≤ righe main_I.1 → 0 < j ≤ colonne main_I.1 → (i, j) ≠ (3, 2) →
             lookup m' i j s' = lookup main_I.1 i j main_I.2
  | Throw s' => s' = main_I.2
  | _ => False
  end.
Proof.
  split; [split; [apply main_I_valid|by vm_compute]|].
  apply (add_frame main_I.1 main_I.2 3 2 7); [apply main_I_valid|by vm_compute..].
Defined.

Lemma allocation_failure_rolls_back_witness :
  (valid main_I.1 (Store (cells main_I.2) 3) ∧
   traverse main_I.1 (Store (cells main_I.2) 3) = Ret main_cells ∧
   Forall (λ x, dato x ≠ D main_I.1) main_cells ∧
   (avail (Store (cells main_I.2) 3) < N.of_nat (length main_cells))%N) ∧
  ∃ s', copy_construct main_I.1 (Store (cells main_I.2) 3) = Throw s' ∧
        cells s' = cells main_I.2.
Proof.
  assert (valid main_I.1 (Store (cells main_I.2) 3)) as Hv.
  { destruct main_I_valid as [ns Hns]. by exists ns. }
  assert (Forall (λ x, dato x ≠ D main_I.1) main_cells) as Hall.
  { repeat constructor; by vm_compute. }
  split; [split; [exact Hv|]; split; [by vm_compute|]; split; [exact Hall|by vm_compute]|].
  destruct (allocation_failure_rolls_back (Q:=Z) (T:=Z) to_long)
    as (_ & _ & Hback & Hthrow & _).
  destruct (Hthrow main_I.1 (Store (cells main_I.2) 3) main_cells Hv) as [s' Hs'];
    [by vm_compute|exact Hall|by vm_compute|].
  exists s'. split; [exact Hs'|]. exact (Hback _ _ _ Hv Hs').
Defined.

(** *** Where the claims as stated fail *)

(** A copy of a matrix holding a value that has become the default
    aborts on the assertion of [add]. *)
Lemma copy_of_stale_aborts :
  run stale_calls empty_I (Store ∅ 32) = Ret stale_I ∧
  valid stale_I.1 stale_I.2 ∧
  copy_construct stale_I.1 stale_I.2 = Abort ∧
  ¬ ∃ cp s1, copy_construct stale_I.1 stale_I.2 = Ret (cp, s1).
Proof.
  assert (copy_construct stale_I.1 stale_I.2 = Abort) as Hrun by (by vm_compute).
  split; [apply stale_I_run|]. split; [apply stale_I_valid|]. split; [exact Hrun|].
  intros (cp & s1 & Hret). rewrite Hrun in Hret. discriminate.
Qed.

(** The conversion to [bool] of the matrix [I] of main.cpp, whose
    default 999 and stored values all convert to [true], aborts. *)
Lemma convert_to_bool_aborts :
  valid main_I.1 main_I.2 ∧
  convert to_bool main_I.1 (World (cells main_I.2) ∅ 32 []) = Abort ∧
  ¬ ∃ m w', convert to_bool main_I.1 (World (cells main_I.2) ∅ 32 []) = Ret (m, w').
Proof.
  assert (convert to_bool main_I.1 (World (cells main_I.2) ∅ 32 []) = Abort) as Hrun
    by (by vm_compute).
  split; [apply main_I_valid|]. split; [exact Hrun|].
  intros (m & w' & Hret). rewrite Hrun in Hret. discriminate.
Qed.

(** On the empty 65536 x 65536 matrix a predicate that always holds is
    satisfied at 2^32 positions, which [evaluate] cannot count in an
    [int]. *)
Lemma evaluate_overflows :
  valid wide (Store ∅ 0) ∧
  evaluate wide (λ _, true) (Store ∅ 0) = Overflow ∧
  evaluate wide (λ _, true) (Store ∅ 0) ≠ Ret (get_righe wide * get_colonne wide).
Proof.
  assert (valid wide (Store ∅ 0)) as Hv.
  { exists []. apply chain_empty; unfold INT_MAX; lia. }
  pose proof (evaluate_spec (λ _ : Z, true) wide (Store ∅ 0) Hv) as H.
  pose proof (matches_always (λ _ : Z, true) wide (Store ∅ 0) Hv (λ _, eq_refl)) as H'.
  rewrite H' in H. rewrite decide_False in H.
  - split; [exact Hv|]. split; [exact H|]. rewrite H. discriminate.
  - clear H H'. intros (_ & _ & Hle). vm_compute in Hle. exact (Hle eq_refl).
Qed.

(** The positions of the 65536 x 65536 matrix other than (1, 1) are
    2^32 - 1, in ascending order. *)
Lemma all_but_first_sorted : StronglySorted pos_lt all_but_first.
Proof.
  unfold all_but_first. apply StronglySorted_app_2.
  - intros p q (j & -> & _)%list_elem_of_fmap Hq. destruct q as [i' j'].
    apply elem_of_grid in Hq as [Hi' _]. apply elem_of_seqZ in Hi'.
    left. simpl. lia.
  - eapply StronglySorted_fmap; [|apply seqZ_sorted]. intros j j' Hlt. right. by simpl.
  - apply grid_sorted; apply seqZ_sorted.
Qed.

Lemma all_but_first_range :
  Forall (λ p, 0 < p.1 ≤ 65536 ∧ 0 < p.2 ≤ 65536) all_but_first.
Proof.
  unfold all_but_first. apply Forall_app. split.
  - apply Forall_fmap, Forall_forall. intros j Hj%elem_of_seqZ. simpl. lia.
  - apply Forall_forall. intros [i j] [Hi Hj]%elem_of_grid.
    apply elem_of_seqZ in Hi, Hj. simpl. lia.
Qed.

Lemma all_but_first_length : Z.of_nat (length all_but_first) = 4294967295.
Proof.
  unfold all_but_first.
  rewrite length_app, length_fmap, grid_length, !length_seqZ. lia.
Qed.

Lemma first_not_in_all_but_first : (1, 1) ∉ all_but_first.
Proof.
  unfold all_but_first. intros [Hin|Hin]%elem_of_app.
  - apply list_elem_of_fmap in Hin as (j & Heq & Hj%elem_of_seqZ). injection Heq as Heq. lia.
  - apply elem_of_grid in Hin as [Hi%elem_of_seqZ _]. lia.
Qed.

(** With every position but (1, 1) of the 65536 x 65536 matrix stored,
    the first [add] at (1, 1) takes [size()] from 2^32 - 1 to 0. *)
Lemma size_wraps_at_uint_max :
  ∃ m s m' s',
    run (fill 1 all_but_first) wide (Store ∅ 4294967296) = Ret (m, s) ∧
    last_add 1 1 (fill 1 all_but_first) = None ∧
    add m 1 1 1 s = Ret (m', s') ∧
    get_size m = 4294967295 ∧ get_size m' = 0 ∧
    get_size m' ≠ get_size m + 1.
Proof.
  pose proof all_but_first_length as Hlen.
  destruct (history_add 65536 65536 0 (fill 1 all_but_first) 1 1 1 (Store ∅ 4294967296))
    as (m0 & m & s & m' & s' & Hc & Hrun & Hadd & _ & _ & Hsz & Hsz').
  - unfold INT_MAX. lia.
  - unfold INT_MAX. lia.
  - apply admissible_app. split.
    + apply admissible_fill; [lia|apply all_but_first_range].
    + rewrite final_default_fill. simpl. lia.
  - rewrite allocations_fill. simpl avail. lia.
  - rewrite construct_ok in Hc by lia. injection Hc as <-.
    rewrite (last_add_fill 1 1 1 all_but_first first_not_in_all_but_first) in Hsz'.
    rewrite (fill_length 1 all_but_first all_but_first_sorted), Hlen in Hsz.
    exists m, s, m', s'. split; [exact Hrun|].
    split; [exact (last_add_fill 1 1 1 all_but_first first_not_in_all_but_first)|].
    split; [exact Hadd|]. split; [exact Hsz|].
    assert (get_size m' = 0) as Hz by (rewrite Hsz', Hsz; reflexivity).
    split; [exact Hz|]. rewrite Hz, Hsz. discriminate.
Qed.

(** After the calls of main.cpp on [I], the assignment through the
    iterator included, [lookup(1, 1)] is the value assigned and not that
    of the most recent [add(1, 1, _)]. *)
Lemma write_overrides_last_add :
  run written_calls empty_I (Store ∅ 32) = Ret written_I ∧
  last_add 1 1 written_calls = Some 3 ∧
  lookup written_I.1 1 1 written_I.2 = Ret 2000 ∧
  lookup written_I.1 1 1 written_I.2 ≠ Ret 3.
Proof. by vm_compute. Qed.

(** The two ways in which [lookup] and [size()] part from the [add]s
    that were made: a value assigned through a mutable iterator, and
    the wrap-around of [size]. *)
Lemma add_lookup_size_fails :
  (run written_calls empty_I (Store ∅ 32) = Ret written_I ∧
   last_add 1 1 written_calls = Some 3 ∧
   lookup written_I.1 1 1 written_I.2 = Ret 2000 ∧
   lookup written_I.1 1 1 written_I.2 ≠ Ret 3) ∧
  (∃ m s m' s',
     run (fill 1 all_but_first) wide (Store ∅ 4294967296) = Ret (m, s) ∧
     last_add 1 1 (fill 1 all_but_first) = None ∧
     add m 1 1 1 s = Ret (m', s') ∧
     get_size m = 4294967295 ∧ get_size m' = 0 ∧
     get_size m' ≠ get_size m + 1).
Proof. split; [exact write_overrides_last_add|exact size_wraps_at_uint_max]. Qed.

(** Calls that each meet their precondition lead to a matrix whose
    copy aborts, and to one whose conversion to [bool] aborts. *)
Lemma abort_within_preconditions :
  construct 3 2 999 = Ret (S:=store Z) empty_I ∧
  admissible 3 2 999 stale_calls ∧
  run stale_calls empty_I (Store ∅ 32) = Ret stale_I ∧
  copy_construct stale_I.1 stale_I.2 = Abort ∧
  admissible 3 2 999 main_calls ∧
  run main_calls empty_I (Store ∅ 32) = Ret main_I ∧
  convert to_bool main_I.1 (World (cells main_I.2) ∅ 12 []) = Abort.
Proof. by vm_compute. Qed.

(** With every position of the 65536 x 65536 matrix stored, the
    traversal yields 2^32 cells and [size()] is 0. *)
Lemma size_differs_from_count :
  ∃ m s l,
    run (fill 1 (grid (seqZ 1 65536) (seqZ 1 65536))) wide (Store ∅ 4294967296) = Ret (m, s) ∧
    traverse m s = Ret l ∧
    Z.of_nat (length l) = 4294967296 ∧ get_size m = 0 ∧
    Z.of_nat (length l) ≠ get_size m.
Proof.
  set (ps := grid (seqZ 1 65536) (seqZ 1 65536)).
  assert (StronglySorted pos_lt ps) as Hsorted by (apply grid_sorted; apply seqZ_sorted).
  assert (Z.of_nat (length ps) = 4294967296) as Hlen.
  { unfold ps. rewrite grid_length, !length_seqZ. lia. }
  destruct (history_traverse 65536 65536 0 (fill 1 ps) (Store ∅ 4294967296))
    as (m0 & m & s & l & Hc & Hrun & Htr & Hl & _ & _ & Hsz).
  - unfold INT_MAX. lia.
  - unfold INT_MAX. lia.
  - apply admissible_fill; [lia|]. apply Forall_forall. intros [i j] [Hi Hj]%elem_of_grid.
    apply elem_of_seqZ in Hi, Hj. simpl. lia.
  - rewrite allocations_fill. simpl avail. lia.
  - rewrite construct_ok in Hc by lia. injection Hc as <-.
    assert (Z.of_nat (length l) = 4294967296) as Hl'.
    { rewrite Hl, (fill_length 1 ps Hsorted). exact Hlen. }
    assert (get_size m = 0) as Hz by (rewrite Hsz, Hl'; reflexivity).
    exists m, s, l. split; [exact Hrun|]. split; [exact Htr|]. split; [exact Hl'|].
    split; [exact Hz|]. rewrite Hz, Hl'. discriminate.
Qed.

(** * Further properties of the container *)

Section Properties.
Context {T : Type} `{!EqDecision T}.
Implicit Types (h : gmap addr (node T)) (ns : list (addr * element T)) (x y : element T).
Implicit Types (l : list (element T)) (m this : SparseMatrix T) (s : store T) (v d : T).

(** *** What clear and the destructor release *)

(** The nodes of a valid matrix are those of its chain. *)
Lemma owns_chain m s ns a : chain (cells s) m ns → owns m s a ↔ a ∈ ns.*1.
Proof.
  intros Hch. unfold owns, begin. split.
  - intros [k Hk]. rewrite (advance_spec ns k (head m) None (cells s)) in Hk by apply Hch.
    destruct (ns !! k) as [[b x]|] eqn:Hn.
    + injection Hk as ->. apply list_elem_of_fmap. exists (a, x). split; [done|].
      by eapply list_elem_of_lookup_2.
    + by destruct (decide _).
  - intros ([b x] & -> & Hin)%list_elem_of_fmap. apply list_elem_of_lookup_1 in Hin as [k Hk].
    exists k. by rewrite (advance_spec ns k (head m) None (cells s)), Hk by apply Hch.
Qed.

Lemma map_size_release h h' (la : list addr) :
  NoDup la → (∀ a, a ∈ la → is_Some (h !! a)) →
  (∀ a, h' !! a = if decide (a ∈ la) then None else h !! a) →
  map_size h = (map_size h' + length la)%nat.
Proof.
  revert h. induction la as [|a la IH]; intros h Hnd Hin Hrel.
  - simpl. rewrite Nat.add_0_r. f_equal. apply map_eq. intros a. rewrite Hrel.
    by rewrite decide_False by apply not_elem_of_nil.
  - apply NoDup_cons in Hnd as [Ha Hnd].
    assert (is_Some (h !! a)) as Hsome by (apply Hin; by left).
    pose proof (map_size_delete_Some a h Hsome) as Hsz. unfold base.size in Hsz.
    pose proof (map_size_non_empty_iff h) as Hne. unfold base.size in Hne.
    assert (map_size h ≠ 0%nat) as Hpos.
    { apply Hne. intros ->. destruct Hsome as [? Hs]. by rewrite lookup_empty in Hs. }
    rewrite length_cons.
    enough (map_size (delete a h) = (map_size h' + length la)%nat) by lia.
    apply IH; [done| |].
    + intros b Hb. rewrite lookup_delete_ne; [apply Hin; by right|]. by intros ->.
    + intros b. rewrite Hrel. destruct (decide (b = a)) as [->|Hba].
      * rewrite decide_True by (by left). rewrite decide_False by done.
        by rewrite lookup_delete_eq.
      * rewrite lookup_delete_ne by done.
        destruct (decide (b ∈ la)); [by rewrite decide_True by (by right)|].
        rewrite decide_False; [done|]. by intros [->|?]%elem_of_cons.
Qed.

Lemma dll_elem h p pv ns a x :
  dll h p pv ns → (a, x) ∈ ns → ∃ nx pv', h !! a = Some (Node x nx pv').
Proof.
  revert p pv. induction ns as [|[b y] ns IH]; intros p pv Hd Hin;
    [by apply elem_of_nil in Hin|].
  destruct Hd as [-> (nx & Hb & Hr)].
  apply elem_of_cons in Hin as [[= -> ->]|Hin]; [by eauto|by eapply IH].
Qed.

Lemma clear_helper_depth_spec :
  ∀ ns fuel p pv h,
    dll h p pv ns → NoDup ns.*1 → (length ns ≤ fuel)%nat →
    clear_helper_depth fuel p h = Ret (S (length ns)).
Proof.
  induction ns as [|[b x] ns IH]; intros fuel p pv h Hd Hnd Hf.
  - simpl in Hd. subst p. by destruct fuel.
  - simpl in Hd. destruct Hd as [-> (nx & Hb & Hr)].
    destruct fuel as [|fuel]; [simpl in Hf; lia|].
    apply NoDup_cons in Hnd as [Hbn Hnd].
    simpl. unfold deref, delete_node. simpl. rewrite Hb. simpl.
    rewrite (IH fuel nx (Some b) (delete b h)); [done| |done|simpl in Hf; lia].
    eapply dll_frame; [|exact Hr]. intros a Ha. rewrite lookup_delete_ne; [done|].
    by intros ->.
Qed.

(** X1.  [clear], and the destructor through it, on a valid matrix.
    [clear_helper] calls itself once per node: with [n] cells stored its
    recursion is [n + 1] activations deep, so the call needs a call
    stack that grows with the number of cells; the embedding puts no
    limit on that stack.  With the stack it needs, the call releases
    every node that an iterator reaches from [begin()] and touches no
    other node of the store, which shrinks by as many nodes as the
    traversal had cells; the object is left empty and valid, with its
    dimensions and its default. *)
Theorem clear_releases m s l :
  valid m s → traverse m s = Ret l →
  clear_helper_depth (map_size (cells s)) (head m) (cells s) = Ret (S (length l)) ∧
  ∃ m' s',
    clear m s = Ret (m', s') ∧ destroy m s = Ret s' ∧
    m' = Matrix None (get_righe m) (get_colonne m) 0 (get_default m) ∧
    valid m' s' ∧ traverse m' s' = Ret [] ∧
    (∀ a, owns m s a → cells s' !! a = None) ∧
    (∀ a, ¬ owns m s a → cells s' !! a = cells s !! a) ∧
    map_size (cells s) = (map_size (cells s') + length l)%nat.
Proof.
  intros [ns Hch] Htr. rewrite (traverse_chain m s ns Hch) in Htr. injection Htr as <-.
  split.
  { rewrite length_fmap.
    apply (clear_helper_depth_spec ns _ (head m) None (cells s)); [apply Hch..|].
    apply (dll_length (cells s) (head m) None ns); apply Hch. }
  destruct (clear_spec m s ns Hch) as (s' & Hcl & _ & Hcells).
  eexists _, s'. split; [exact Hcl|]. unfold destroy. rewrite Hcl. simpl.
  split; [done|]. split; [done|].
  assert (chain (cells s') (Matrix None (righe m) (colonne m) 0 (D m)) []) as Hch'.
  { apply chain_empty; apply Hch. }
  split; [by exists []|]. split; [by rewrite (traverse_chain _ _ [] Hch')|].
  split; [|split].
  - intros a Ha%(owns_chain m s ns a Hch). by rewrite Hcells, decide_True.
  - intros a Ha. rewrite Hcells, decide_False; [done|]. by rewrite <- (owns_chain m s ns a Hch).
  - rewrite length_fmap, <- (length_fmap fst ns). apply map_size_release; [apply Hch| |done].
    intros a Ha. eapply dll_lookup; [apply Hch|done].
Qed.

(** *** The nodes of a matrix across its calls *)

Lemma valid_preconditions (r c : Z) (rows cols : Z) v d :
  ¬ (0 < r ≤ rows ∧ 0 < c ≤ cols ∧ v ≠ d) → ¬ (0 < r ≤ rows) ∨ ¬ (0 < c ≤ cols) ∨ v = d.
Proof.
  intros Hbad. destruct (decide (0 < r ≤ rows)); [|by left].
  destruct (decide (0 < c ≤ cols)); [|by right; left].
  right. right. apply dec_stable. naive_solver.
Qed.

(** An [add] that returns was made within its preconditions, with an
    allocation available; it changes the nodes of its chain and the fresh
    node only. *)
Lemma add_owned m s ns r c v m' s' :
  chain (cells s) m ns → add m r c v s = Ret (m', s') →
  let cur := fresh (dom (cells s)) in
  let ns' := insert_cell r c v cur ns in
  0 < r ≤ righe m ∧ 0 < c ≤ colonne m ∧ v ≠ D m ∧ avail s ≠ 0%N ∧
  chain (cells s') m' ns' ∧
  (∀ a, a ∉ ns'.*1 → cells s' !! a = cells s !! a) ∧
  (∀ a, a ∈ ns'.*1 → a ∈ ns.*1 ∨ a = cur) ∧
  (∀ a, a ∈ ns.*1 → a ∈ ns'.*1) ∧
  (if hits r c ns.*2 then cur ∉ ns'.*1 ∧ size m' = size m
   else cur ∈ ns'.*1 ∧ size m' = uincr (size m)).
Proof.
  intros Hch Hadd cur ns'.
  destruct (decide (0 < r ≤ righe m ∧ 0 < c ≤ colonne m ∧ v ≠ D m)) as [(Hr & Hc & Hv)|Hbad];
    [|by rewrite (proj2 (add_abort_iff m r c v s)) in Hadd by by apply valid_preconditions].
  destruct (decide (avail s = 0%N)) as [Hz|Hnz]; [by rewrite add_throw in Hadd|].
  destruct (add_chain m s ns r c v Hch Hr Hc Hv Hnz) as
    (m1 & s1 & Hadd1 & Hch' & _ & _ & _ & _ & Hfr & Hsz).
  rewrite Hadd in Hadd1. injection Hadd1 as <- <-.
  fold cur in Hch', Hfr, Hsz. fold ns' in Hch'.
  assert (cur ∉ ns.*1) as Hcur by (eapply fresh_not_in_chain, Hch).
  pose proof (insert_cell_fst r c v cur ns) as Hperm. fold ns' in Hperm.
  do 4 (split; [done|]). split; [done|].
  split.
  { intros a Ha. destruct (decide (a = cur)) as [->|Hne].
    - rewrite (not_elem_of_dom_1 (cells s) cur) by apply is_fresh.
      revert Ha Hsz. rewrite Hperm. destruct (hits _ _ _); [naive_solver|set_solver].
    - apply Hfr; [|done]. revert Ha. rewrite Hperm. destruct (hits _ _ _); set_solver. }
  split. { intros a. rewrite Hperm. destruct (hits _ _ _); set_solver. }
  split. { intros a. rewrite Hperm. destruct (hits _ _ _); set_solver. }
  revert Hperm Hsz. destruct (hits _ _ _); intros Hperm Hsz.
  - destruct Hsz as [Hsz _]. split; [|done]. by rewrite Hperm.
  - split; [|done]. rewrite Hperm. by left.
Qed.

Lemma perform_owned q m s ns m' s' :
  chain (cells s) m ns → perform q m s = Ret (m', s') →
  ∃ ns', chain (cells s') m' ns' ∧
         (∀ a, a ∉ ns'.*1 → cells s' !! a = cells s !! a) ∧
         (∀ a, a ∈ ns'.*1 → a ∈ ns.*1 ∨ a ∉ dom (cells s)) ∧
         (∀ a, a ∈ ns.*1 → a ∈ ns'.*1).
Proof.
  intros Hch. destruct q as [r c v|d|k v]; simpl.
  - intros Hadd. destruct (add_owned m s ns r c v m' s' Hch Hadd)
      as (_ & _ & _ & _ & Hch' & Hfr & Hnew & Hmono & _).
    eexists. split; [exact Hch'|]. split; [done|]. split; [|done].
    intros a [?| ->]%Hnew; [by left|right; apply is_fresh].
  - intros [= <- <-]. exists ns. split; [by apply chain_set_default|]. by auto.
  - unfold begin. rewrite (advance_spec ns k (head m) None (cells s)) by apply Hch.
    destruct (ns !! k) as [[a x]|] eqn:Hk; [|by destruct (decide _)].
    destruct (chain_write m s ns k a x v Hch Hk) as (h' & Hw & Hch' & Hfr).
    unfold iter_write, set_dato in Hw. simpl in *. rewrite Hw. simpl.
    intros [= <- <-].
    assert ((<[k:=(a, Element (riga x) (colonna x) v)]> ns).*1 = ns.*1) as Heq.
    { rewrite list_fmap_insert. simpl. apply list_insert_id. by rewrite list_lookup_fmap, Hk. }
    eexists. split; [exact Hch'|]. rewrite Heq.
    split; [|by auto].
    intros b Hb. apply Hfr. intros ->. apply Hb.
    apply list_elem_of_fmap. exists (a, x). split; [done|]. by eapply list_elem_of_lookup_2.
Qed.

Lemma run_owned : ∀ calls m s ns m' s',
  chain (cells s) m ns → run calls m s = Ret (m', s') →
  ∃ ns', chain (cells s') m' ns' ∧
         (∀ a, a ∉ ns'.*1 → cells s' !! a = cells s !! a) ∧
         (∀ a, a ∈ ns'.*1 → a ∈ ns.*1 ∨ a ∉ dom (cells s)) ∧
         (∀ a, a ∈ ns.*1 → a ∈ ns'.*1).
Proof.
  induction calls as [|q calls IH]; intros m s ns m' s' Hch; simpl.
  - intros [= <- <-]. exists ns. by auto.
  - destruct (perform q m s) as [[m1 s1]|s1| | | |] eqn:Hq; simpl; try done.
    intros Hrun.
    destruct (perform_owned q m s ns m1 s1 Hch Hq) as (ns1 & Hch1 & Hfr1 & Hnew1 & Hmono1).
    destruct (IH m1 s1 ns1 m' s' Hch1 Hrun) as (ns' & Hch' & Hfr' & Hnew' & Hmono').
    exists ns'. split; [done|]. split; [|split].
    + intros a Ha. rewrite Hfr' by done. apply Hfr1. auto.
    + intros a Ha. destruct (decide (a ∈ ns1.*1)) as [Hin|Hnin]; [by apply Hnew1|].
      right. destruct (Hnew' a Ha) as [?|Hdom]; [done|].
      intros Hd. apply Hdom. apply elem_of_dom. rewrite Hfr1 by done. by apply elem_of_dom.
    + auto.
Qed.

Lemma construct_inv (rows cols : Z) d m0 :
  construct rows cols d = Ret (S:=store T) m0 → 0 < rows ∧ 0 < cols ∧ m0 = Matrix None rows cols 0 d.
Proof.
  unfold construct. destruct (Z.gtb_spec rows 0); [|done]. destruct (Z.gtb_spec cols 0); [|done].
  simpl. intros [= <-]. repeat split; lia.
Qed.

(** X2.  No node outlives its matrix: whatever calls ([add],
    [set_default], writes through iterators) returned on a matrix since
    its construction, its destructor leaves the store exactly as it was
    before the first of them. *)
Theorem lifetime_releases_all rows cols d calls s0 m0 m s :
  rows ≤ INT_MAX → cols ≤ INT_MAX →
  construct rows cols d = Ret m0 → run calls m0 s0 = Ret (m, s) →
  ∃ s', destroy m s = Ret s' ∧ cells s' = cells s0.
Proof.
  intros Hrows Hcols (Hr & Hc & ->)%construct_inv Hrun.
  assert (chain (cells s0) (Matrix None rows cols 0 d) []) as Hch0 by (by apply chain_empty).
  destruct (run_owned calls _ s0 [] m s Hch0 Hrun) as (ns & Hch & Hfr & Hnew & _).
  destruct (clear_spec m s ns Hch) as (s' & Hcl & _ & Hcells).
  exists s'. unfold destroy. rewrite Hcl. split; [done|].
  apply map_eq. intros a. rewrite Hcells. destruct (decide (a ∈ ns.*1)) as [Hin|Hnin]; [|auto].
  symmetry. apply not_elem_of_dom. destruct (Hnew a Hin) as [Hnil|?]; [|done].
  by apply elem_of_nil in Hnil.
Qed.

(** X3.  The representation invariant [valid] (a doubly-linked chain
    without a repeated node, in strictly ascending order of position,
    every position within the dimensions, [size] the number of nodes as
    an [unsigned int]) holds of a constructed matrix and is kept by
    [add], by [set_default], by a write through any iterator, by copy
    construction (for the copy and for the source) and by [clear]. *)
Theorem class_invariant :
  (∀ (r c : Z) d m0 s, r ≤ INT_MAX → c ≤ INT_MAX → construct r c d = Ret m0 → valid m0 s) ∧
  (∀ m s r c v m' s', valid m s → add m r c v s = Ret (m', s') → valid m' s') ∧
  (∀ m s d, valid m s → valid (set_default m d) s) ∧
  (∀ m s it v h', valid m s → iter_write it v (cells s) = Some h' → valid m (Store h' (avail s))) ∧
  (∀ m s cp s', valid m s → copy_construct m s = Ret (cp, s') → valid cp s' ∧ valid m s') ∧
  (∀ m s m' s', valid m s → clear m s = Ret (m', s') → valid m' s').
Proof.
  split; [|split; [|split; [|split; [|split]]]].
  - intros r c d m0 s Hr Hc (? & ? & ->)%construct_inv. exists []. by apply chain_empty.
  - intros m s r c v m' s' [ns Hch] Hadd.
    destruct (add_owned m s ns r c v m' s' Hch Hadd) as (_ & _ & _ & _ & Hch' & _).
    by eexists.
  - intros m s d [ns Hch]. exists ns. by apply chain_set_default.
  - intros m s [a|] v h' [ns Hch] Hw; [|done].
    destruct (decide (a ∈ ns.*1)) as [Hin|Hnin].
    + apply list_elem_of_fmap in Hin as ([b x] & -> & Hin).
      apply list_elem_of_lookup_1 in Hin as [k Hk].
      destruct (chain_write m s ns k b x v Hch Hk) as (h1 & Hw1 & Hch1 & _).
      cbn [fst] in Hw. rewrite Hw in Hw1. injection Hw1 as <-. by eexists.
    + exists ns. eapply chain_frame; [|exact Hch]. simpl.
      intros b Hb. unfold iter_write, set_dato in Hw. simpl in Hw.
      destruct (cells s !! a) as [nd|]; [|done]. simpl in Hw. injection Hw as <-.
      rewrite lookup_insert_ne; [done|]. by intros ->.
  - intros m s cp s' [ns Hch] Hcp. pose proof (copy_construct_spec m s ns Hch) as Hspec.
    rewrite Hcp in Hspec. destruct Hspec as (nc & Hc & _ & _ & _ & _ & _ & Hfr & Hfresh & _).
    split; [by exists nc|]. exists ns. eapply chain_frame; [|exact Hch].
    intros a Ha. apply Hfr. intros Hin. apply (Hfresh a Hin).
    apply elem_of_dom. eapply dll_lookup; [apply Hch|done].
  - intros m s m' s' [ns Hch] Hcl.
    destruct (clear_spec m s ns Hch) as (s1 & Hcl1 & _). rewrite Hcl in Hcl1.
    injection Hcl1 as -> ->. exists []. apply chain_empty; apply Hch.
Qed.

(** X4.  A successful [add] touches no node but those of its own
    matrix, all of which stay in it.  At a position already stored the
    node it allocated is deleted again: the live nodes and [size] are
    what they were.  At a new position exactly one node, the fresh one,
    is added to the store and [size] is incremented. *)
Theorem add_node_accounting m s l r c v :
  valid m s → traverse m s = Ret l →
  0 < r ≤ righe m → 0 < c ≤ colonne m → v ≠ D m → avail s ≠ 0%N →
  ∃ m' s',
    add m r c v s = Ret (m', s') ∧
    (∀ a, ¬ owns m' s' a → cells s' !! a = cells s !! a) ∧
    (∀ a, owns m s a → owns m' s' a) ∧
    if decide ((r, c) ∈ position <$> l)
    then dom (cells s') = dom (cells s) ∧ get_size m' = get_size m
    else dom (cells s') = {[fresh (dom (cells s))]} ∪ dom (cells s) ∧
         get_size m' = uincr (get_size m).
Proof.
  intros [ns Hch] Htr Hr Hc Hv Hnz.
  rewrite (traverse_chain m s ns Hch) in Htr. injection Htr as <-.
  destruct (add_chain m s ns r c v Hch Hr Hc Hv Hnz) as (m' & s' & Hadd & _).
  destruct (add_owned m s ns r c v m' s' Hch Hadd)
    as (_ & _ & _ & _ & Hch' & Hfr & Hnew & Hmono & Hsz).
  exists m', s'. split; [done|].
  split. { intros a Ha. apply Hfr. by rewrite <- (owns_chain m' s' _ a Hch'). }
  split. { intros a Ha. apply (owns_chain m' s' _ a Hch'), Hmono. by apply (owns_chain m s ns a Hch). }
  assert (∀ a, a ∈ (insert_cell r c v (fresh (dom (cells s))) ns).*1 → a ∈ dom (cells s')) as Hin'.
  { intros a Ha. apply elem_of_dom. eapply dll_lookup; [apply Hch'|done]. }
  assert (∀ a, a ∈ ns.*1 → a ∈ dom (cells s)) as Hin.
  { intros a Ha. apply elem_of_dom. eapply dll_lookup; [apply Hch|done]. }
  assert (∀ a, a ∉ (insert_cell r c v (fresh (dom (cells s))) ns).*1 →
               a ∈ dom (cells s') ↔ a ∈ dom (cells s)) as Hout.
  { intros a Ha. by rewrite !elem_of_dom, Hfr. }
  rewrite (hits_find r c ns.*2) in Hsz by apply Hch.
  set (ns' := insert_cell r c v (fresh (dom (cells s))) ns) in *.
  destruct (decide ((r, c) ∈ position <$> ns.*2)) as [Hst|Hst].
  - rewrite bool_decide_eq_true_2 in Hsz.
    2:{ apply not_eq_None_Some. by intros Hn%find_cell_None. }
    destruct Hsz as [Hcur Hsize]. split; [|done].
    apply set_eq. intros a. destruct (decide (a ∈ ns'.*1)) as [Ha|Ha]; [|by apply Hout].
    split; [|by auto]. intros _. destruct (Hnew a Ha) as [?| ->]; [by auto|].
    done.
  - rewrite bool_decide_eq_false_2 in Hsz.
    2:{ rewrite <- not_eq_None_Some. intros Hn. apply Hn. by apply find_cell_None. }
    destruct Hsz as [Hcur Hsize]. split; [|done].
    apply set_eq. intros a. rewrite elem_of_union, elem_of_singleton.
    destruct (decide (a ∈ ns'.*1)) as [Ha|Ha].
    + split; [|by auto]. intros _. destruct (Hnew a Ha) as [?| ->]; auto.
    + rewrite Hout by done. split; [by auto|]. intros [->|?]; done.
Qed.

(** *** Iterators *)

Lemma advance_S_r k : ∀ p h, advance (S k) p h = advance k p h ≫= λ it, iter_incr it h.
Proof.
  induction k as [|k IH]; intros p h.
  - simpl. by destruct (iter_incr p h).
  - change (advance (S (S k)) p h) with (iter_incr p h ≫= λ it', advance (S k) it' h).
    change (advance (S k) p h) with (iter_incr p h ≫= λ it', advance k it' h).
    destruct (iter_incr p h) as [it'|]; simpl; [apply IH|done].
Qed.

Lemma chain_lookup_cell m s ns k a x :
  chain (cells s) m ns → ns !! k = Some (a, x) →
  advance k (begin m) (cells s) = Some (Some a) ∧ iter_deref (Some a) (cells s) = Some x.
Proof.
  intros Hch Hk. split.
  - unfold begin. by rewrite (advance_spec ns k (head m) None (cells s)), Hk by apply Hch.
  - destruct (dll_elem (cells s) (head m) None ns a x) as (nx & pv' & Ha);
      [apply Hch|by eapply list_elem_of_lookup_2|].
    unfold iter_deref. simpl. by rewrite Ha.
Qed.

Lemma chain_iterator m s ns k it x :
  chain (cells s) m ns →
  advance k (begin m) (cells s) = Some it → iter_deref it (cells s) = Some x →
  ∃ a, it = Some a ∧ ns !! k = Some (a, x).
Proof.
  intros Hch Hadv Hx. unfold begin in Hadv.
  rewrite (advance_spec ns k (head m) None (cells s)) in Hadv by apply Hch.
  destruct (ns !! k) as [[a y]|] eqn:Hk.
  - injection Hadv as <-. exists a. split; [done|].
    destruct (chain_lookup_cell m s ns k a y Hch Hk) as [_ Hy]. congruence.
  - destruct (decide _); [|done]. by injection Hadv as <-.
Qed.

(** X8.  Walking a valid matrix: the iterator reached by [k]
    increments from [begin()], [k] less than the number of cells, differs
    from [end()] and dereferences to the [k]-th cell of the traversal;
    post-increment returns the iterator as it was and leaves it where
    pre-increment does.  After as many increments as there are cells the
    iterator is [end()], and no further increment is possible: to
    dereference or to increment [end()] is an access through a null
    pointer.  [begin()] equals [end()] exactly when no cell is stored. *)
Theorem iteration_protocol m s l :
  valid m s → traverse m s = Ret l →
  (∀ k x, l !! k = Some x →
     ∃ it it',
       advance k (begin m) (cells s) = Some it ∧ iter_neq it (end_ m) = true ∧
       iter_eq it (end_ m) = false ∧
       iter_deref it (cells s) = Some x ∧
       iter_incr it (cells s) = Some it' ∧ iter_post_incr it (cells s) = Some (it, it') ∧
       advance (S k) (begin m) (cells s) = Some it') ∧
  advance (length l) (begin m) (cells s) = Some (end_ m) ∧
  (∀ k, (length l < k)%nat → advance k (begin m) (cells s) = None) ∧
  iter_deref (end_ m) (cells s) = None ∧ iter_incr (end_ m) (cells s) = None ∧
  iter_post_incr (end_ m) (cells s) = None ∧
  (iter_eq (begin m) (end_ m) = true ↔ l = []).
Proof.
  intros [ns Hch] Htr. rewrite (traverse_chain m s ns Hch) in Htr. injection Htr as <-.
  assert (∀ k, advance k (begin m) (cells s) =
               match ns !! k with
               | Some (a, _) => Some (Some a)
               | None => if decide (k = length ns) then Some None else None
               end) as Hadv.
  { intros k. apply (advance_spec ns k (head m) None (cells s)), Hch. }
  split; [|split; [|split; [|split; [done|split; [done|split; [done|]]]]]].
  - intros k x Hk. rewrite list_lookup_fmap in Hk.
    destruct (ns !! k) as [[a y]|] eqn:Hn; [|done]. injection Hk as ->.
    destruct (chain_lookup_cell m s ns k a x Hch Hn) as [Ha Hx].
    assert (is_Some (iter_incr (Some a) (cells s))) as [it' Hincr].
    { unfold iter_incr. unfold iter_deref in Hx.
      destruct (deref (Some a) (cells s)); [by eexists|done]. }
    exists (Some a), it'. split; [done|]. split; [done|]. split; [done|]. split; [done|].
    split; [done|]. split.
    + unfold iter_post_incr. unfold iter_incr in Hincr.
      destruct (deref (Some a) (cells s)); [|done]. simpl in *. by injection Hincr as ->.
    + by rewrite advance_S_r, Ha.
  - rewrite length_fmap, Hadv. rewrite lookup_ge_None_2 by lia. by rewrite decide_True.
  - intros k Hlt. rewrite length_fmap in Hlt. rewrite Hadv, lookup_ge_None_2 by lia.
    rewrite decide_False; [done|lia].
  - unfold iter_eq, begin, end_. pose proof (chain_dll _ _ _ Hch) as Hd.
    destruct ns as [|[a x] ns]; simpl in Hd.
    + rewrite Hd. by rewrite bool_decide_eq_true.
    + destruct Hd as [-> _]. by rewrite bool_decide_eq_true.
Qed.

(** *** lookup of the cells a traversal yields *)

Lemma find_cell_elem l x :
  ascending l → x ∈ l → find_cell (riga x) (colonna x) l = Some (dato x).
Proof.
  induction l as [|y l IH]; intros Hasc Hin; [by apply elem_of_nil in Hin|].
  apply StronglySorted_inv in Hasc as [Hasc Hy].
  apply elem_of_cons in Hin as [->|Hin]; simpl.
  - by rewrite (proj2 (same_eq (riga y) (colonna y) y)).
  - rewrite Forall_forall in Hy. specialize (Hy x Hin).
    destruct (same (riga x) (colonna x) y) eqn:Hs; [|by apply IH].
    apply same_eq in Hs as [Hr Hc].
    apply before_not_same in Hy. rewrite <- Hr, <- Hc in Hy.
    by rewrite (proj2 (same_eq (riga x) (colonna x) x)) in Hy.
Qed.

(** X10.  Every cell that the traversal yields lies within the
    dimensions, and [lookup] at its position returns its value. *)
Theorem lookup_iterated_cell m s l x :
  valid m s → traverse m s = Ret l → x ∈ l →
  0 < riga x ≤ get_righe m ∧ 0 < colonna x ≤ get_colonne m ∧
  lookup m (riga x) (colonna x) s = Ret (dato x).
Proof.
  intros [ns Hch] Htr Hx. rewrite (traverse_chain m s ns Hch) in Htr. injection Htr as <-.
  pose proof (chain_range _ _ _ Hch) as Hra. rewrite Forall_forall in Hra.
  destruct (Hra x Hx) as [Hr Hc]. split; [done|]. split; [done|].
  rewrite (lookup_chain m s ns _ _ Hch Hr Hc).
  by rewrite find_cell_elem by (apply Hch || done).
Qed.

(** X11.  [set_default(d')] changes the default and nothing else:
    dimensions, [size] and the traversal are the same, [lookup] at a
    stored position still returns the stored value (whether or not it
    equals [d']), and [lookup] at any other in-bounds position returns
    [d']. *)
Theorem set_default_keeps_cells m s l d' :
  valid m s → traverse m s = Ret l →
  valid (set_default m d') s ∧
  get_default (set_default m d') = d' ∧
  get_size (set_default m d') = get_size m ∧
  get_righe (set_default m d') = get_righe m ∧
  get_colonne (set_default m d') = get_colonne m ∧
  traverse (set_default m d') s = Ret l ∧
  (∀ x, x ∈ l → lookup (set_default m d') (riga x) (colonna x) s = Ret (dato x)) ∧
  (∀ r c, 0 < r ≤ get_righe m → 0 < c ≤ get_colonne m → (r, c) ∉ position <$> l →
          lookup (set_default m d') r c s = Ret d').
Proof.
  intros [ns Hch] Htr. rewrite (traverse_chain m s ns Hch) in Htr. injection Htr as <-.
  pose proof (chain_set_default _ _ _ d' Hch) as Hch'.
  split; [by exists ns|]. do 4 (split; [done|]).
  split; [by apply traverse_chain|]. split.
  - intros x Hx. pose proof (chain_range _ _ _ Hch) as Hra. rewrite Forall_forall in Hra.
    destruct (Hra x Hx) as [Hr Hc].
    rewrite (lookup_chain _ s ns _ _ Hch') by done.
    by rewrite find_cell_elem by (apply Hch || done).
  - intros r c Hr Hc Hno. rewrite (lookup_chain _ s ns _ _ Hch') by done.
    by rewrite (proj2 (find_cell_None r c ns.*2)).
Qed.

(** *** Writing through an iterator *)

Lemma find_cell_insert_other l : ∀ k x v i j,
  l !! k = Some x → (i, j) ≠ position x →
  find_cell i j (<[k := Element (riga x) (colonna x) v]> l) = find_cell i j l.
Proof.
  induction l as [|y l IH]; intros k x v i j Hk Hne; [done|].
  destruct k as [|k]; simpl in *.
  - injection Hk as ->.
    assert (same i j x = false) as Hs.
    { apply not_true_is_false. intros [-> ->]%same_eq. by apply Hne. }
    assert (same i j (Element (riga x) (colonna x) v) = false) as -> by done.
    by rewrite Hs.
  - by rewrite (IH k x v i j Hk Hne).
Qed.

(** X9.  An assignment of [v] to the [dato] under an iterator on the
    [k]-th cell: the traversal then yields [v] at the [k]-th cell and is
    otherwise unchanged, [lookup] at that position returns [v] and at any
    other position what it returned before, no other node of the store
    changes and the matrix stays valid.  No condition is put on [v]: the
    default itself can be written. *)
Theorem write_through_iterator m s l k it x v :
  valid m s → traverse m s = Ret l →
  advance k (begin m) (cells s) = Some it → iter_deref it (cells s) = Some x →
  ∃ h',
    iter_write it v (cells s) = Some h' ∧
    valid m (Store h' (avail s)) ∧
    traverse m (Store h' (avail s)) = Ret (<[k := Element (riga x) (colonna x) v]> l) ∧
    l !! k = Some x ∧
    lookup m (riga x) (colonna x) (Store h' (avail s)) = Ret v ∧
    (∀ i j, (i, j) ≠ position x → lookup m i j (Store h' (avail s)) = lookup m i j s) ∧
    (∀ a, it ≠ Some a → h' !! a = cells s !! a).
Proof.
  intros [ns Hch] Htr Hadv Hx. rewrite (traverse_chain m s ns Hch) in Htr. injection Htr as <-.
  destruct (chain_iterator m s ns k it x Hch Hadv Hx) as (a & -> & Hk).
  destruct (chain_write m s ns k a x v Hch Hk) as (h' & Hw & Hch' & Hfr).
  exists h'. split; [done|]. split; [by eexists|].
  set (s' := Store h' (avail s)).
  set (ns' := <[k:=(a, Element (riga x) (colonna x) v)]> ns) in *.
  assert (ns'.*2 = <[k:=Element (riga x) (colonna x) v]> ns.*2) as Hsnd
    by (unfold ns'; by rewrite list_fmap_insert).
  split; [by rewrite (traverse_chain m s' ns' Hch'), Hsnd|].
  assert (ns.*2 !! k = Some x) as Hk2 by (by rewrite list_lookup_fmap, Hk).
  split; [done|].
  pose proof (chain_range _ _ _ Hch) as Hra. rewrite Forall_forall in Hra.
  destruct (Hra x (list_elem_of_lookup_2 _ _ _ Hk2)) as [Hr Hc].
  split; [|split].
  - rewrite (lookup_chain m s' ns' _ _ Hch' Hr Hc), Hsnd.
    pose proof (find_cell_elem (<[k:=Element (riga x) (colonna x) v]> ns.*2)
                  (Element (riga x) (colonna x) v)) as Hfind.
    simpl in Hfind. rewrite Hfind; [done| |].
    + rewrite <- Hsnd. apply Hch'.
    + apply list_elem_of_insert. by eapply lookup_lt_Some.
  - intros i j Hne. unfold lookup.
    destruct (negb ((i <=? righe m) && (i >? 0))) eqn:Hi; [done|].
    destruct (negb ((j <=? colonne m) && (j >? 0))) eqn:Hj; [done|].
    assert (0 < i ≤ righe m) as Hi'.
    { apply dec_stable. intros Hn. apply bounds_ko in Hn. congruence. }
    assert (0 < j ≤ colonne m) as Hj'.
    { apply dec_stable. intros Hn. apply bounds_ko in Hn. congruence. }
    pose proof (lookup_chain m s' ns' i j Hch' Hi' Hj') as H1.
    pose proof (lookup_chain m s ns i j Hch Hi' Hj') as H2.
    unfold lookup in H1, H2. rewrite Hi, Hj in H1, H2. rewrite H1, H2, Hsnd.
    by rewrite (find_cell_insert_other _ k x v i j Hk2 Hne).
  - intros b Hb. apply Hfr. by intros ->.
Qed.

(** *** Iterators stay on their cells across add *)

(** The insertion keeps every node of the chain at its index, or moves
    it one further. *)
Lemma insert_cell_lookup r c v cur : ∀ ns k a x,
  ascending ns.*2 → ns !! k = Some (a, x) →
  ∃ k', (k' = k ∨ k' = S k) ∧
        insert_cell r c v cur ns !! k' =
          Some (a, if same r c x then Element (riga x) (colonna x) v else x).
Proof.
  induction ns as [|[b y] ns IH]; intros k a x Hasc Hk; [done|].
  csimpl in Hasc. apply StronglySorted_inv in Hasc as [Hasc Hy].
  assert (∀ z, z ∈ ns.*2 → before r c y = true ∨ same r c y = true → same r c z = false) as Hlater.
  { intros z Hz Hrc. rewrite Forall_forall in Hy. specialize (Hy z Hz).
    apply before_not_same. destruct Hrc as [Hb|[-> ->]%same_eq]; [|done].
    by eapply before_trans. }
  assert (∀ k' z, ns !! k' = Some (a, z) → z ∈ ns.*2) as Hmem.
  { intros k' z Hz. apply list_elem_of_fmap. exists (a, z). split; [done|].
    by eapply list_elem_of_lookup_2. }
  simpl. destruct (before r c y) eqn:Hb.
  - exists (S k). split; [by right|]. simpl.
    destruct k as [|k]; simpl in Hk; simpl.
    + injection Hk as -> ->. by rewrite (before_not_same r c x Hb).
    + rewrite Hk. by rewrite (Hlater x (Hmem k x Hk)) by auto.
  - destruct (same r c y) eqn:Hs.
    + exists k. split; [by left|]. destruct k as [|k]; simpl in *.
      * injection Hk as -> ->. by rewrite Hs.
      * rewrite Hk. by rewrite (Hlater x (Hmem k x Hk)) by auto.
    + destruct k as [|k]; simpl in Hk.
      * injection Hk as -> ->. exists O. split; [by left|]. simpl. by rewrite Hs.
      * destruct (IH k a x Hasc Hk) as (k' & Hk' & Hin).
        exists (S k'). split; [lia|done].
Qed.

(** X7.  [add] invalidates no iterator: an iterator on a cell of the
    matrix is still on a cell at the same position afterwards, reached
    from the new [begin()] by as many increments as before or by one
    more; the value read through it has changed only if the [add] was
    made at its position. *)
Theorem add_keeps_iterators m s r c v k it x :
  valid m s → 0 < r ≤ righe m → 0 < c ≤ colonne m → v ≠ D m → avail s ≠ 0%N →
  advance k (begin m) (cells s) = Some it → iter_deref it (cells s) = Some x →
  ∃ m' s' k',
    add m r c v s = Ret (m', s') ∧
    (k' = k ∨ k' = S k) ∧ advance k' (begin m') (cells s') = Some it ∧
    iter_deref it (cells s') =
      Some (if same r c x then Element (riga x) (colonna x) v else x).
Proof.
  intros [ns Hch] Hr Hc Hv Hnz Hadv Hx.
  destruct (chain_iterator m s ns k it x Hch Hadv Hx) as (a & -> & Hk).
  destruct (add_chain m s ns r c v Hch Hr Hc Hv Hnz) as (m' & s' & Hadd & Hch' & _).
  destruct (insert_cell_lookup r c v (fresh (dom (cells s))) ns k a x) as (k' & Hk' & Hin);
    [apply Hch|done|].
  destruct (chain_lookup_cell m' s' _ k' a _ Hch' Hin) as [Ha' Hx'].
  by exists m', s', k'.
Qed.

(** *** Where add puts the cell *)

Lemma filter_all {A} (P : A → Prop) `{!∀ z, Decision (P z)} (la : list A) :
  Forall P la → filter P la = la.
Proof.
  induction 1 as [|z la Hz Hl IH]; [done|]. by rewrite filter_cons_True, IH.
Qed.

Lemma filter_none {A} (P : A → Prop) `{!∀ z, Decision (P z)} (la : list A) :
  Forall (λ z, ¬ P z) la → filter P la = [].
Proof.
  induction 1 as [|z la Hz Hl IH]; [done|]. by rewrite filter_cons_False.
Qed.

Lemma insert_elem_split r c v l :
  ascending l →
  insert_elem r c v l =
    filter (λ x, pos_lt (position x) (r, c)) l ++
    Element r c v :: filter (λ x, pos_lt (r, c) (position x)) l.
Proof.
  induction l as [|y l IH]; intros Hasc; [done|].
  apply StronglySorted_inv in Hasc as [Hasc Hy].
  assert (pos_lt (r, c) (position y) ∨ (r, c) = position y →
          Forall (λ x, pos_lt (r, c) (position x)) l) as Hafter.
  { intros Hrc. eapply Forall_impl; [exact Hy|]. intros x Hx%before_pos_lt.
    unfold pos_lt, position in *. simpl in *.
    destruct Hrc as [?|[= -> ->]]; lia. }
  assert (∀ x, pos_lt (r, c) (position x) → ¬ pos_lt (position x) (r, c)) as Hanti.
  { intros x. unfold pos_lt, position. simpl. lia. }
  simpl. destruct (before r c y) eqn:Hb.
  - assert (pos_lt (r, c) (position y)) as Hlt.
    { by apply (before_pos_lt (Element r c v) y). }
    rewrite (filter_none (λ x, pos_lt (position x) (r, c))).
    2:{ constructor; [by apply Hanti|]. eapply Forall_impl; [apply Hafter; by left|]. apply Hanti. }
    rewrite (filter_all (λ x, pos_lt (r, c) (position x))); [done|].
    constructor; [done|]. apply Hafter. by left.
  - destruct (same r c y) eqn:Hs.
    + apply same_eq in Hs as [-> ->].
      assert (¬ pos_lt (position y) (position y)) as Hirr.
      { unfold pos_lt. lia. }
      change (riga y, colonna y) with (position y).
      rewrite !filter_cons_False by done.
      rewrite (filter_none (λ x, pos_lt (position x) (position y))).
      2:{ eapply Forall_impl; [apply Hafter; by right|]. apply Hanti. }
      rewrite (filter_all (λ x, pos_lt (position y) (position x))); [done|].
      apply Hafter. by right.
    + assert (pos_lt (position y) (r, c)) as Hlt.
      { apply (before_pos_lt y (Element r c v)). by apply (after_flip r c y). }
      rewrite filter_cons_True by done.
      rewrite (filter_cons_False (λ x, pos_lt (r, c) (position x))).
      2:{ intros Hn. by apply (Hanti y Hn). }
      by rewrite IH.
Qed.

(** X5.  After [add(r, c, v)] the traversal yields the cells that
    were before position (r, c), then the cell (r, c, v), then the cells
    that were after it; a cell that was at (r, c) is replaced. *)
Theorem add_places_cell m s l r c v :
  valid m s → traverse m s = Ret l →
  0 < r ≤ righe m → 0 < c ≤ colonne m → v ≠ D m → avail s ≠ 0%N →
  ∃ m' s',
    add m r c v s = Ret (m', s') ∧
    traverse m' s' =
      Ret (filter (λ x, pos_lt (position x) (r, c)) l ++
           Element r c v :: filter (λ x, pos_lt (r, c) (position x)) l).
Proof.
  intros [ns Hch] Htr Hr Hc Hv Hnz.
  rewrite (traverse_chain m s ns Hch) in Htr. injection Htr as <-.
  destruct (add_chain m s ns r c v Hch Hr Hc Hv Hnz) as (m' & s' & Hadd & Hch' & _).
  exists m', s'. split; [done|].
  rewrite (traverse_chain m' s' _ Hch'), insert_cell_snd.
  by rewrite insert_elem_split by apply Hch.
Qed.

(** *** Adds in either order *)

Lemma find_cell_head x l :
  ∀ i j, find_cell i j (x :: l) =
         if decide ((i, j) = position x) then Some (dato x) else find_cell i j l.
Proof.
  intros i j. simpl. destruct (same i j x) eqn:Hs.
  - apply same_eq in Hs as [-> ->]. by rewrite decide_True.
  - rewrite decide_False; [done|]. intros [= -> ->].
    by rewrite (proj2 (same_eq (riga x) (colonna x) x)) in Hs.
Qed.

Lemma find_cell_Some i j l w :
  find_cell i j l = Some w → ∃ z, z ∈ l ∧ position z = (i, j).
Proof.
  intros Hf. destruct (decide ((i, j) ∈ position <$> l)) as [Hin|Hnin].
  - apply list_elem_of_fmap in Hin as (z & Hz & Hin). by exists z.
  - apply find_cell_None in Hnin. congruence.
Qed.

(** Two ascending lists of cells with the same value, or none, at
    every position are equal. *)
Lemma ascending_ext : ∀ l1 l2,
  ascending l1 → ascending l2 →
  (∀ i j, find_cell i j l1 = find_cell i j l2) → l1 = l2.
Proof.
  induction l1 as [|x l1 IH]; intros l2 H1 H2 Hext.
  - destruct l2 as [|y l2]; [done|]. specialize (Hext (riga y) (colonna y)).
    simpl in Hext. by rewrite (proj2 (same_eq (riga y) (colonna y) y)) in Hext.
  - destruct l2 as [|y l2].
    { specialize (Hext (riga x) (colonna x)). simpl in Hext.
      by rewrite (proj2 (same_eq (riga x) (colonna x) x)) in Hext. }
    apply StronglySorted_inv in H1 as [H1 Hx]. apply StronglySorted_inv in H2 as [H2 Hy].
    rewrite Forall_forall in Hx. rewrite Forall_forall in Hy.
    assert (∀ i j, (if decide ((i, j) = position x) then Some (dato x) else find_cell i j l1) =
                   (if decide ((i, j) = position y) then Some (dato y) else find_cell i j l2))
      as Hext'.
    { intros i j. rewrite <- !find_cell_head. apply Hext. }
    assert (position x = position y) as Hpos.
    { destruct (decide (position x = position y)) as [|Hne]; [done|]. exfalso.
      pose proof (Hext' (riga x) (colonna x)) as Ex.
      pose proof (Hext' (riga y) (colonna y)) as Ey.
      rewrite decide_True in Ex by done. rewrite (decide_False (P:=_ = position y)) in Ex by done.
      rewrite (decide_True (P:=_ = position y)) in Ey by done.
      rewrite decide_False in Ey by (by intros Heq; apply Hne).
      symmetry in Ex. apply find_cell_Some in Ex as (z & Hz & Hpz).
      apply find_cell_Some in Ey as (z' & Hz' & Hpz').
      pose proof (proj1 (before_pos_lt y z) (Hy z Hz)) as L1.
      pose proof (proj1 (before_pos_lt x z') (Hx z' Hz')) as L2.
      rewrite Hpz in L1. rewrite Hpz' in L2. unfold pos_lt, position in *. simpl in *. lia. }
    assert (x = y) as <-.
    { pose proof (Hext' (riga x) (colonna x)) as Ex.
      rewrite decide_True in Ex by done. rewrite decide_True in Ex by done.
      destruct x, y. unfold position in Hpos. simpl in *. congruence. }
    f_equal. apply IH; [done|done|]. intros i j.
    destruct (decide ((i, j) = position x)) as [Heq|Hne].
    + injection Heq as -> ->.
      rewrite !find_cell_before; [done|by apply Forall_forall..].
    + specialize (Hext' i j). by rewrite !decide_False in Hext' by done.
Qed.

Lemma insert_elem_comm l r c v r' c' v' :
  ascending l → (r, c) ≠ (r', c') →
  insert_elem r' c' v' (insert_elem r c v l) = insert_elem r c v (insert_elem r' c' v' l).
Proof.
  intros Hasc Hne. apply ascending_ext; [by do 2 apply ascending_insert..|].
  intros i j. destruct (decide ((i, j) = (r', c'))) as [[= -> ->]|H1].
  - by rewrite find_insert_same, find_insert_other, find_insert_same by (by intros ?; apply Hne).
  - rewrite (find_insert_other r' c' v' i j) by done.
    destruct (decide ((i, j) = (r, c))) as [[= -> ->]|H2].
    + by rewrite !find_insert_same.
    + by rewrite !find_insert_other by done.
Qed.

Lemma insert_elem_twice l r c v v' :
  ascending l → insert_elem r c v' (insert_elem r c v l) = insert_elem r c v' l.
Proof.
  intros Hasc. apply ascending_ext; [by do 2 apply ascending_insert|by apply ascending_insert|].
  intros i j. destruct (decide ((i, j) = (r, c))) as [[= -> ->]|H1].
  - by rewrite !find_insert_same.
  - by rewrite !find_insert_other by done.
Qed.

Lemma add_twice m s ns r c v r' c' v' :
  chain (cells s) m ns →
  0 < r ≤ righe m → 0 < c ≤ colonne m → v ≠ D m →
  0 < r' ≤ righe m → 0 < c' ≤ colonne m → v' ≠ D m →
  (2 ≤ avail s)%N →
  ∃ m1 s1 m2 s2 ns2,
    add m r c v s = Ret (m1, s1) ∧ add m1 r' c' v' s1 = Ret (m2, s2) ∧
    chain (cells s2) m2 ns2 ∧ ns2.*2 = insert_elem r' c' v' (insert_elem r c v ns.*2).
Proof.
  intros Hch Hr Hc Hv Hr' Hc' Hv' Hav.
  destruct (add_chain m s ns r c v Hch Hr Hc Hv) as
    (m1 & s1 & Hadd1 & Hch1 & Hav1 & Hr1 & Hc1 & HD1 & _); [lia|].
  destruct (add_chain m1 s1 _ r' c' v' Hch1) as (m2 & s2 & Hadd2 & Hch2 & _);
    [lia|lia|congruence|lia|].
  exists m1, s1, m2, s2. eexists. split; [done|]. split; [done|]. split; [exact Hch2|].
  by rewrite !insert_cell_snd.
Qed.

(** X6.  Two [add]s at different positions can be made in either
    order: the traversal and [size] come out the same.  Of two [add]s at
    the same position only the second shows: traversal and [size] are
    those after the second alone. *)
Theorem adds_compose m s r c v r' c' v' :
  valid m s →
  0 < r ≤ righe m → 0 < c ≤ colonne m → v ≠ D m →
  0 < r' ≤ righe m → 0 < c' ≤ colonne m → v' ≠ D m →
  (2 ≤ avail s)%N →
  ∃ m1 s1 m2 s2 l,
    add m r c v s = Ret (m1, s1) ∧ add m1 r' c' v' s1 = Ret (m2, s2) ∧
    traverse m2 s2 = Ret l ∧
    if decide ((r, c) = (r', c'))
    then ∃ m3 s3, add m r' c' v' s = Ret (m3, s3) ∧ traverse m3 s3 = Ret l ∧
                  get_size m3 = get_size m2
    else ∃ m3 s3 m4 s4,
           add m r' c' v' s = Ret (m3, s3) ∧ add m3 r c v s3 = Ret (m4, s4) ∧
           traverse m4 s4 = Ret l ∧ get_size m4 = get_size m2.
Proof.
  intros [ns Hch] Hr Hc Hv Hr' Hc' Hv' Hav.
  destruct (add_twice m s ns r c v r' c' v' Hch Hr Hc Hv Hr' Hc' Hv' Hav)
    as (m1 & s1 & m2 & s2 & ns2 & Hadd1 & Hadd2 & Hch2 & Hns2).
  exists m1, s1, m2, s2, ns2.*2. split; [done|]. split; [done|].
  split; [by apply traverse_chain|].
  assert (∀ m' h' ns', chain h' m' ns' → ns'.*2 = ns2.*2 → size m' = size m2) as Hsize.
  { intros m' h' ns' Hch' Heq. rewrite (chain_size _ _ _ Hch'), (chain_size _ _ _ Hch2).
    by rewrite <- (length_fmap snd ns'), Heq, length_fmap. }
  destruct (decide ((r, c) = (r', c'))) as [[= <- <-]|Hne].
  - destruct (add_chain m s ns r c v' Hch Hr Hc Hv') as (m3 & s3 & Hadd3 & Hch3 & _); [lia|].
    assert ((insert_cell r c v' (fresh (dom (cells s))) ns).*2 = ns2.*2) as Heq.
    { rewrite insert_cell_snd, Hns2. symmetry. apply insert_elem_twice, Hch. }
    exists m3, s3. split; [done|]. split; [by rewrite (traverse_chain m3 s3 _ Hch3), Heq|].
    by apply (Hsize m3 (cells s3) _ Hch3).
  - destruct (add_twice m s ns r' c' v' r c v Hch Hr' Hc' Hv' Hr Hc Hv Hav)
      as (m3 & s3 & m4 & s4 & ns4 & Hadd3 & Hadd4 & Hch4 & Hns4).
    assert (ns4.*2 = ns2.*2) as Heq.
    { rewrite Hns4, Hns2. symmetry. apply insert_elem_comm; [apply Hch|done]. }
    exists m3, s3, m4, s4. split; [done|]. split; [done|].
    split; [by rewrite (traverse_chain m4 s4 _ Hch4), Heq|].
    by apply (Hsize m4 (cells s4) _ Hch4).
Qed.

(** *** evaluate *)

(** X13.  On a valid matrix [evaluate] returns, and then returns the
    number of matching positions, exactly when the matrix has fewer than
    INT_MAX rows and fewer than INT_MAX columns and at most INT_MAX
    positions match.  In every other case the first thing to go wrong is
    the increment of an [int] that holds INT_MAX (with INT_MAX rows or
    columns it is the loop counter, compared with [<=]): a signed
    overflow, whose behaviour is undefined.  The embedding stops there,
    at [Overflow], and says nothing of what the program does next. *)
Theorem evaluate_overflow_iff p m s :
  valid m s →
  (evaluate m p s = Overflow ↔
     get_righe m = INT_MAX ∨ get_colonne m = INT_MAX ∨ INT_MAX < matches p m s) ∧
  (evaluate m p s = Overflow ∨ evaluate m p s = Ret (matches p m s)).
Proof.
  intros Hv. rewrite (evaluate_spec p m s Hv).
  destruct Hv as [ns Hch]. pose proof (chain_dims _ _ _ Hch) as [Hrd Hcd].
  unfold get_righe, get_colonne.
  destruct (decide _) as [Hok|Hno].
  - split; [|by right]. split; [done|]. lia.
  - split; [|by left]. split; [|done]. intros _. lia.
Qed.

Lemma strongly_sorted_NoDup (ps : list (Z * Z)) : StronglySorted pos_lt ps → NoDup ps.
Proof.
  induction 1 as [|q ps _ IH Hq]; constructor; [|done].
  intros Hin. rewrite Forall_forall in Hq. specialize (Hq q Hin). unfold pos_lt in Hq. lia.
Qed.

Lemma satisfies_stored p m s ns x :
  chain (cells s) m ns → x ∈ ns.*2 → satisfies p m s (position x) = p (dato x).
Proof.
  intros Hch Hx. pose proof (chain_range _ _ _ Hch) as Hra. rewrite Forall_forall in Hra.
  destruct (Hra x Hx) as [Hr Hc]. unfold satisfies. simpl.
  rewrite (lookup_chain m s ns _ _ Hch Hr Hc).
  by rewrite find_cell_elem by (apply Hch || done).
Qed.

Lemma satisfies_unstored p m s ns (ij : Z * Z) :
  chain (cells s) m ns → ij ∈ positions m → ij ∉ position <$> ns.*2 →
  satisfies p m s ij = p (D m).
Proof.
  intros Hch Hin Hno. destruct ij as [i j]. apply positions_in_range in Hin as [Hi Hj].
  unfold satisfies. simpl. rewrite (lookup_chain m s ns _ _ Hch Hi Hj).
  by rewrite (proj2 (find_cell_None i j ns.*2)).
Qed.

Lemma tally_stored p m s ns l :
  chain (cells s) m ns → l ⊆ ns.*2 →
  tally p m s (position <$> l) = Z.of_nat (length (filter (λ x, p (dato x) = true) l)).
Proof.
  intros Hch. induction l as [|x l IH]; intros Hsub; [done|].
  csimpl. rewrite tally_cons, IH by set_solver.
  rewrite (satisfies_stored p m s ns x Hch) by set_solver.
  rewrite filter_cons. destruct (decide (p (dato x) = true)) as [Hp|Hp].
  - rewrite Hp. simpl. lia.
  - apply not_true_is_false in Hp. rewrite Hp. lia.
Qed.

Lemma tally_const p m s (b : bool) (ps : list (Z * Z)) :
  Forall (λ ij, satisfies p m s ij = b) ps →
  tally p m s ps = if b then Z.of_nat (length ps) else 0.
Proof.
  induction 1 as [|ij ps Hij _ IH]; [by destruct b|].
  rewrite tally_cons, IH, Hij. destruct b; simpl; lia.
Qed.

Lemma tally_perm p m s (ps qs : list (Z * Z)) : ps ≡ₚ qs → tally p m s ps = tally p m s qs.
Proof. intros Hp. unfold tally. by rewrite Hp. Qed.

(** The positions of the matrix are the stored ones and the others. *)
Lemma stored_positions_split m s ns :
  chain (cells s) m ns →
  positions m ≡ₚ (position <$> ns.*2) ++ filter (λ ij, ij ∉ position <$> ns.*2) (positions m).
Proof.
  intros Hch. set (P := position <$> ns.*2).
  assert (NoDup P) as HP by (apply ascending_NoDup, Hch).
  assert (NoDup (positions m)) as HL.
  { apply strongly_sorted_NoDup, grid_sorted; apply seqZ_sorted. }
  assert (∀ ij, ij ∈ P → ij ∈ positions m) as Hsub.
  { intros ij (x & -> & Hx)%list_elem_of_fmap.
    pose proof (chain_range _ _ _ Hch) as Hra. rewrite Forall_forall in Hra.
    destruct (Hra x Hx) as [Hr Hc]. unfold positions, position.
    apply elem_of_grid. rewrite !elem_of_seqZ. lia. }
  assert (filter (λ ij, ij ∈ P) (positions m) ≡ₚ P) as Hin.
  { apply NoDup_Permutation; [by apply NoDup_filter|done|].
    intros ij. rewrite list_elem_of_filter. naive_solver. }
  rewrite <- Hin at 1. symmetry. apply filter_app_complement.
Qed.

Lemma matches_expected p m s ns :
  chain (cells s) m ns → matches p m s = expected p m ns.*2.
Proof.
  intros Hch. pose proof (chain_dims _ _ _ Hch) as [Hrd Hcd].
  pose proof (stored_positions_split m s ns Hch) as Hsplit.
  set (rest := filter (λ ij, ij ∉ position <$> ns.*2) (positions m)) in *.
  assert (Z.of_nat (length rest) = righe m * colonne m - Z.of_nat (length ns.*2)) as Hlen.
  { rewrite <- positions_length by lia. rewrite Hsplit, length_app, length_fmap. lia. }
  unfold matches. rewrite (tally_perm p m s _ _ Hsplit), tally_app.
  rewrite (tally_stored p m s ns ns.*2 Hch) by done.
  rewrite (tally_const p m s (p (D m)) rest).
  2:{ apply Forall_forall. intros ij [Hno Hpos]%list_elem_of_filter.
      by apply (satisfies_unstored p m s ns). }
  unfold expected, get_default, get_righe, get_colonne. by rewrite Hlen.
Qed.

(** X14.  What [evaluate] returns, from the cells of the traversal:
    the number of stored cells whose value satisfies the predicate, plus,
    when the default satisfies it, the number of positions without a
    stored cell (rows times columns less the number of cells). *)
Theorem evaluate_from_cells p m s l :
  valid m s → traverse m s = Ret l →
  get_righe m < INT_MAX → get_colonne m < INT_MAX → expected p m l ≤ INT_MAX →
  evaluate m p s = Ret (expected p m l).
Proof.
  intros Hv Htr Hr Hc Hle. rewrite (evaluate_spec p m s Hv).
  destruct Hv as [ns Hch]. rewrite (traverse_chain m s ns Hch) in Htr. injection Htr as <-.
  rewrite (matches_expected p m s ns Hch). by rewrite decide_True.
Qed.

(** *** How many cells a matrix holds *)

(** X12.  A valid matrix stores at most rows times columns cells, all
    of them within the dimensions; when it stores that many, every
    in-bounds position holds a cell, whose value [lookup] returns. *)
Theorem stored_cells_bounded m s l :
  valid m s → traverse m s = Ret l →
  Z.of_nat (length l) ≤ get_righe m * get_colonne m ∧
  Forall (λ x, 0 < riga x ≤ get_righe m ∧ 0 < colonna x ≤ get_colonne m) l ∧
  (Z.of_nat (length l) = get_righe m * get_colonne m →
   ∀ r c, 0 < r ≤ get_righe m → 0 < c ≤ get_colonne m →
          ∃ x, x ∈ l ∧ position x = (r, c) ∧ lookup m r c s = Ret (dato x)).
Proof.
  intros [ns Hch] Htr. rewrite (traverse_chain m s ns Hch) in Htr. injection Htr as <-.
  pose proof (chain_dims _ _ _ Hch) as [Hrd Hcd].
  pose proof (stored_positions_split m s ns Hch) as Hsplit.
  pose proof (Permutation_length Hsplit) as Hlen.
  rewrite length_app, length_fmap in Hlen.
  pose proof (positions_length m ltac:(lia) ltac:(lia)) as Hpos.
  unfold get_righe, get_colonne.
  split; [lia|]. split; [apply Hch|].
  intros Hfull r c Hr Hc.
  destruct (decide ((r, c) ∈ position <$> ns.*2)) as [Hin|Hnin].
  - apply list_elem_of_fmap in Hin as (x & Hx & Hin). exists x. split; [done|]. split; [done|].
    injection Hx as -> ->. rewrite (lookup_chain m s ns _ _ Hch Hr Hc).
    by rewrite find_cell_elem by (apply Hch || done).
  - exfalso.
    assert ((r, c) ∈ filter (λ ij, ij ∉ position <$> ns.*2) (positions m)) as Hrest.
    { apply list_elem_of_filter. split; [done|]. unfold positions.
      apply elem_of_grid. rewrite !elem_of_seqZ. lia. }
    destruct (filter _ (positions m)); [by apply elem_of_nil in Hrest|]. simpl in Hlen. lia.
Qed.
(** *** A copy owns its nodes *)

(** X15.  A copy shares no node with its source, and its nodes are
    new ones.  Destroying the source leaves the copy valid, with the
    cells it had; destroying the copy leaves the store exactly as it was
    before the copy was made, the source valid with its cells. *)
Theorem copy_owns_its_nodes other s l :
  valid other s → traverse other s = Ret l →
  Forall (λ x, dato x ≠ get_default other) l → (N.of_nat (length l) ≤ avail s)%N →
  ∃ cp s1 s2 s3,
    copy_construct other s = Ret (cp, s1) ∧
    (∀ a, owns cp s1 a → ¬ owns other s1 a ∧ a ∉ dom (cells s)) ∧
    destroy other s1 = Ret s2 ∧ valid cp s2 ∧ traverse cp s2 = Ret l ∧
    destroy cp s1 = Ret s3 ∧ cells s3 = cells s ∧
    valid other s3 ∧ traverse other s3 = Ret l.
Proof.
  intros [no Hch] Htr Hall Hav.
  rewrite (traverse_chain other s no Hch) in Htr. injection Htr as <-.
  rewrite length_fmap in Hav.
  pose proof (copy_construct_spec other s no Hch) as Hspec.
  destruct (copy_construct other s) as [[cp s1]|s1| | | |]; try done.
  2:{ destruct Hspec as [_ Hlt]. lia. }
  2:{ exfalso. apply Exists_exists in Hspec as (x & Hx & Heq).
      rewrite Forall_forall in Hall. by apply (Hall x Hx). }
  destruct Hspec as (nc & Hc & Hnc & _ & _ & _ & _ & Hfr & Hfresh & _).
  assert (∀ a, a ∈ no.*1 → a ∈ dom (cells s)) as Hold.
  { intros a Ha. apply elem_of_dom. eapply dll_lookup; [apply Hch|done]. }
  assert (∀ a, a ∈ no.*1 → a ∉ nc.*1) as Hdisj.
  { intros a Ha Hin. by apply (Hfresh a Hin), Hold. }
  assert (chain (cells s1) other no) as Hch1.
  { eapply chain_frame; [|exact Hch]. intros a Ha. apply Hfr. auto. }
  destruct (clear_spec other s1 no Hch1) as (s2 & Hcl2 & _ & Hcells2).
  destruct (clear_spec cp s1 nc Hc) as (s3 & Hcl3 & _ & Hcells3).
  assert (chain (cells s2) cp nc) as Hc2.
  { eapply chain_frame; [|exact Hc]. intros a Ha. rewrite Hcells2.
    rewrite decide_False; [done|]. intros Hin. by apply (Hdisj a). }
  assert (cells s3 = cells s) as Heq.
  { apply map_eq. intros a. rewrite Hcells3. destruct (decide (a ∈ nc.*1)) as [Hin|Hnin].
    - symmetry. by apply not_elem_of_dom, Hfresh.
    - by apply Hfr. }
  assert (chain (cells s3) other no) as Hch3 by (by rewrite Heq).
  exists cp, s1, s2, s3. split; [done|]. split.
  { intros a Ha%(owns_chain cp s1 nc a Hc). split; [|by apply Hfresh].
    rewrite (owns_chain other s1 no a Hch1). intros Hin. by apply (Hdisj a). }
  unfold destroy. rewrite Hcl2, Hcl3. simpl.
  split; [done|]. split; [by exists nc|].
  split; [by rewrite (traverse_chain cp s2 nc Hc2), Hnc|].
  split; [done|]. split; [done|]. split; [by exists no|].
  by apply traverse_chain.
Qed.
End Properties.

Section Composition.
Context {Q T U : Type} `{!EqDecision Q, !EqDecision T, !EqDecision U}.
Variable f : Q → T.
Variable g : T → U.

(** X17.  Conversions compose: converting with [f] and converting the
    result with [g] gives a matrix with the dimensions and the [size] of
    the source, the default converted by [f] then [g], and the cells of
    the source, in their order, each with its value converted by [f] then
    [g]. *)
Theorem convert_composes (other : SparseMatrix Q) (w : world Q T) l (hu : gmap addr (node U)) :
  valid other (Store (src w) (budget w)) →
  traverse other (Store (src w) (budget w)) = Ret l →
  Forall (λ x, f (dato x) ≠ f (get_default other)) l →
  Forall (λ x, g (f (dato x)) ≠ g (f (get_default other))) l →
  (4 * N.of_nat (length l) ≤ budget w)%N →
  ∃ m w' m2 w2,
    convert f other w = Ret (m, w') ∧
    convert g m (World (dst w') hu (budget w') []) = Ret (m2, w2) ∧
    get_righe m2 = get_righe other ∧ get_colonne m2 = get_colonne other ∧
    get_size m2 = get_size other ∧
    get_default m2 = g (f (get_default other)) ∧
    traverse m2 (Store (dst w2) (budget w2)) = Ret (cast_cell (g ∘ f) <$> l).
Proof.
  intros [no Hch] Htr Hf Hg Hav.
  rewrite (traverse_chain other _ no Hch) in Htr. injection Htr as <-.
  simpl in Hch. rewrite length_fmap in Hav.
  rewrite Forall_forall in Hf. rewrite Forall_forall in Hg.
  pose proof (convert_spec f other w no Hch) as Hspec.
  destruct (convert f other w) as [[m w']|w'| | | |]; try done.
  2:{ destruct Hspec as (_ & _ & Hlt). lia. }
  2:{ exfalso. destruct Hspec as [Hex|Hex]; apply Exists_exists in Hex as (x & Hx & Heq).
      - apply (Hf x Hx). unfold get_default. by rewrite Heq.
      - by apply (Hf x Hx). }
  destruct Hspec as (nc & Hc & Hnc & Hr & Hcc & HD & Hsz & _ & _ & _ & _ & _ & _ & _ & Hb).
  set (w1 := World (dst w') hu (budget w') ([] : list ptr)).
  assert (length nc = length no) as Hlen.
  { by rewrite <- (length_fmap snd nc), Hnc, !length_fmap. }
  pose proof (convert_spec g m w1 nc Hc) as Hspec2.
  destruct (convert g m w1) as [[m2 w2]|w2| | | |] eqn:Hconv; try done.
  2:{ destruct Hspec2 as (_ & _ & Hlt). simpl in Hlt. lia. }
  2:{ exfalso. rewrite Hnc, HD in Hspec2.
      destruct Hspec2 as [Hex|Hex]; apply Exists_exists in Hex as (y & Hy & Heq);
        apply list_elem_of_fmap in Hy as (x & -> & Hx); simpl in Heq.
      - by apply (Hf x Hx).
      - by apply (Hg x Hx). }
  destruct Hspec2 as (nd & Hd & Hnd & Hr2 & Hc2 & HD2 & Hsz2 & _).
  exists m, w', m2, w2. split; [done|]. split; [done|].
  unfold get_righe, get_colonne, get_size, get_default.
  split; [congruence|]. split; [congruence|]. split; [congruence|].
  split; [by rewrite HD2, HD|].
  rewrite (traverse_chain m2 (Store (dst w2) (budget w2)) nd Hd), Hnd, Hnc.
  by rewrite <- list_fmap_compose.
Qed.
End Composition.

Section ConversionProperties.
Context {Q T : Type} `{!EqDecision Q, !EqDecision T}.
Variable cast : Q → T.

(** X16.  A conversion that returns leaves the store of the source's
    nodes exactly as it found it (the local copy [tmp] is released in
    full) and the source valid; among the nodes of the target type it
    only adds those of the new matrix, none of which existed before. *)
Theorem convert_releases_copy (other : SparseMatrix Q) (w : world Q T) l :
  valid other (Store (src w) (budget w)) →
  traverse other (Store (src w) (budget w)) = Ret l →
  Forall (λ x, cast (dato x) ≠ cast (get_default other)) l →
  (N.of_nat (length l) + N.of_nat (length l) ≤ budget w)%N →
  ∃ m w',
    convert cast other w = Ret (m, w') ∧
    src w' = src w ∧
    valid other (Store (src w') (budget w')) ∧
    valid m (Store (dst w') (budget w')) ∧
    (∀ a, owns m (Store (dst w') (budget w')) a → a ∉ dom (dst w)) ∧
    (∀ a, ¬ owns m (Store (dst w') (budget w')) a → dst w' !! a = dst w !! a).
Proof.
  intros [no Hch] Htr Hall Hav.
  rewrite (traverse_chain other _ no Hch) in Htr. injection Htr as <-.
  simpl in Hch. rewrite length_fmap in Hav. rewrite Forall_forall in Hall.
  pose proof (convert_spec cast other w no Hch) as Hspec.
  destruct (convert cast other w) as [[m w']|w'| | | |]; try done.
  2:{ destruct Hspec as (_ & _ & Hlt). lia. }
  2:{ exfalso. destruct Hspec as [Hex|Hex]; apply Exists_exists in Hex as (x & Hx & Heq).
      - apply (Hall x Hx). unfold get_default. by rewrite Heq.
      - by apply (Hall x Hx). }
  destruct Hspec as (nc & Hc & _ & _ & _ & _ & _ & Hsrc & Hfr & Hnew & _).
  exists m, w'. split; [done|]. split; [done|].
  split; [exists no; simpl; by rewrite Hsrc|].
  split; [by exists nc|].
  split.
  - intros a Ha. apply Hnew. by apply (owns_chain m (Store (dst w') (budget w')) nc a Hc).
  - intros a Ha. apply Hfr. by rewrite <- (owns_chain m (Store (dst w') (budget w')) nc a Hc).
Qed.
End ConversionProperties.

(** ** The properties above on the matrices of main.cpp *)

Lemma clear_releases_witness :
  (valid main_I.1 main_I.2 ∧ traverse main_I.1 main_I.2 = Ret main_cells) ∧
  clear_helper_depth (map_size (cells main_I.2)) (head main_I.1) (cells main_I.2) =
    Ret (S (length main_cells)) ∧
  ∃ m' s',
    clear main_I.1 main_I.2 = Ret (m', s') ∧ destroy main_I.1 main_I.2 = Ret s' ∧
    m' = Matrix None (get_righe main_I.1) (get_colonne main_I.1) 0 (get_default main_I.1) ∧
    valid m' s' ∧ traverse m' s' = Ret [] ∧
    (∀ a, owns main_I.1 main_I.2 a → cells s' !! a = None) ∧
    (∀ a, ¬ owns main_I.1 main_I.2 a → cells s' !! a = cells main_I.2 !! a) ∧
    map_size (cells main_I.2) = (map_size (cells s') + length main_cells)%nat.
Proof.
  split; [split; [apply main_I_valid|by vm_compute]|].
  apply (clear_releases main_I.1 main_I.2 main_cells); [apply main_I_valid|by vm_compute].
Defined.

Lemma lifetime_releases_all_witness :
  (3 ≤ INT_MAX ∧ 2 ≤ INT_MAX ∧ construct 3 2 999 = Ret (S:=store Z) empty_I ∧
   run main_calls empty_I (Store ∅ 32) = Ret (main_I.1, main_I.2)) ∧
  ∃ s', destroy main_I.1 main_I.2 = Ret s' ∧ cells s' = cells (Store (T:=Z) ∅ 32).
Proof.
  split; [by vm_compute|].
  apply (lifetime_releases_all 3 2 999 main_calls (Store ∅ 32) empty_I main_I.1 main_I.2);
    by vm_compute.
Defined.

Lemma add_keeps_iterators_witness :
  (valid scenario_I.1 scenario_I.2 ∧ 0 < 1 ≤ righe scenario_I.1 ∧ 0 < 1 ≤ colonne scenario_I.1 ∧
   3 ≠ D scenario_I.1 ∧ avail scenario_I.2 ≠ 0%N ∧
   advance 0 (begin scenario_I.1) (cells scenario_I.2) = Some (begin scenario_I.1) ∧
   iter_deref (begin scenario_I.1) (cells scenario_I.2) = Some (Element 1 2 2)) ∧
  ∃ m' s' k',
    add scenario_I.1 1 1 3 scenario_I.2 = Ret (m', s') ∧
    (k' = 0%nat ∨ k' = 1%nat) ∧
    advance k' (begin m') (cells s') = Some (begin scenario_I.1) ∧
    iter_deref (begin scenario_I.1) (cells s') =
      Some (if same 1 1 (Element 1 2 2) then Element 1 2 3 else Element 1 2 2).
Proof.
  split; [split; [apply scenario_I_valid|by vm_compute]|].
  apply (add_keeps_iterators scenario_I.1 scenario_I.2 1 1 3 0 (begin scenario_I.1)
           (Element 1 2 2)); [apply scenario_I_valid|by vm_compute..].
Defined.

Lemma write_through_iterator_witness :
  (valid main_I.1 main_I.2 ∧ traverse main_I.1 main_I.2 = Ret main_cells ∧
   advance 0 (begin main_I.1) (cells main_I.2) = Some (begin main_I.1) ∧
   iter_deref (begin main_I.1) (cells main_I.2) = Some (Element 1 1 3)) ∧
  ∃ h',
    iter_write (begin main_I.1) 2000 (cells main_I.2) = Some h' ∧
    valid main_I.1 (Store h' (avail main_I.2)) ∧
    traverse main_I.1 (Store h' (avail main_I.2)) = Ret (<[0%nat := Element 1 1 2000]> main_cells) ∧
    main_cells !! 0%nat = Some (Element 1 1 3) ∧
    lookup main_I.1 1 1 (Store h' (avail main_I.2)) = Ret 2000 ∧
    (∀ i j, (i, j) ≠ (1, 1) →
            lookup main_I.1 i j (Store h' (avail main_I.2)) = lookup main_I.1 i j main_I.2) ∧
    (∀ a, begin main_I.1 ≠ Some a → h' !! a = cells main_I.2 !! a).
Proof.
  split; [split; [apply main_I_valid|by vm_compute]|].
  apply (write_through_iterator main_I.1 main_I.2 main_cells 0 (begin main_I.1)
           (Element 1 1 3) 2000); [apply main_I_valid|by vm_compute..].
Defined.

Lemma iteration_protocol_witness :
  (valid main_I.1 main_I.2 ∧ traverse main_I.1 main_I.2 = Ret main_cells) ∧
  advance (length main_cells) (begin main_I.1) (cells main_I.2) = Some (end_ main_I.1) ∧
  (∀ k, (length main_cells < k)%nat → advance k (begin main_I.1) (cells main_I.2) = None) ∧
  (iter_eq (begin main_I.1) (end_ main_I.1) = true ↔ main_cells = []).
Proof.
  split; [split; [apply main_I_valid|by vm_compute]|].
  destruct (iteration_protocol main_I.1 main_I.2 main_cells)
    as (_ & Hend & Hpast & _ & _ & _ & Hempty); [apply main_I_valid|by vm_compute|].
  exact (conj Hend (conj Hpast Hempty)).
Defined.

Lemma lookup_iterated_cell_witness :
  (valid main_I.1 main_I.2 ∧ traverse main_I.1 main_I.2 = Ret main_cells ∧
   Element 2 2 5 ∈ main_cells) ∧
  0 < 2 ≤ get_righe main_I.1 ∧ 0 < 2 ≤ get_colonne main_I.1 ∧
  lookup main_I.1 2 2 main_I.2 = Ret 5.
Proof.
  assert (Element 2 2 5 ∈ main_cells) as Hin
    by (apply (list_elem_of_lookup_2 _ 3%nat); reflexivity).
  split; [split; [apply main_I_valid|split; [by vm_compute|exact Hin]]|].
  apply (lookup_iterated_cell main_I.1 main_I.2 main_cells (Element 2 2 5));
    [apply main_I_valid|by vm_compute|exact Hin].
Defined.

Lemma set_default_keeps_cells_witness :
  (valid main_I.1 main_I.2 ∧ traverse main_I.1 main_I.2 = Ret main_cells) ∧
  valid (set_default main_I.1 5) main_I.2 ∧
  get_default (set_default main_I.1 5) = 5 ∧
  get_size (set_default main_I.1 5) = get_size main_I.1 ∧
  get_righe (set_default main_I.1 5) = get_righe main_I.1 ∧
  get_colonne (set_default main_I.1 5) = get_colonne main_I.1 ∧
  traverse (set_default main_I.1 5) main_I.2 = Ret main_cells ∧
  (∀ x, x ∈ main_cells →
        lookup (set_default main_I.1 5) (riga x) (colonna x) main_I.2 = Ret (dato x)) ∧
  (∀ r c, 0 < r ≤ get_righe main_I.1 → 0 < c ≤ get_colonne main_I.1 →
          (r, c) ∉ position <$> main_cells →
          lookup (set_default main_I.1 5) r c main_I.2 = Ret 5).
Proof.
  split; [split; [apply main_I_valid|by vm_compute]|].
  apply (set_default_keeps_cells main_I.1 main_I.2 main_cells 5);
    [apply main_I_valid|by vm_compute].
Defined.

Lemma evaluate_overflow_iff_witness :
  valid tall (Store ∅ 0) ∧ evaluate tall (λ _, false) (Store ∅ 0) = Overflow.
Proof.
  assert (valid tall (Store ∅ 0)) as Hv.
  { exists []. apply chain_empty; by vm_compute. }
  split; [exact Hv|].
  apply (proj2 (proj1 (evaluate_overflow_iff (λ _, false) tall (Store ∅ 0) Hv))).
  left. reflexivity.
Defined.

Lemma evaluate_from_cells_witness :
  (valid main_I.1 main_I.2 ∧ traverse main_I.1 main_I.2 = Ret main_cells ∧
   get_righe main_I.1 < INT_MAX ∧ get_colonne main_I.1 < INT_MAX ∧
   expected divis_per_3 main_I.1 main_cells ≤ INT_MAX) ∧
  evaluate main_I.1 divis_per_3 main_I.2 = Ret 3.
Proof.
  split; [split; [apply main_I_valid|by vm_compute]|].
  apply (evaluate_from_cells divis_per_3 main_I.1 main_I.2 main_cells);
    [apply main_I_valid|by vm_compute..].
Defined.

Lemma copy_owns_its_nodes_witness :
  (valid main_I.1 main_I.2 ∧ traverse main_I.1 main_I.2 = Ret main_cells ∧
   Forall (λ x, dato x ≠ get_default main_I.1) main_cells ∧
   (N.of_nat (length main_cells) ≤ avail main_I.2)%N) ∧
  ∃ cp s1 s2 s3,
    copy_construct main_I.1 main_I.2 = Ret (cp, s1) ∧
    (∀ a, owns cp s1 a → ¬ owns main_I.1 s1 a ∧ a ∉ dom (cells main_I.2)) ∧
    destroy main_I.1 s1 = Ret s2 ∧ valid cp s2 ∧ traverse cp s2 = Ret main_cells ∧
    destroy cp s1 = Ret s3 ∧ cells s3 = cells main_I.2 ∧
    valid main_I.1 s3 ∧ traverse main_I.1 s3 = Ret main_cells.
Proof.
  assert (Forall (λ x, dato x ≠ get_default main_I.1) main_cells) as Hall.
  { repeat constructor; by vm_compute. }
  split; [split; [apply main_I_valid|]; split; [by vm_compute|]; split; [exact Hall|by vm_compute]|].
  apply (copy_owns_its_nodes main_I.1 main_I.2 main_cells);
    [apply main_I_valid|by vm_compute|exact Hall|by vm_compute].
Defined.

Lemma convert_composes_witness :
  (valid (set_default main_I.1 0) (Store (cells main_I.2) 24) ∧
   traverse (set_default main_I.1 0) (Store (cells main_I.2) 24) = Ret main_cells ∧
   Forall (λ x, to_long (dato x) ≠ to_long 0) main_cells ∧
   Forall (λ x, to_bool (to_long (dato x)) ≠ to_bool (to_long 0)) main_cells ∧
   (4 * N.of_nat (length main_cells) ≤ 24)%N) ∧
  ∃ m w' m2 w2,
    convert to_long (set_default main_I.1 0) (World (cells main_I.2) ∅ 24 []) = Ret (m, w') ∧
    convert to_bool m (World (dst w') ∅ (budget w') []) = Ret (m2, w2) ∧
    get_righe m2 = 3 ∧ get_colonne m2 = 2 ∧ get_size m2 = 6 ∧ get_default m2 = false ∧
    traverse m2 (Store (dst w2) (budget w2)) = Ret (cast_cell (to_bool ∘ to_long) <$> main_cells).
Proof.
  assert (valid (set_default main_I.1 0) (Store (cells main_I.2) 24)) as Hv.
  { destruct main_I_valid as [ns Hns]. exists ns. by apply chain_set_default. }
  assert (Forall (λ x, to_long (dato x) ≠ to_long 0) main_cells) as Hf.
  { repeat constructor; by vm_compute. }
  assert (Forall (λ x, to_bool (to_long (dato x)) ≠ to_bool (to_long 0)) main_cells) as Hg.
  { repeat constructor; by vm_compute. }
  split; [split; [exact Hv|]; split; [by vm_compute|]; split; [exact Hf|]; split;
          [exact Hg|by vm_compute]|].
  apply (convert_composes to_long to_bool (set_default main_I.1 0)
           (World (cells main_I.2) ∅ 24 []) main_cells ∅);
    [exact Hv|by vm_compute|exact Hf|exact Hg|by vm_compute].
Defined.

Lemma class_invariant_witness :
  (3 ≤ INT_MAX ∧ 2 ≤ INT_MAX ∧ construct 3 2 999 = Ret (S:=store Z) empty_I ∧
   valid main_I.1 main_I.2) ∧
  valid empty_I (Store (T:=Z) ∅ 32) ∧ valid (set_default main_I.1 5) main_I.2.
Proof.
  split; [split; [|split; [|split]]; [by vm_compute..|apply main_I_valid]|].
  destruct (class_invariant (T:=Z)) as (Hctor & _ & Hset & _).
  split.
  - apply (Hctor 3 2 999 empty_I (Store ∅ 32)); by vm_compute.
  - apply (Hset main_I.1 main_I.2 5), main_I_valid.
Defined.

Lemma add_places_cell_witness :
  (valid scenario_I.1 scenario_I.2 ∧
   traverse scenario_I.1 scenario_I.2 = Ret [Element 1 2 2; Element 2 2 5] ∧
   0 < 1 ≤ righe scenario_I.1 ∧ 0 < 1 ≤ colonne scenario_I.1 ∧
   3 ≠ D scenario_I.1 ∧ avail scenario_I.2 ≠ 0%N) ∧
  ∃ m' s',
    add scenario_I.1 1 1 3 scenario_I.2 = Ret (m', s') ∧
    traverse m' s' = Ret [Element 1 1 3; Element 1 2 2; Element 2 2 5].
Proof.
  split; [split; [apply scenario_I_valid|by vm_compute]|].
  apply (add_places_cell scenario_I.1 scenario_I.2 [Element 1 2 2; Element 2 2 5] 1 1 3);
    [apply scenario_I_valid|by vm_compute..].
Defined.

Lemma add_node_accounting_witness :
  (valid scenario_I.1 scenario_I.2 ∧
   traverse scenario_I.1 scenario_I.2 = Ret [Element 1 2 2; Element 2 2 5] ∧
   0 < 2 ≤ righe scenario_I.1 ∧ 0 < 2 ≤ colonne scenario_I.1 ∧
   7 ≠ D scenario_I.1 ∧ avail scenario_I.2 ≠ 0%N) ∧
  ∃ m' s',
    add scenario_I.1 2 2 7 scenario_I.2 = Ret (m', s') ∧
    (∀ a, ¬ owns m' s' a → cells s' !! a = cells scenario_I.2 !! a) ∧
    (∀ a, owns scenario_I.1 scenario_I.2 a → owns m' s' a) ∧
    dom (cells s') = dom (cells scenario_I.2) ∧ get_size m' = get_size scenario_I.1.
Proof.
  split; [split; [apply scenario_I_valid|by vm_compute]|].
  destruct (add_node_accounting scenario_I.1 scenario_I.2 [Element 1 2 2; Element 2 2 5] 2 2 7)
    as (m' & s' & Hadd & Hfr & Hmono & Hdom); [apply scenario_I_valid|by vm_compute..|].
  exists m', s'. split; [exact Hadd|]. split; [exact Hfr|]. split; [exact Hmono|].
  rewrite decide_True in Hdom; [exact Hdom|].
  apply (list_elem_of_lookup_2 _ 1%nat). reflexivity.
Defined.

Lemma convert_releases_copy_witness :
  (valid main_I.1 (Store (cells main_I.2) 12) ∧
   traverse main_I.1 (Store (cells main_I.2) 12) = Ret main_cells ∧
   Forall (λ x, to_long (dato x) ≠ to_long (get_default main_I.1)) main_cells ∧
   (N.of_nat (length main_cells) + N.of_nat (length main_cells) ≤ 12)%N) ∧
  ∃ m w',
    convert to_long main_I.1 (World (cells main_I.2) ∅ 12 []) = Ret (m, w') ∧
    src w' = cells main_I.2 ∧
    valid main_I.1 (Store (src w') (budget w')) ∧
    valid m (Store (dst w') (budget w')) ∧
    (∀ a, owns m (Store (dst w') (budget w')) a → a ∉ dom (∅ : gmap addr (node Z))) ∧
    (∀ a, ¬ owns m (Store (dst w') (budget w')) a → dst w' !! a = (∅ : gmap addr (node Z)) !! a).
Proof.
  assert (valid main_I.1 (Store (cells main_I.2) 12)) as Hv.
  { destruct main_I_valid as [ns Hns]. by exists ns. }
  assert (Forall (λ x, to_long (dato x) ≠ to_long (get_default main_I.1)) main_cells) as Hall.
  { repeat constructor; by vm_compute. }
  split; [split; [exact Hv|]; split; [by vm_compute|]; split; [exact Hall|by vm_compute]|].
  apply (convert_releases_copy to_long main_I.1 (World (cells main_I.2) ∅ 12 []) main_cells);
    [exact Hv|by vm_compute|exact Hall|by vm_compute].
Defined.

Lemma adds_compose_witness :
  (valid scenario_I.1 scenario_I.2 ∧
   0 < 1 ≤ righe scenario_I.1 ∧ 0 < 1 ≤ colonne scenario_I.1 ∧ 3 ≠ D scenario_I.1 ∧
   0 < 3 ≤ righe scenario_I.1 ∧ 0 < 2 ≤ colonne scenario_I.1 ∧ 6 ≠ D scenario_I.1 ∧
   (2 ≤ avail scenario_I.2)%N) ∧
  ∃ m1 s1 m2 s2 l,
    add scenario_I.1 1 1 3 scenario_I.2 = Ret (m1, s1) ∧ add m1 3 2 6 s1 = Ret (m2, s2) ∧
    traverse m2 s2 = Ret l ∧
    ∃ m3 s3 m4 s4,
      add scenario_I.1 3 2 6 scenario_I.2 = Ret (m3, s3) ∧ add m3 1 1 3 s3 = Ret (m4, s4) ∧
      traverse m4 s4 = Ret l ∧ get_size m4 = get_size m2.
Proof.
  split; [split; [apply scenario_I_valid|by vm_compute]|].
  destruct (adds_compose scenario_I.1 scenario_I.2 1 1 3 3 2 6)
    as (m1 & s1 & m2 & s2 & l & Hadd1 & Hadd2 & Htr & Hswap);
    [apply scenario_I_valid|by vm_compute..|].
  exists m1, s1, m2, s2, l. split; [exact Hadd1|]. split; [exact Hadd2|]. split; [exact Htr|].
  rewrite decide_False in Hswap; [exact Hswap|]. intros Heq. discriminate Heq.
Defined.

Lemma stored_cells_bounded_witness :
  (valid main_I.1 main_I.2 ∧ traverse main_I.1 main_I.2 = Ret main_cells) ∧
  Z.of_nat (length main_cells) ≤ get_righe main_I.1 * get_colonne main_I.1 ∧
  Forall (λ x, 0 < riga x ≤ get_righe main_I.1 ∧ 0 < colonna x ≤ get_colonne main_I.1)
    main_cells ∧
  (Z.of_nat (length main_cells) = get_righe main_I.1 * get_colonne main_I.1 →
   ∀ r c, 0 < r ≤ get_righe main_I.1 → 0 < c ≤ get_colonne main_I.1 →
          ∃ x, x ∈ main_cells ∧ position x = (r, c) ∧ lookup main_I.1 r c main_I.2 = Ret (dato x)).
Proof.
  split; [split; [apply main_I_valid|by vm_compute]|].
  apply (stored_cells_bounded main_I.1 main_I.2 main_cells);
    [apply main_I_valid|by vm_compute].
Defined.

(** ** The ways out of the two copying constructors *)

Section Outcomes.
Context {T : Type} `{!EqDecision T}.
Implicit Types (l : list (element T)) (m other : SparseMatrix T) (s : store T).

(** X18.  The ways out of the copy constructor on a valid source.  It
    returns only if no stored value equals the default and an allocation
    is available for each cell; it throws only if the allocations run
    short, and the store is then what it was; it aborts only if some
    stored value equals the default; it makes no invalid access.
    Conversely, a stored value equal to the default makes it abort
    whenever the allocations suffice. *)
Theorem copy_outcomes other s l :
  valid other s → traverse other s = Ret l →
  match copy_construct other s with
  | Ret _ =>
      Forall (λ x, dato x ≠ get_default other) l ∧ (N.of_nat (length l) ≤ avail s)%N
  | Throw s' => (avail s < N.of_nat (length l))%N ∧ cells s' = cells s
  | Abort => Exists (λ x, dato x = get_default other) l
  | _ => False
  end ∧
  (Exists (λ x, dato x = get_default other) l → (N.of_nat (length l) ≤ avail s)%N →
   copy_construct other s = Abort).
Proof.
  intros [no Hch] Htr. rewrite (traverse_chain other s no Hch) in Htr. injection Htr as <-.
  rewrite length_fmap. pose proof (copy_construct_spec other s no Hch) as Hspec.
  destruct (copy_construct other s) as [[cp s']|s'| | | |]; try done.
  - destruct Hspec as (nc & _ & _ & _ & _ & _ & _ & _ & _ & Hall & Hle & _).
    split; [done|]. intros Hex _. exfalso.
    apply Exists_exists in Hex as (x & Hx & Heq). rewrite Forall_forall in Hall.
    by apply (Hall x Hx).
  - destruct Hspec as [Hcells Hlt]. split; [done|]. intros _ Hle. lia.
Qed.
End Outcomes.

Section ConversionOutcomes.
Context {Q T : Type} `{!EqDecision Q, !EqDecision T}.
Variable cast : Q → T.

(** X19.  The ways out of the conversion constructor on a valid
    source.  It returns only if no stored value converts to the converted
    default and two allocations are available for each cell (one for the
    local copy, one for the target); it throws only if the allocations
    run short, both stores being then what they were; it aborts only if
    some stored value converts to the converted default; apart from the
    dereference of line 218 it makes no invalid access.  Conversely, a
    stored value that converts to the converted default makes it abort
    whenever the allocations suffice. *)
Theorem convert_outcomes (other : SparseMatrix Q) (w : world Q T) l :
  valid other (Store (src w) (budget w)) →
  traverse other (Store (src w) (budget w)) = Ret l →
  match convert cast other w with
  | Ret _ =>
      Forall (λ x, cast (dato x) ≠ cast (get_default other)) l ∧
      (N.of_nat (length l) + N.of_nat (length l) ≤ budget w)%N
  | Throw w' =>
      (budget w < N.of_nat (length l) + N.of_nat (length l))%N ∧
      src w' = src w ∧ dst w' = dst w
  | Abort => Exists (λ x, cast (dato x) = cast (get_default other)) l
  | _ => False
  end ∧
  (Exists (λ x, cast (dato x) = cast (get_default other)) l →
   (N.of_nat (length l) + N.of_nat (length l) ≤ budget w)%N →
   convert cast other w = Abort).
Proof.
  intros [no Hch] Htr. rewrite (traverse_chain other _ no Hch) in Htr. injection Htr as <-.
  simpl in Hch. rewrite length_fmap. pose proof (convert_spec cast other w no Hch) as Hspec.
  destruct (convert cast other w) as [[m w']|w'| | | |]; try done.
  - destruct Hspec as (nc & _ & _ & _ & _ & _ & _ & _ & _ & _ & _ & Hall & Hle & _).
    split; [done|]. intros Hex _. exfalso.
    apply Exists_exists in Hex as (x & Hx & Heq). rewrite Forall_forall in Hall.
    by apply (Hall x Hx).
  - destruct Hspec as (Hsrc & Hdst & Hlt). split; [done|]. intros _ Hle. lia.
  - split; [|done]. destruct Hspec as [Hex|Hex]; [|done].
    eapply Exists_impl; [exact Hex|]. simpl. intros x ->. done.
Qed.
End ConversionOutcomes.

Lemma copy_outcomes_witness :
  (valid stale_I.1 stale_I.2 ∧ traverse stale_I.1 stale_I.2 = Ret [Element 1 1 5] ∧
   Exists (λ x, dato x = get_default stale_I.1) [Element 1 1 5] ∧
   (N.of_nat (length [Element 1 1 5]) ≤ avail stale_I.2)%N) ∧
  copy_construct stale_I.1 stale_I.2 = Abort.
Proof.
  assert (Exists (λ x, dato x = get_default stale_I.1) [Element 1 1 5]) as Hex.
  { left. reflexivity. }
  split; [split; [apply stale_I_valid|]; split; [by vm_compute|]; split;
          [exact Hex|by vm_compute]|].
  apply (proj2 (copy_outcomes stale_I.1 stale_I.2 [Element 1 1 5] stale_I_valid
                  ltac:(by vm_compute)) Hex).
  by vm_compute.
Defined.

Lemma convert_outcomes_witness :
  (valid main_I.1 (Store (cells main_I.2) 12) ∧
   traverse main_I.1 (Store (cells main_I.2) 12) = Ret main_cells ∧
   Exists (λ x, to_bool (dato x) = to_bool (get_default main_I.1)) main_cells ∧
   (N.of_nat (length main_cells) + N.of_nat (length main_cells) ≤ 12)%N) ∧
  convert to_bool main_I.1 (World (cells main_I.2) ∅ 12 []) = Abort.
Proof.
  assert (valid main_I.1 (Store (cells main_I.2) 12)) as Hv.
  { destruct main_I_valid as [ns Hns]. by exists ns. }
  assert (Exists (λ x, to_bool (dato x) = to_bool (get_default main_I.1)) main_cells) as Hex.
  { left. reflexivity. }
  split; [split; [exact Hv|]; split; [by vm_compute|]; split; [exact Hex|by vm_compute]|].
  apply (proj2 (convert_outcomes to_bool main_I.1 (World (cells main_I.2) ∅ 12 []) main_cells
                  Hv ltac:(by vm_compute)) Hex).
  by vm_compute.
Defined.
